(** * A falling-block game: bag, bitmap, shape and game loop

    Shallow embedding of [bag.ts], [blocks.ts], [bitmap.ts], [shape.ts] and
    [game.ts], followed by the properties of the design document that are
    checked against it.

    Conventions of the embedding.
    - JavaScript numbers that the program only ever uses as integers
      (indices, offsets, counters) are [Z].
    - A [TypeError] (indexing or calling a method on [undefined]) is the
      [Throw] outcome of a small error monad.
    - Reading an array outside its bounds gives [undefined]; a cell is
      therefore a [value], with [None] for [undefined].
    - Objects that the source mutates in place (the board, the current
      shape, the bags) are threaded explicitly: a method returns the
      mutated receiver next to its result. *)

From Stdlib Require Import ZArith Lia Ascii String List.
From stdpp Require Import base tactics option list pretty.
Import ListNotations.
Local Open Scope string_scope.
Local Open Scope list_scope.
Local Open Scope Z_scope.

(** ** Outcomes: normal return or thrown [TypeError] *)

Inductive outcome (A : Type) : Type :=
| Ret (a : A)
| Throw.
Arguments Ret {A} a.
Arguments Throw {A}.

#[global] Instance outcome_ret : MRet outcome := fun A a => Ret a.
#[global] Instance outcome_bind : MBind outcome := fun A B k m =>
  match m with
  | Ret a => k a
  | Throw => Throw
  end.

(** [o] is [undefined]: using it as an object throws. *)
Definition defined {A} (o : option A) : outcome A :=
  match o with
  | Some a => Ret a
  | None => Throw
  end.

(** ** JavaScript arrays *)

(** [l[i]]; [None] is [undefined]. *)
Definition array_get {A} (l : list A) (i : Z) : option A :=
  if decide (0 ≤ i) then l !! Z.to_nat i else None.

(** [for (let i = start; i < stop; i++) s = body(i, s)], [n] iterations
    left. *)
Fixpoint for_loop {St} (n : nat) (i : Z) (body : Z → St → outcome St) (s : St)
  : outcome St :=
  match n with
  | O => Ret s
  | S n' => s' ← body i s; for_loop n' (i + 1) body s'
  end.

Definition for_range {St} (start stop : Z) (body : Z → St → outcome St)
    (s : St) : outcome St :=
  for_loop (Z.to_nat (stop - start)) start body s.

(** [for (let i = start; i < stop; i++) if (test(i)) return true;
    return false]. *)
Fixpoint any_loop (n : nat) (i : Z) (test : Z → outcome bool) : outcome bool :=
  match n with
  | O => Ret false
  | S n' => b ← test i; if b : bool then Ret true else any_loop n' (i + 1) test
  end.

Definition for_any (start stop : Z) (test : Z → outcome bool) : outcome bool :=
  any_loop (Z.to_nat (stop - start)) start test.

(** ** bitmap.ts *)

(** A style is a string; [None] is the [undefined] that a read outside a
    row yields. *)
Definition value : Type := option string.

(** [export const E = ""]. *)
Definition E : value := Some "".

(** [v != E] and [v == E]: [undefined] is not loosely equal to the empty
    string. *)
Definition neE (v : value) : bool :=
  match v with
  | Some s => negb (String.eqb s "")
  | None => true
  end.
Definition eqE (v : value) : bool := negb (neE v).

(** [export type Style2D = string[][]] *)
Abbreviation Style2D := (list (list value)).

(** [r[col]] for a row [r]. *)
Definition cell (r : list value) (col : Z) : value :=
  mjoin (array_get r col).

(** [r[col] = v]. Past the end the array grows and the gap reads
    [undefined]. A negative [col] sets a property that is no element of the
    array; the source reads a cell at a negative column only to compare it
    with [E] (in [isOverlapping]), and the stored [v] is never [E], so that
    read cannot tell the property from [undefined]: the row is left as it
    is. *)
Definition array_set (r : list value) (col : Z) (v : value) : list value :=
  if decide (col < 0) then r
  else
    let n := Z.to_nat col in
    if decide (n < length r)%nat then <[n := v]> r
    else r ++ replicate (n - length r) None ++ [v].

(** [a.splice(start, 1)] *)
Definition splice1 {A} (l : list A) (start : Z) : list A :=
  let len := Z.of_nat (length l) in
  let s := if decide (start < 0) then Z.max (len + start) 0
           else Z.min start len in
  delete (Z.to_nat s) l.

Record Bitmap : Type := mkBitmap { data : Style2D }.

Module Bitmap.

(** [static emptyWithSize(rows, cols)] *)
Definition emptyWithSize (rows cols : Z) : Bitmap :=
  mkBitmap (replicate (Z.to_nat rows) (replicate (Z.to_nat cols) E)).

(** [rows()] *)
Definition rows (this : Bitmap) : Z := Z.of_nat (length (data this)).

(** [cols()]: [this.data[0].length] *)
Definition cols (this : Bitmap) : outcome Z :=
  r ← defined (array_get (data this) 0); Ret (Z.of_nat (length r)).

(** [this.data[row][col]] *)
Definition get (this : Bitmap) (row col : Z) : outcome value :=
  r ← defined (array_get (data this) row); Ret (cell r col).

(** [rotate()]. The arrays are built in index order: [rotated[col] = []]
    is executed with [col = rotated.length], so the fresh column, filled
    by the inner loop through [column[row] = ...], is appended. *)
Definition rotate (this : Bitmap) : outcome Bitmap :=
  let rows := rows this in
  cols ← cols this;
  rotated ← for_range 0 cols (fun col rotated =>
    column ← for_range 0 rows (fun row column =>
      v ← get this (rows - row - 1) col;
      Ret (array_set column row v)) [];
    Ret (rotated ++ [column])) [];
  Ret (mkBitmap rotated).

(** [allRotations()] *)
Definition allRotations (this : Bitmap) : outcome (list Bitmap) :=
  for_range 1 4 (fun i rotations =>
    prev ← defined (array_get rotations (i - 1));
    r ← rotate prev;
    Ret (rotations ++ [r])) [this].

(** [isOverlapping(rowOffset, colOffset, other)] *)
Definition isOverlapping (this : Bitmap) (rowOffset colOffset : Z)
    (other : Bitmap) : outcome bool :=
  ocols ← cols other;
  tcols ← cols this;
  let maxRows := Z.min (rows other) (rowOffset + rows this) in
  let maxCols := Z.min ocols (colOffset + tcols) in
  for_any rowOffset maxRows (fun row =>
    for_any colOffset maxCols (fun col =>
      value ← get this (row - rowOffset) (col - colOffset);
      otherValue ← get other row col;
      Ret (neE value && neE otherValue))).

(** [copyFrom(rowOffset, colOffset, other)]; returns the receiver as
    mutated. *)
Definition copyFrom (this : Bitmap) (rowOffset colOffset : Z)
    (other : Bitmap) : outcome Bitmap :=
  tcols ← cols this;
  ocols ← cols other;
  let maxRows := Z.min (rows this) (rowOffset + rows other) in
  let maxCols := Z.min tcols (colOffset + ocols) in
  d ← for_range rowOffset maxRows (fun row d =>
    for_range colOffset maxCols (fun col d =>
      value ← get other (row - rowOffset) (col - colOffset);
      if neE value then
        trow ← defined (array_get d row);
        Ret (<[Z.to_nat row := array_set trow col value]> d)
      else Ret d) d) (data this);
  Ret (mkBitmap d).

(** [isRowFilled(row)] *)
Definition isRowFilled (this : Bitmap) (row : Z) : outcome bool :=
  cols ← cols this;
  hasEmpty ← for_any 0 cols (fun col =>
    v ← get this row col; Ret (eqE v));
  Ret (negb hasEmpty).

(** [removeRow(row)]: the width of the new row is read after the
    splice. *)
Definition removeRow (this : Bitmap) (row : Z) : outcome Bitmap :=
  let spliced := mkBitmap (splice1 (data this) row) in
  cols ← cols spliced;
  Ret (mkBitmap (replicate (Z.to_nat cols) E :: data spliced)).

(** The loop of [removeFilledRows]:
    [for (let row = rows - 1; row >= count; ) ...].
    Every iteration lowers [row - count] by one, so [row - count + 1]
    iterations remain and [fuel] bounds them (see
    [removeFilledRows_loop_fuel]). *)
Fixpoint removeFilledRows_loop (fuel : nat) (this : Bitmap) (row count : Z)
  : outcome (Z * Bitmap) :=
  match fuel with
  | O => Ret (count, this)
  | S fuel' =>
      if decide (row >= count) then
        filled ← isRowFilled this row;
        if filled : bool then
          this' ← removeRow this row;
          removeFilledRows_loop fuel' this' row (count + 1)
        else removeFilledRows_loop fuel' this (row - 1) count
      else Ret (count, this)
  end.

(** [removeFilledRows()]; returns the count and the receiver as
    mutated. *)
Definition removeFilledRows (this : Bitmap) : outcome (Z * Bitmap) :=
  let rows := rows this in
  removeFilledRows_loop (Z.to_nat rows) this (rows - 1) 0.

End Bitmap.

(** ** blocks.ts *)

Module Blocks.

Definition B : value := Some "#0000ff".
Definition C : value := Some "#00ffff".
Definition G : value := Some "#00ff00".
Definition O : value := Some "#ff7f00".
Definition P : value := Some "#800080".
Definition R : value := Some "#ff0000".
Definition Y : value := Some "#ffff00".

Definition BLOCK_I : Bitmap := mkBitmap [[C; C; C; C]].
Definition BLOCK_J : Bitmap := mkBitmap [[B; E; E]; [B; B; B]].
Definition BLOCK_L : Bitmap := mkBitmap [[E; E; O]; [O; O; O]].
Definition BLOCK_O : Bitmap := mkBitmap [[Y; Y]; [Y; Y]].
Definition BLOCK_S : Bitmap := mkBitmap [[E; G; G]; [G; G; E]].
Definition BLOCK_T : Bitmap := mkBitmap [[P; P; P]; [E; P; E]].
Definition BLOCK_Z : Bitmap := mkBitmap [[R; R; E]; [E; R; R]].

Definition BLOCKS : list Bitmap :=
  [BLOCK_I; BLOCK_J; BLOCK_L; BLOCK_O; BLOCK_S; BLOCK_T; BLOCK_Z].

End Blocks.

(** ** bag.ts *)

Record Bag (T : Type) : Type := mkBag { values : list T; index : Z }.
Arguments mkBag {T} values index.
Arguments values {T} b.
Arguments index {T} b.

Module Bag.
Section Ops.
Context {T : Type}.

(** [constructor(values)] *)
Definition new (values : list T) : Bag T := mkBag values 0.

(** [this.values.length] *)
Definition length (this : Bag T) : Z := Z.of_nat (List.length (values this)).

(** [current()]; [None] is [undefined]. *)
Definition current (this : Bag T) : option T :=
  array_get (values this) (index this).

(** [next()]: the receiver after the call; the value returned is its
    [current]. [%] is the remainder that takes the sign of the
    dividend. On an empty bag the source computes [NaN], and [current]
    is [undefined] whatever the index, here as there. *)
Definition next (this : Bag T) : Bag T :=
  mkBag (values this) (Z.rem (index this + 1) (length this)).

(** [previous()] *)
Definition previous (this : Bag T) : Bag T :=
  mkBag (values this) (Z.rem (length this + index this - 1) (length this)).

(** [random()]; [k] is the index that
    [Math.floor(Math.random() * this.values.length)] draws. *)
Definition random (k : Z) (this : Bag T) : Bag T :=
  mkBag (values this) k.

(** The current element is an object mutated in place by its own
    methods; [update] stores the mutated object back. *)
Definition update (this : Bag T) (v : T) : Bag T :=
  mkBag (<[Z.to_nat (index this) := v]> (values this)) (index this).
End Ops.
End Bag.

(** ** shape.ts *)

Record Shape : Type :=
  mkShape { rotations : Bag Bitmap; rowOffset : Z; colOffset : Z }.

Module Shape.

Definition setRotations (this : Shape) (r : Bag Bitmap) : Shape :=
  mkShape r (rowOffset this) (colOffset this).
Definition setRowOffset (this : Shape) (r : Z) : Shape :=
  mkShape (rotations this) r (colOffset this).
Definition setColOffset (this : Shape) (c : Z) : Shape :=
  mkShape (rotations this) (rowOffset this) c.

(** [constructor(bitmap)] *)
Definition new (bitmap : Bitmap) : outcome Shape :=
  all ← Bitmap.allRotations bitmap;
  Ret (mkShape (Bag.new all) 0 0).

(** [static asShapes(bitmaps)] *)
Definition asShapes (bitmaps : list Bitmap) : outcome (list Shape) :=
  mapM new bitmaps.

(** [this.rotations.current()], about to receive a method call. *)
Definition currentBitmap (this : Shape) : outcome Bitmap :=
  defined (Bag.current (rotations this)).

(** [isWithin(board)] *)
Definition isWithin (this : Shape) (board : Bitmap) : outcome bool :=
  if decide (colOffset this < 0) then Ret false
  else
    cur ← currentBitmap this;
    currentCols ← Bitmap.cols cur;
    boardCols ← Bitmap.cols board;
    if decide (colOffset this + currentCols > boardCols) then Ret false
    else
      cur ← currentBitmap this;
      let currentRows := Bitmap.rows cur in
      let boardRows := Bitmap.rows board in
      if decide (rowOffset this + currentRows > boardRows) then Ret false
      else Ret true.

(** [isOverlapping(board)] *)
Definition isOverlapping (this : Shape) (board : Bitmap) : outcome bool :=
  cur ← currentBitmap this;
  Bitmap.isOverlapping cur (rowOffset this) (colOffset this) board.

(** [!this.isWithin(board) || this.isOverlapping(board)] *)
Definition blocked (this : Shape) (board : Bitmap) : outcome bool :=
  within ← isWithin this board;
  if within : bool then isOverlapping this board else Ret true.

(** [fitWithin(board)]; returns the receiver as mutated. *)
Definition fitWithin (this : Shape) (board : Bitmap) : outcome Shape :=
  let boardRows := Bitmap.rows board in
  boardCols ← Bitmap.cols board;
  let this := if decide (colOffset this < 0) then setColOffset this 0
              else this in
  cur ← currentBitmap this;
  currentCols ← Bitmap.cols cur;
  let this := if decide (colOffset this + currentCols > boardCols)
              then setColOffset this (boardCols - currentCols)
              else this in
  cur ← currentBitmap this;
  let currentRows := Bitmap.rows cur in
  let this := if decide (rowOffset this + currentRows > boardRows)
              then setRowOffset this (boardRows - currentRows)
              else this in
  Ret this.

(** [changeColOffset(colOffset, board)]; returns the result and the
    receiver as mutated. *)
Definition changeColOffset (this : Shape) (colOffset' : Z) (board : Bitmap)
  : outcome (bool * Shape) :=
  let before := colOffset this in
  let this := setColOffset this colOffset' in
  b ← blocked this board;
  if b : bool then Ret (false, setColOffset this before)
  else Ret (true, this).

(** [left(board)] *)
Definition left (this : Shape) (board : Bitmap) : outcome (bool * Shape) :=
  changeColOffset this (colOffset this - 1) board.

(** [right(board)] *)
Definition right (this : Shape) (board : Bitmap) : outcome (bool * Shape) :=
  changeColOffset this (colOffset this + 1) board.

(** [rotate(board)] *)
Definition rotate (this : Shape) (board : Bitmap) : outcome (bool * Shape) :=
  let this := setRotations this (Bag.next (rotations this)) in
  this ← fitWithin this board;
  o ← isOverlapping this board;
  if o : bool
  then Ret (false, setRotations this (Bag.previous (rotations this)))
  else Ret (true, this).

(** [down(board)] *)
Definition down (this : Shape) (board : Bitmap) : outcome (bool * Shape) :=
  let before := rowOffset this in
  let this := setRowOffset this (rowOffset this + 1) in
  b ← blocked this board;
  if b : bool then Ret (false, setRowOffset this before)
  else Ret (true, this).

(** [resetPosition(board)]; [Math.floor] of the halved difference is the
    flooring division of [Z]. *)
Definition resetPosition (this : Shape) (board : Bitmap)
  : outcome (bool * Shape) :=
  let this := setRowOffset this 0 in
  boardCols ← Bitmap.cols board;
  cur ← currentBitmap this;
  currentCols ← Bitmap.cols cur;
  let this := setColOffset this ((boardCols - currentCols) / 2) in
  o ← isOverlapping this board;
  Ret (negb o, this).

(** [copyTo(board)]; returns the board as mutated. *)
Definition copyTo (this : Shape) (board : Bitmap) : outcome Bitmap :=
  cur ← currentBitmap this;
  Bitmap.copyFrom board (rowOffset this) (colOffset this) cur.

End Shape.

(** ** game.ts *)

Definition ROWS : Z := 15.
Definition COLS : Z := 10.

Inductive State : Type := PLAYING | PAUSED | GAME_OVER.

(** [state == State.PLAYING] *)
Definition isPlaying (s : State) : bool :=
  match s with
  | PLAYING => true
  | _ => false
  end.

(** The canvas, the drawing context and the two time stamps are left out:
    no method below reads them. *)
Record Game : Type :=
  mkGame { board : Bitmap; shapes : Bag Shape; state : State;
           lines : Z; score : Z }.

Module Game.

Definition setShapes (this : Game) (s : Bag Shape) : Game :=
  mkGame (board this) s (state this) (lines this) (score this).
Definition setState (this : Game) (s : State) : Game :=
  mkGame (board this) (shapes this) s (lines this) (score this).

(** [this.shapes.current()], about to receive a method call. *)
Definition currentShape (this : Game) : outcome Shape :=
  defined (Bag.current (shapes this)).

(** The current shape was mutated in place into [s]. *)
Definition withShape (this : Game) (s : Shape) : Game :=
  setShapes this (Bag.update (shapes this) s).

(** [nextShape()]; [k] is the index drawn by [random()]. *)
Definition nextShape (k : Z) (this : Game) : outcome Game :=
  let this := setShapes this (Bag.random k (shapes this)) in
  s ← currentShape this;
  '(ok, s) ← Shape.resetPosition s (board this);
  let this := withShape this s in
  Ret (if ok : bool then this else setState this GAME_OVER).

(** The branch of [moveDown] taken when the shape could not move: the
    shape is copied to the board, filled rows are removed and counted,
    the score is raised and the next shape is drawn. *)
Definition landed (k : Z) (this : Game) : outcome Game :=
  s ← currentShape this;
  b ← Shape.copyTo s (board this);
  '(n, b) ← Bitmap.removeFilledRows b;
  let lines' := lines this + n in
  let score' := if decide (n < 4) then score this + lines' * 10
                else score this + 1000 in
  nextShape k (mkGame b (shapes this) (state this) lines' score').

(** [moveDown()] *)
Definition moveDown (k : Z) (this : Game) : outcome (bool * Game) :=
  s ← currentShape this;
  '(moved, s) ← Shape.down s (board this);
  let this := withShape this s in
  if moved : bool then Ret (true, this)
  else this ← landed k this; Ret (false, this).

(** [throwDown()]: [while (this.moveDown()) {}]. Each call of [moveDown]
    takes one unit of [fuel]; [None] when the fuel does not reach the
    end of the loop. Only the call that fails draws a shape. *)
Fixpoint throwDown (fuel : nat) (k : Z) (this : Game)
  : option (outcome Game) :=
  match fuel with
  | O => None
  | S fuel' =>
      match moveDown k this with
      | Throw => Some Throw
      | Ret (true, this') => throwDown fuel' k this'
      | Ret (false, this') => Some (Ret this')
      end
  end.

(** [constructor(canvas)], without the canvas and the listeners. *)
Definition new (k : Z) : outcome Game :=
  all ← Shape.asShapes Blocks.BLOCKS;
  nextShape k
    (mkGame (Bitmap.emptyWithSize ROWS COLS) (Bag.new all) PLAYING 0 0).

(** [clear()] *)
Definition clear (k : Z) (this : Game) : outcome Game :=
  nextShape k
    (mkGame (Bitmap.emptyWithSize ROWS COLS) (shapes this) PLAYING 0 0).

(** [left()], [right()], [rotate()], [down()] *)
Definition left (this : Game) : outcome Game :=
  s ← currentShape this;
  '(_, s) ← Shape.left s (board this);
  Ret (withShape this s).
Definition right (this : Game) : outcome Game :=
  s ← currentShape this;
  '(_, s) ← Shape.right s (board this);
  Ret (withShape this s).
Definition rotate (this : Game) : outcome Game :=
  s ← currentShape this;
  '(_, s) ← Shape.rotate s (board this);
  Ret (withShape this s).
Definition down (k : Z) (this : Game) : outcome Game :=
  '(_, this) ← moveDown k this; Ret this.

(** [togglePaused()] *)
Definition togglePaused (this : Game) : Game :=
  match state this with
  | PLAYING => setState this PAUSED
  | PAUSED => setState this PLAYING
  | GAME_OVER => this
  end.

(** [onControlKey(key)]: the result and the receiver as mutated. *)
Definition onControlKey (k : Z) (key : string) (this : Game)
  : outcome (bool * Game) :=
  if String.eqb key "enter" then Ret (true, togglePaused this)
  else if String.eqb key "r" then this ← clear k this; Ret (true, this)
  else Ret (false, this).

(** [onPlayKey(key)]; the result is not used by the caller. *)
Definition onPlayKey (fuel : nat) (k : Z) (key : string) (this : Game)
  : option (outcome Game) :=
  if String.eqb key "arrowleft" then Some (left this)
  else if String.eqb key "arrowright" then Some (right this)
  else if String.eqb key "arrowup" then Some (rotate this)
  else if String.eqb key "arrowdown" then Some (down k this)
  else if String.eqb key "spacebar" || String.eqb key " "
  then throwDown fuel k this
  else Some (Ret this).

(** [onKeyEvent(key)]; [k] is the index drawn if the event draws a
    shape, [fuel] bounds the loop of [throwDown]. *)
Definition onKeyEvent (fuel : nat) (k : Z) (key : string) (this : Game)
  : option (outcome Game) :=
  match onControlKey k key this with
  | Throw => Some Throw
  | Ret (used, this) =>
      if negb used && isPlaying (state this)
      then onPlayKey fuel k key this
      else Some (Ret this)
  end.

(** [update(now)] without the redraw; [due] is the outcome of
    [now - this.lastStep > STEP_SPEED]. *)
Definition update (due : bool) (k : Z) (this : Game) : outcome Game :=
  if isPlaying (state this) && due then down k this else Ret this.

End Game.

(** ** game.ts: the counters as text *)

(** [text.substr(start)], the characters of [text] from [start] to the
    end; a negative [start] counts from the end. *)
Definition substr (text : string) (start : Z) : string :=
  let len := Z.of_nat (String.length text) in
  let s := if decide (start < 0) then Z.max (len + start) 0
           else Z.min start len in
  String.substring (Z.to_nat s) (Z.to_nat (len - s)) text.

(** [Number.isSafeInteger(n)]: the integers that a number holds exactly
    and that no other integer is rounded to. *)
Definition isSafeInteger (n : Z) : Prop := - 2 ^ 53 < n < 2 ^ 53.

(** [prependZeros(value, size)]. [numberToString] is the text that
    ["000000" + value] appends for a number: the decimal digits for a
    safe integer; from 1e21 on it is in exponent form and integers past
    the safe ones are rounded, so nothing is fixed of it there. The
    properties below assume of it its value on safe integers only. *)
Definition prependZeros (numberToString : Z → string) (value size : Z)
  : string :=
  let text := "000000" +:+ numberToString value in
  substr text (Z.of_nat (String.length text) - size).

(** * Specification vocabulary *)

(** The index of a bag points at one of its values. *)
Definition bag_valid {T} (b : Bag T) : Prop := 0 ≤ index b < Bag.length b.

(** [n] calls of [next()]. *)
Definition next_times {T} (n : nat) (b : Bag T) : Bag T := Nat.iter n Bag.next b.

(** A grid of [R] rows that all have [C] cells. *)
Definition rect (R C : Z) (b : Bitmap) : Prop :=
  Bitmap.rows b = R ∧ Forall (fun r => Z.of_nat (length r) = C) (data b).

(** [this.data[row]?.[col]]: the cell read without a throw. *)
Definition cellAt (this : Bitmap) (row col : Z) : value :=
  match array_get (data this) row with
  | Some r => cell r col
  | None => None
  end.

(** The row has no empty cell. *)
Definition rowFilled (r : list value) : bool := forallb neE r.

(** The width that [cols()] reports, 0 for a grid without rows. *)
Definition width (b : Bitmap) : Z :=
  match Bitmap.cols b with
  | Ret c => c
  | Throw => 0
  end.

(** Overlap as the design document words it for
    [overlaps(rowOffset, colOffset, other)]: some cell [[i][j]] of [other],
    placed at the offset onto the coordinates of the receiver, lies inside
    the receiver and is non-empty in both grids. *)
Definition overlaps_other_on_receiver (this : Bitmap) (rowOffset colOffset : Z)
    (other : Bitmap) : Prop :=
  ∃ i j, 0 ≤ i < Bitmap.rows other ∧ 0 ≤ j < width other
         ∧ 0 ≤ rowOffset + i < Bitmap.rows this
         ∧ 0 ≤ colOffset + j < width this
         ∧ neE (cellAt other i j) = true
         ∧ neE (cellAt this (rowOffset + i) (colOffset + j)) = true.

(** Overlap with the roles as the source has them: some cell [[i][j]] of
    the receiver, placed at the offset onto the coordinates of [other],
    lies inside [other] and is non-empty in both grids. *)
Definition overlaps_inside (this : Bitmap) (rowOffset colOffset : Z)
    (other : Bitmap) : Prop :=
  ∃ i j, 0 ≤ i < Bitmap.rows this ∧ 0 ≤ j < width this
         ∧ 0 ≤ rowOffset + i < Bitmap.rows other
         ∧ 0 ≤ colOffset + j < width other
         ∧ neE (cellAt this i j) = true
         ∧ neE (cellAt other (rowOffset + i) (colOffset + j)) = true.

(** What [isOverlapping] computes when the row offset is not negative: as
    [overlaps_inside], but a cell of the receiver placed left of the first
    column of [other] is compared with the [undefined] read there, which
    is not [E]. *)
Definition overlaps_receiver_on_other (this : Bitmap) (rowOffset colOffset : Z)
    (other : Bitmap) : Prop :=
  ∃ i j, 0 ≤ i < Bitmap.rows this ∧ 0 ≤ j < width this
         ∧ rowOffset + i < Bitmap.rows other
         ∧ colOffset + j < width other
         ∧ neE (cellAt this i j) = true
         ∧ neE (cellAt other (rowOffset + i) (colOffset + j)) = true.

(** The rows of [d] that are filled, counted, and [d] without them. *)
Definition filledCount (d : Style2D) : Z :=
  Z.of_nat (length (List.filter rowFilled d)).
Definition unfilledRows (d : Style2D) : Style2D :=
  List.filter (fun r => negb (rowFilled r)) d.

(** An all-empty row of [C] cells. *)
Definition emptyRow (C : Z) : list value := replicate (Z.to_nat C) E.

(** The rotations of a shape: a bag whose index points at one of its grids,
    each of which has at least one row. *)
Definition shape_ok (s : Shape) : Prop :=
  bag_valid (rotations s)
  ∧ Forall (fun b => 1 ≤ Bitmap.rows b) (values (rotations s)).

(** The grid [cur] at the offsets of [s] lies inside [board]. *)
Definition within (s : Shape) (cur board : Bitmap) : Prop :=
  0 ≤ colOffset s ∧ colOffset s + width cur ≤ width board
  ∧ 0 ≤ rowOffset s ∧ rowOffset s + Bitmap.rows cur ≤ Bitmap.rows board.

(** What [isWithin] tests: the row offset is bounded from above only. *)
Definition fits (s : Shape) (cur board : Bitmap) : Prop :=
  0 ≤ colOffset s ∧ colOffset s + width cur ≤ width board
  ∧ rowOffset s + Bitmap.rows cur ≤ Bitmap.rows board.

(** The value of a computation that does not throw. *)
Definition unwrap {A} (d : A) (o : outcome A) : A :=
  match o with
  | Ret a => a
  | Throw => d
  end.

(** [new Shape(bitmap)] and [Shape.asShapes(BLOCKS)], which do not throw on
    the seven blocks (see [asShapes_BLOCKS]). *)
Definition shapeOf (bitmap : Bitmap) : Shape :=
  unwrap (mkShape (Bag.new []) 0 0) (Shape.new bitmap).
Definition standardShapes : list Shape := shapeOf <$> Blocks.BLOCKS.

(** A standard shape in some rotation at some position. *)
Definition standard (s : Shape) : Prop :=
  ∃ s0, s0 ∈ standardShapes
        ∧ values (rotations s) = values (rotations s0)
        ∧ 0 ≤ index (rotations s) < 4.

(** A board of 15 rows whose taken cells are row 11, column 4 and row 12,
    column 3: an overhang above the last two rows. *)
Definition boardWithOverhang : Bitmap :=
  mkBitmap (replicate 11 (emptyRow 10)
              ++ [<[4%nat := Blocks.B]> (emptyRow 10)]
              ++ [<[3%nat := Blocks.B]> (emptyRow 10)]
              ++ replicate 2 (emptyRow 10)).

(** [resetPosition] as the design document words its result: false
    exactly when the shape, at the position it was given, overlaps what is
    on the board. *)
Definition resetPosition_reports_overlap (this : Shape) (board cur : Bitmap)
  : Prop :=
  ∀ (ok : bool) (s' : Shape),
    Shape.resetPosition this board = Ret (ok, s') →
    (ok = false ↔ overlaps_inside cur (rowOffset s') (colOffset s') board).

(** [rotate] as the design document words its result: the call returns,
    with false and the rotation put back exactly when the shape, in its
    next rotation [cur] at the position it was clamped to, overlaps what
    is on the board, and with true and the next rotation otherwise. *)
Definition rotate_reports_overlap (this : Shape) (board cur : Bitmap)
  : Prop :=
  ∃ (ok : bool) (s' : Shape),
    Shape.rotate this board = Ret (ok, s')
    ∧ (ok = false ↔ overlaps_inside cur (rowOffset s') (colOffset s') board)
    ∧ rotations s' = (if ok then Bag.next (rotations this)
                      else rotations this).

(** A shape whose rotations all fit in a board of [R] rows and [C]
    columns. *)
Definition shape_fits_board (R C : Z) (s : Shape) : Prop :=
  shape_ok s
  ∧ Forall (fun b => Bitmap.rows b ≤ R ∧ 1 ≤ width b ≤ C) (values (rotations s)).

(** The board and the bag of [N] shapes of a game. *)
Definition game_base (R C N : Z) (g : Game) : Prop :=
  rect R C (board g) ∧ 2 ≤ R ∧ 1 ≤ C
  ∧ bag_valid (shapes g)
  ∧ Forall (shape_fits_board R C) (values (shapes g))
  ∧ Bag.length (shapes g) = N.

(** The current rotation of the current shape lies inside the board. *)
Definition piece_within (g : Game) : Prop :=
  ∃ s cur, Bag.current (shapes g) = Some s
           ∧ Bag.current (rotations s) = Some cur
           ∧ within s cur (board g).

Definition game_ok (R C N : Z) (g : Game) : Prop :=
  game_base R C N g ∧ piece_within g.

(** The game with its current shape [d] rows further down. *)
Definition lowered (g : Game) (d : Z) : Game :=
  match Bag.current (shapes g) with
  | Some s => Game.withShape g (Shape.setRowOffset s (rowOffset s + d))
  | None => g
  end.

(** The states that the constructor, the key events and the ticks of the
    animation loop lead to. A drawn index lies in [0, 7): it is the floor
    of a number of [0, 1) times the count of shapes. *)
Inductive reachable : Game → Prop :=
| reach_new (k : Z) (g : Game) :
    0 ≤ k < 7 → Game.new k = Ret g → reachable g
| reach_key (fuel : nat) (k : Z) (key : string) (g g' : Game) :
    reachable g → 0 ≤ k < 7 →
    Game.onKeyEvent fuel k key g = Some (Ret g') → reachable g'
| reach_update (due : bool) (k : Z) (g g' : Game) :
    reachable g → 0 ≤ k < 7 →
    Game.update due k g = Ret g' → reachable g'.

(** A game on the board [b] with the standard shapes, shape [k] drawn and
    set at the top; the draw does not throw on a board of 15 by 10 (see
    [gameWith_ok]). *)
Definition gameWith (b : Bitmap) (k : Z) : Game :=
  unwrap (mkGame b (Bag.new standardShapes) PLAYING 0 0)
    (Game.nextShape k (mkGame b (Bag.new standardShapes) PLAYING 0 0)).

(** The game after a call of [moveDown]. *)
Definition afterMoveDown (k : Z) (g : Game) : Game :=
  match Game.moveDown k g with
  | Ret (_, g') => g'
  | Throw => g
  end.

(** A board whose last three rows miss the columns 3 to 6 only. *)
Definition scenarioBoard : Bitmap :=
  mkBitmap (replicate 12 (emptyRow 10)
              ++ replicate 3 (replicate 3 Blocks.B ++ replicate 4 E
                                ++ replicate 3 Blocks.B)).

(** Three landings of the I block in the gap of [scenarioBoard]: the block
    is drawn at the top, taken down 14 rows to the last row, and the next
    call of [moveDown] lands it; these are three calls of [throwDown]. *)
Definition scenarioA : Game := lowered (gameWith scenarioBoard 0) 14.
Definition scenarioA' : Game := afterMoveDown 0 scenarioA.
Definition scenarioB : Game := lowered scenarioA' 14.
Definition scenarioB' : Game := afterMoveDown 0 scenarioB.
Definition scenarioC : Game := lowered scenarioB' 14.
Definition scenarioC' : Game := afterMoveDown 0 scenarioC.

(** The grid of [n] rows and [m] columns whose cell [[i][j]] is [f i j]. *)
Definition gridOf (n m : Z) (f : Z → Z → value) : Style2D :=
  (fun i => (fun j => f i j) <$> seqZ 0 m) <$> seqZ 0 n.

(** The grid [cur] put at row [row], column [col] does not pass the left,
    the right or the lower edge of [board], and none of its taken cells
    lies on a taken cell of [board]. *)
Definition free_at (cur board : Bitmap) (row col : Z) : Prop :=
  0 ≤ col ∧ col + width cur ≤ width board
  ∧ row + Bitmap.rows cur ≤ Bitmap.rows board
  ∧ ¬ overlaps_inside cur row col board.

(** No row of the grid is filled. *)
Definition no_filled_row (b : Bitmap) : Prop :=
  Forall (fun r => rowFilled r = false) (data b).

(** What the two counters of a game satisfy: the score is a multiple of
    ten, at least ten times the lines, and 0 as long as no line was
    removed. *)
Definition counters_ok (g : Game) : Prop :=
  0 ≤ lines g ∧ 10 * lines g ≤ score g ∧ (10 | score g)
  ∧ (lines g = 0 → score g = 0).

(** The grids of the shapes of a game: for each shape of the bag the
    list of its rotations. *)
Definition grids (g : Game) : list (list Bitmap) :=
  (fun s => values (rotations s)) <$> values (shapes g).
Definition standardGrids : list (list Bitmap) :=
  (fun s => values (rotations s)) <$> standardShapes.

(** The text of [n] zeros. *)
Definition zeros (n : Z) : string :=
  string_of_list_ascii (replicate (Z.to_nat n) "0"%char).

(** * Properties *)

(** ** The error monad and the loops *)

Ltac osimpl :=
  cbn [mbind mret outcome_bind outcome_ret defined] in *.

Lemma bind_Ret_inv {A B} (m : outcome A) (k : A → outcome B) (b : B) :
  m ≫= k = Ret b → ∃ a, m = Ret a ∧ k a = Ret b.
Proof. destruct m as [a|]; osimpl; [eauto | discriminate]. Qed.

Lemma array_get_nat {A} (l : list A) (n : nat) :
  array_get l (Z.of_nat n) = l !! n.
Proof.
  unfold array_get. rewrite decide_True by lia. by rewrite Nat2Z.id.
Qed.

Lemma array_get_Some {A} (l : list A) (i : Z) (x : A) :
  array_get l i = Some x ↔ 0 ≤ i ∧ l !! Z.to_nat i = Some x.
Proof.
  unfold array_get. case_decide; [tauto |].
  split; [discriminate | lia].
Qed.

Lemma array_get_in_range {A} (l : list A) (i : Z) :
  0 ≤ i < Z.of_nat (length l) → ∃ x, array_get l i = Some x.
Proof.
  intros Hi. destruct (lookup_lt_is_Some_2 l (Z.to_nat i)) as [x Hx]; [lia |].
  exists x. apply array_get_Some. split; [lia | done].
Qed.

Lemma array_get_out {A} (l : list A) (i : Z) :
  i < 0 ∨ Z.of_nat (length l) ≤ i → array_get l i = None.
Proof.
  intros Hi. unfold array_get. case_decide; [| done].
  apply lookup_ge_None. lia.
Qed.

Lemma for_loop_inv {St} (I : Z → St → Prop) (body : Z → St → outcome St) :
  ∀ (n : nat) (i : Z) (s : St),
    I i s →
    (∀ j t, i ≤ j < i + Z.of_nat n → I j t →
            ∃ t', body j t = Ret t' ∧ I (j + 1) t') →
    ∃ s', for_loop n i body s = Ret s' ∧ I (i + Z.of_nat n) s'.
Proof.
  induction n as [|n IH]; intros i s Hs Hbody; simpl.
  - exists s. split; [done |]. by replace (i + Z.of_nat 0) with i by lia.
  - destruct (Hbody i s) as (t & -> & Ht); [lia | done |]. osimpl.
    destruct (IH (i + 1) t Ht) as (s' & -> & Hs').
    + intros j u Hj. apply Hbody. lia.
    + exists s'. split; [done |].
      by replace (i + Z.of_nat (S n)) with (i + 1 + Z.of_nat n) by lia.
Qed.

Lemma for_range_inv {St} (I : Z → St → Prop) (body : Z → St → outcome St)
    (start stop : Z) (s : St) :
  start ≤ stop →
  I start s →
  (∀ j t, start ≤ j < stop → I j t → ∃ t', body j t = Ret t' ∧ I (j + 1) t') →
  ∃ s', for_range start stop body s = Ret s' ∧ I stop s'.
Proof.
  intros Hle Hs Hbody. unfold for_range.
  destruct (for_loop_inv I body (Z.to_nat (stop - start)) start s Hs)
    as (s' & Hrun & Hs').
  - intros j t Hj. apply Hbody. lia.
  - exists s'. split; [done |].
    by replace (start + Z.of_nat (Z.to_nat (stop - start))) with stop in Hs' by lia.
Qed.

Lemma for_range_empty {St} (body : Z → St → outcome St) (start stop : Z) (s : St) :
  stop ≤ start → for_range start stop body s = Ret s.
Proof.
  intros Hle. unfold for_range.
  by replace (Z.to_nat (stop - start)) with 0%nat by lia.
Qed.

(** ** Bag *)

Section BagFacts.
Context {T : Type}.
Implicit Types b : Bag T.

Lemma next_valid b : bag_valid b → bag_valid (Bag.next b).
Proof.
  unfold bag_valid, Bag.next, Bag.length. simpl. intros Hb.
  rewrite Z.rem_mod_nonneg by lia.
  apply Z.mod_pos_bound. lia.
Qed.

Lemma previous_valid b : bag_valid b → bag_valid (Bag.previous b).
Proof.
  unfold bag_valid, Bag.previous, Bag.length. simpl. intros Hb.
  rewrite Z.rem_mod_nonneg by lia.
  apply Z.mod_pos_bound. lia.
Qed.

Lemma previous_next b : bag_valid b → Bag.previous (Bag.next b) = b.
Proof.
  destruct b as [vs i]. unfold bag_valid, Bag.previous, Bag.next, Bag.length.
  simpl. intros Hb. f_equal.
  rewrite !Z.rem_mod_nonneg; try lia.
  - destruct (decide (i + 1 = Z.of_nat (length vs))) as [Heq | Hne].
    + rewrite Heq, Z_mod_same_full.
      rewrite Z.mod_small; lia.
    + rewrite (Z.mod_small (i + 1)) by lia.
      replace (Z.of_nat (length vs) + (i + 1) - 1) with (i + 1 * Z.of_nat (length vs)) by lia.
      rewrite Z_mod_plus_full. apply Z.mod_small. lia.
  - rewrite Z.rem_mod_nonneg by lia.
    pose proof (Z.mod_pos_bound (i + 1) (Z.of_nat (length vs))). lia.
Qed.

Lemma next_previous b : bag_valid b → Bag.next (Bag.previous b) = b.
Proof.
  destruct b as [vs i]. unfold bag_valid, Bag.previous, Bag.next, Bag.length.
  simpl. intros Hb. f_equal.
  rewrite !Z.rem_mod_nonneg; try lia.
  - destruct (decide (i = 0)) as [-> | Hne].
    + replace (Z.of_nat (length vs) + 0 - 1) with (Z.of_nat (length vs) - 1) by lia.
      rewrite (Z.mod_small (Z.of_nat (length vs) - 1)) by lia.
      replace (Z.of_nat (length vs) - 1 + 1) with (Z.of_nat (length vs)) by lia.
      apply Z_mod_same_full.
    + replace (Z.of_nat (length vs) + i - 1) with (i - 1 + 1 * Z.of_nat (length vs)) by lia.
      rewrite Z_mod_plus_full. rewrite (Z.mod_small (i - 1)) by lia.
      replace (i - 1 + 1) with i by lia. apply Z.mod_small. lia.
  - rewrite Z.rem_mod_nonneg by lia.
    pose proof (Z.mod_pos_bound (Z.of_nat (length vs) + i - 1) (Z.of_nat (length vs))). lia.
Qed.

Lemma next_times_spec (n : nat) b :
  bag_valid b →
  next_times n b = mkBag (values b) ((index b + Z.of_nat n) mod Bag.length b).
Proof.
  intros Hb. induction n as [|n IH]; unfold next_times in *; simpl.
  - destruct b as [vs i]. unfold bag_valid, Bag.length in *. simpl in *.
    f_equal. rewrite Z.add_0_r. symmetry. apply Z.mod_small. lia.
  - rewrite IH. unfold Bag.next, Bag.length. simpl. f_equal.
    unfold bag_valid, Bag.length in Hb.
    rewrite Z.rem_mod_nonneg.
    + rewrite Zplus_mod_idemp_l. f_equal. lia.
    + pose proof (Z.mod_pos_bound (index b + Z.of_nat n) (Z.of_nat (length (values b)))). lia.
    + lia.
Qed.
End BagFacts.

(** C9. In a bag of at least one value whose index points at one of them,
    [length] calls of [next()] bring the bag back to where it was (same
    index, same current value), and [previous()] undoes [next()] as
    [next()] undoes [previous()]. *)
Theorem bag_next_cycle_previous_inverse {T} (b : Bag T) :
  1 ≤ Bag.length b →
  bag_valid b →
  next_times (Z.to_nat (Bag.length b)) b = b
  ∧ Bag.current (next_times (Z.to_nat (Bag.length b)) b) = Bag.current b
  ∧ Bag.previous (Bag.next b) = b
  ∧ Bag.current (Bag.previous (Bag.next b)) = Bag.current b
  ∧ Bag.next (Bag.previous b) = b
  ∧ Bag.current (Bag.next (Bag.previous b)) = Bag.current b.
Proof.
  intros Hlen Hb.
  assert (Hcycle : next_times (Z.to_nat (Bag.length b)) b = b).
  { rewrite next_times_spec by done. destruct b as [vs i].
    unfold bag_valid, Bag.length in *. simpl in *. f_equal.
    rewrite Z2Nat.id by lia.
    replace (i + Z.of_nat (length vs)) with (i + 1 * Z.of_nat (length vs)) by lia.
    rewrite Z_mod_plus_full. apply Z.mod_small. lia. }
  rewrite Hcycle, previous_next, next_previous by done. tauto.
Qed.

Lemma bag_next_cycle_previous_inverse_witness :
  let b := mkBag ["I"; "J"; "L"] 2 in
  (1 ≤ Bag.length b ∧ bag_valid b)
  ∧ next_times 3 b = b ∧ Bag.previous (Bag.next b) = b
  ∧ Bag.next (Bag.previous b) = b.
Proof.
  intros b.
  assert (Hlen : 1 ≤ Bag.length b) by (vm_compute; discriminate).
  assert (Hb : bag_valid b) by (split; vm_compute; [discriminate | done]).
  split; [done |].
  destruct (bag_next_cycle_previous_inverse b Hlen Hb)
    as (H1 & _ & H2 & _ & H3 & _).
  exact (conj H1 (conj H2 H3)).
Defined.

(** ** Bitmap *)

Lemma any_loop_existsb (test : Z → outcome bool) (p : Z → bool) :
  ∀ (n : nat) (i : Z),
    (∀ j, i ≤ j < i + Z.of_nat n → test j = Ret (p j)) →
    any_loop n i test = Ret (existsb p (seqZ i (Z.of_nat n))).
Proof.
  induction n as [|n IH]; intros i Htest.
  - done.
  - rewrite seqZ_cons by lia. simpl. rewrite (Htest i) by lia. osimpl.
    destruct (p i); [done |]. simpl.
    rewrite IH by (intros j Hj; apply Htest; lia).
    do 3 f_equal; lia.
Qed.

Lemma for_any_existsb (test : Z → outcome bool) (p : Z → bool) (start stop : Z) :
  (∀ j, start ≤ j < stop → test j = Ret (p j)) →
  for_any start stop test = Ret (existsb p (seqZ start (stop - start))).
Proof.
  intros Htest. unfold for_any.
  rewrite (any_loop_existsb test p) by (intros j Hj; apply Htest; lia).
  destruct (decide (start ≤ stop)).
  - by rewrite Z2Nat.id by lia.
  - replace (Z.to_nat (stop - start)) with 0%nat by lia.
    by rewrite !seqZ_nil by lia.
Qed.

Lemma existsb_seqZ (p : Z → bool) (start len : Z) :
  existsb p (seqZ start len) = true ↔ ∃ j, start ≤ j < start + len ∧ p j = true.
Proof.
  rewrite existsb_exists. split.
  - intros (j & Hin & Hp). exists j. split; [| done].
    apply list_elem_of_In, elem_of_seqZ in Hin. lia.
  - intros (j & Hj & Hp). exists j. split; [| done].
    apply list_elem_of_In, elem_of_seqZ. lia.
Qed.

Section BitmapFacts.
Implicit Types (b this other : Bitmap) (r : list value).

Lemma rect_rows R C b : rect R C b → Bitmap.rows b = R.
Proof. by intros [? _]. Qed.

Lemma rect_row R C b (row : Z) :
  rect R C b → 0 ≤ row < R →
  ∃ r, array_get (data b) row = Some r ∧ Z.of_nat (length r) = C.
Proof.
  intros [HR HC] Hrow. unfold Bitmap.rows in HR.
  destruct (array_get_in_range (data b) row) as [r Hr]; [lia |].
  exists r. split; [done |].
  apply array_get_Some in Hr as [_ Hr].
  by apply (Forall_lookup_1 _ _ _ _ HC Hr).
Qed.

Lemma rect_cols R C b : rect R C b → 1 ≤ R → Bitmap.cols b = Ret C.
Proof.
  intros Hb HR. destruct (rect_row R C b 0 Hb) as (r & Hr & Hlen); [lia |].
  unfold Bitmap.cols. rewrite Hr. osimpl. by rewrite Hlen.
Qed.

Lemma get_in_rows b (row col : Z) :
  0 ≤ row < Bitmap.rows b → Bitmap.get b row col = Ret (cellAt b row col).
Proof.
  intros Hrow. unfold Bitmap.get, cellAt.
  destruct (array_get_in_range (data b) row) as [r ->]; [done |]. done.
Qed.

Lemma get_negative_row b (row col : Z) : row < 0 → Bitmap.get b row col = Throw.
Proof.
  intros Hrow. unfold Bitmap.get. by rewrite array_get_out by lia.
Qed.

Lemma array_set_push r (v : value) :
  array_set r (Z.of_nat (length r)) v = r ++ [v].
Proof.
  unfold array_set. cbv zeta. rewrite decide_False by lia.
  rewrite decide_False by lia.
  by replace (Z.to_nat (Z.of_nat (length r)) - length r)%nat with 0%nat by lia.
Qed.

Lemma array_set_length_in r (col : Z) (v : value) :
  col < Z.of_nat (length r) → length (array_set r col v) = length r.
Proof.
  intros Hcol. unfold array_set. cbv zeta. case_decide; [done |].
  rewrite decide_True by lia. apply length_insert.
Qed.

Lemma cell_array_set r (col col' : Z) (v : value) :
  0 ≤ col < Z.of_nat (length r) →
  cell (array_set r col v) col' = if decide (col' = col) then v else cell r col'.
Proof.
  intros Hcol. unfold array_set. cbv zeta.
  rewrite (decide_False (P := col < 0)) by lia.
  rewrite (decide_True (P := (Z.to_nat col < length r)%nat)) by lia.
  unfold cell, array_get.
  destruct (decide (col' = col)) as [-> | Hne].
  - rewrite decide_True by lia.
    rewrite list_lookup_insert_eq by lia. done.
  - case_decide; [| done]. rewrite list_lookup_insert_ne by lia. done.
Qed.

End BitmapFacts.

(** *** rotate *)

Lemma seqZ_snoc (m n : Z) : 0 ≤ n → seqZ m (n + 1) = seqZ m n ++ [m + n].
Proof.
  intros Hn. by rewrite seqZ_app by lia.
Qed.

Lemma lookup_fmap_seqZ {A} (f : Z → A) (n i : Z) :
  0 ≤ i < n → array_get (f <$> seqZ 0 n) i = Some (f i).
Proof.
  intros Hi. unfold array_get. rewrite decide_True by lia.
  rewrite list_lookup_fmap, lookup_seqZ_lt by lia. simpl.
  f_equal. f_equal. lia.
Qed.

Lemma rotate_column (this : Bitmap) (col : Z) :
  let R := Bitmap.rows this in
  for_range 0 R (fun row column =>
      v ← Bitmap.get this (R - row - 1) col;
      Ret (array_set column row v)) []
  = Ret ((fun row => cellAt this (R - row - 1) col) <$> seqZ 0 R).
Proof.
  intros R.
  set (f := fun row => cellAt this (R - row - 1) col).
  destruct (for_range_inv (fun j column => column = f <$> seqZ 0 j)
    (fun row column =>
       v ← Bitmap.get this (R - row - 1) col; Ret (array_set column row v))
    0 R []) as (column & -> & ->); [unfold R, Bitmap.rows; lia | done | | done].
  intros j column Hj ->.
  rewrite get_in_rows by (fold R; lia). osimpl.
  eexists. split; [done |].
  rewrite seqZ_snoc, fmap_app by lia. simpl.
  replace j with (Z.of_nat (length (f <$> seqZ 0 j))) at 2
    by (rewrite length_fmap, length_seqZ; lia).
  by rewrite array_set_push.
Qed.

Lemma rotate_eq (this : Bitmap) (C : Z) :
  Bitmap.cols this = Ret C →
  let R := Bitmap.rows this in
  Bitmap.rotate this
  = Ret (mkBitmap ((fun col => (fun row => cellAt this (R - row - 1) col)
                                 <$> seqZ 0 R) <$> seqZ 0 C)).
Proof.
  intros HC R. unfold Bitmap.rotate. rewrite HC. osimpl. fold R.
  set (g := fun col => (fun row => cellAt this (R - row - 1) col) <$> seqZ 0 R).
  assert (0 ≤ C) as HC0.
  { unfold Bitmap.cols in HC. destruct (array_get (data this) 0); osimpl;
      [injection HC; lia | discriminate]. }
  destruct (for_range_inv (fun j rotated => rotated = g <$> seqZ 0 j)
    (fun col rotated =>
       column ← for_range 0 R (fun row column =>
                  v ← Bitmap.get this (R - row - 1) col;
                  Ret (array_set column row v)) [];
       Ret (rotated ++ [column]))
    0 C []) as (rotated & -> & ->); [done | done | | done].
  intros j rotated Hj ->.
  unfold R at 1. rewrite rotate_column. osimpl. fold R.
  eexists. split; [done |].
  by rewrite seqZ_snoc, fmap_app by lia.
Qed.

(** C6. For a grid of [R] rows and [C] columns, [rotate()] returns a grid
    of [C] rows and [R] columns whose cell [[c][r]] is the cell
    [[R-1-r][c]] of the receiver. The source writes to the fresh array
    [rotated] only, which is why the embedding of [rotate] has no mutated
    receiver among its results. *)
Theorem rotate_clockwise_cells (R C : Z) (this : Bitmap) :
  rect R C this → 1 ≤ R → 1 ≤ C →
  ∃ rotated,
    Bitmap.rotate this = Ret rotated
    ∧ rect C R rotated
    ∧ Bitmap.cols rotated = Ret R
    ∧ ∀ r c, 0 ≤ r < R → 0 ≤ c < C →
        Bitmap.get rotated c r = Bitmap.get this (R - 1 - r) c.
Proof.
  intros Hrect HR HC.
  pose proof (rotate_eq this C (rect_cols R C this Hrect HR)) as Hrot.
  rewrite (rect_rows R C this Hrect) in Hrot. cbv zeta in Hrot.
  eexists. split; [exact Hrot |].
  assert (rect C R (mkBitmap
    ((fun col => (fun row => cellAt this (R - row - 1) col) <$> seqZ 0 R)
       <$> seqZ 0 C))) as Hrect'.
  { split.
    - unfold Bitmap.rows. simpl. rewrite length_fmap, length_seqZ. lia.
    - simpl. apply Forall_fmap, Forall_forall. intros c _. simpl.
      rewrite length_fmap, length_seqZ. lia. }
  split; [done |]. split; [by apply (rect_cols C R) |].
  intros r c Hr Hc.
  rewrite (get_in_rows this) by (rewrite (rect_rows R C this Hrect); lia).
  unfold Bitmap.get. simpl.
  rewrite (lookup_fmap_seqZ _ C c) by lia. osimpl.
  unfold cell. rewrite (lookup_fmap_seqZ _ R r) by lia. simpl.
  do 2 f_equal. lia.
Qed.

Lemma rotate_clockwise_cells_witness :
  (rect 2 3 Blocks.BLOCK_J ∧ 1 ≤ 2 ∧ 1 ≤ 3)
  ∧ ∃ rotated,
      Bitmap.rotate Blocks.BLOCK_J = Ret rotated
      ∧ rect 3 2 rotated
      ∧ Bitmap.cols rotated = Ret 2
      ∧ ∀ r c, 0 ≤ r < 2 → 0 ≤ c < 3 →
          Bitmap.get rotated c r = Bitmap.get Blocks.BLOCK_J (2 - 1 - r) c.
Proof.
  assert (rect 2 3 Blocks.BLOCK_J) as Hrect.
  { split; [reflexivity |]. repeat constructor. }
  split; [split; [exact Hrect | lia] |].
  apply (rotate_clockwise_cells 2 3 Blocks.BLOCK_J Hrect); lia.
Defined.

(** *** isOverlapping *)

Lemma width_cols (b : Bitmap) (c : Z) : Bitmap.cols b = Ret c → width b = c.
Proof. unfold width. by intros ->. Qed.

Lemma cols_defined (b : Bitmap) :
  1 ≤ Bitmap.rows b → Bitmap.cols b = Ret (width b).
Proof.
  intros Hrows. unfold width, Bitmap.cols.
  destruct (array_get_in_range (data b) 0) as [r ->]; [|done].
  unfold Bitmap.rows in Hrows. lia.
Qed.

Lemma isOverlapping_total (this other : Bitmap) (rowOffset colOffset : Z) :
  1 ≤ Bitmap.rows this → 1 ≤ Bitmap.rows other → 0 ≤ rowOffset →
  ∃ b, Bitmap.isOverlapping this rowOffset colOffset other = Ret b
       ∧ (b = true ↔ overlaps_receiver_on_other this rowOffset colOffset other).
Proof.
  intros Hthis Hother Hro. unfold Bitmap.isOverlapping.
  rewrite (cols_defined other), (cols_defined this) by done. osimpl.
  set (maxRows := Z.min (Bitmap.rows other) (rowOffset + Bitmap.rows this)).
  set (maxCols := Z.min (width other) (colOffset + width this)).
  set (hit := fun row col =>
         neE (cellAt this (row - rowOffset) (col - colOffset))
         && neE (cellAt other row col)).
  set (inRow := fun row => existsb (hit row) (seqZ colOffset (maxCols - colOffset))).
  eexists. split.
  - apply (for_any_existsb _ inRow). intros row Hrow.
    apply (for_any_existsb _ (hit row)). intros col Hcol.
    rewrite !get_in_rows by lia. done.
  - rewrite existsb_seqZ. unfold inRow, overlaps_receiver_on_other. split.
    + intros (row & Hrow & Hex). apply existsb_seqZ in Hex as (col & Hcol & Hhit).
      unfold hit in Hhit. apply andb_prop in Hhit as [Hv Ho].
      exists (row - rowOffset), (col - colOffset).
      replace (rowOffset + (row - rowOffset)) with row by lia.
      replace (colOffset + (col - colOffset)) with col by lia.
      repeat split; try done; lia.
    + intros (i & j & Hi & Hj & Hi' & Hj' & Hv & Ho).
      exists (rowOffset + i). split; [lia |].
      apply existsb_seqZ. exists (colOffset + j). split; [lia |].
      unfold hit.
      replace (rowOffset + i - rowOffset) with i by lia.
      replace (colOffset + j - colOffset) with j by lia.
      by rewrite Hv, Ho.
Qed.

Lemma overlaps_inside_iff (this other : Bitmap) (rowOffset colOffset : Z) :
  0 ≤ rowOffset → 0 ≤ colOffset →
  overlaps_receiver_on_other this rowOffset colOffset other
  ↔ overlaps_inside this rowOffset colOffset other.
Proof.
  intros Hro Hco. unfold overlaps_receiver_on_other, overlaps_inside.
  split; intros (i & j & H); exists i, j; intuition lia.
Qed.

(** C3, as amended. With offsets that are not negative, [isOverlapping]
    returns true exactly when some cell of the receiver, placed at the
    offset onto the coordinates of [other], is non-empty in both grids;
    the cells of the receiver that fall past the last row or column of
    [other] are not looked at. *)
Theorem isOverlapping_receiver_placed_on_other
    (this other : Bitmap) (rowOffset colOffset : Z) :
  1 ≤ Bitmap.rows this → 1 ≤ Bitmap.rows other →
  0 ≤ rowOffset → 0 ≤ colOffset →
  ∃ b, Bitmap.isOverlapping this rowOffset colOffset other = Ret b
       ∧ (b = true ↔ overlaps_inside this rowOffset colOffset other)
       ∧ (b = true ↔
          ∃ i j, 0 ≤ i < Bitmap.rows this ∧ 0 ≤ j < width this
                 ∧ rowOffset + i < Bitmap.rows other
                 ∧ colOffset + j < width other
                 ∧ Bitmap.get this i j ≠ Ret E
                 ∧ Bitmap.get other (rowOffset + i) (colOffset + j) ≠ Ret E).
Proof.
  intros Hthis Hother Hro Hco.
  destruct (isOverlapping_total this other rowOffset colOffset)
    as (b & Hrun & Hb); [done .. |].
  exists b. split; [done |]. rewrite Hb.
  split; [by apply overlaps_inside_iff |].
  unfold overlaps_receiver_on_other.
  assert (∀ v : value, neE v = true ↔ Ret v ≠ Ret E) as Hne.
  { intros [s |]; [| done]. unfold neE, E. rewrite negb_true_iff.
    rewrite String.eqb_neq. split; [congruence |].
    intros Hne ->. done. }
  split; intros (i & j & Hi & Hj & Hi' & Hj' & Hv & Ho); exists i, j.
  - rewrite !get_in_rows by lia. rewrite <- !Hne. done.
  - rewrite !get_in_rows in * by lia. rewrite <- !Hne in *. done.
Qed.

Lemma isOverlapping_receiver_placed_on_other_witness :
  let piece := mkBitmap [[Blocks.C]] in
  let grid := mkBitmap [[E; E]; [E; Blocks.C]] in
  (1 ≤ Bitmap.rows piece ∧ 1 ≤ Bitmap.rows grid ∧ 0 ≤ 1 ∧ 0 ≤ 1)
  ∧ ∃ b, Bitmap.isOverlapping piece 1 1 grid = Ret b
         ∧ (b = true ↔ overlaps_inside piece 1 1 grid).
Proof.
  intros piece grid.
  assert (1 ≤ Bitmap.rows piece) as Hp by (vm_compute; discriminate).
  assert (1 ≤ Bitmap.rows grid) as Hg by (vm_compute; discriminate).
  split; [repeat split; (done || lia) |].
  destruct (isOverlapping_receiver_placed_on_other piece grid 1 1 Hp Hg)
    as (b & Hrun & Hb & _); [lia | lia |].
  by exists b.
Defined.

(** C3, as worded, fails. A one-cell grid placed at offset (1, 1) on a
    2 by 2 grid whose last cell is taken overlaps it, although no cell of
    the 2 by 2 grid placed at (1, 1) lies on the one-cell receiver; and at
    column offset -1 the receiver's cell hangs off the left edge of an
    empty grid and is reported as overlapping all the same. *)
Lemma isOverlapping_other_on_receiver_counterexample :
  let piece := mkBitmap [[Blocks.C]] in
  let grid := mkBitmap [[E; E]; [E; Blocks.C]] in
  let empty := mkBitmap [[E]] in
  ¬ (Bitmap.isOverlapping piece 1 1 grid = Ret true
     ↔ overlaps_other_on_receiver piece 1 1 grid)
  ∧ ¬ (Bitmap.isOverlapping piece 0 (-1) empty = Ret true
       ↔ overlaps_other_on_receiver piece 0 (-1) empty).
Proof.
  intros piece grid empty. split.
  - intros [Hcode _]. destruct (Hcode eq_refl) as (i & j & Hi & _ & Hi' & _).
    change (Bitmap.rows piece) with 1 in Hi'. lia.
  - intros [Hcode _]. destruct (Hcode eq_refl) as (i & j & Hi & Hj & _ & _ & Hne & _).
    change (Bitmap.rows empty) with 1 in Hi. change (width empty) with 1 in Hj.
    assert (i = 0) as -> by lia. assert (j = 0) as -> by lia.
    vm_compute in Hne. discriminate.
Qed.

(** *** isRowFilled, removeRow, removeFilledRows *)

Lemma rowFilled_cells (r : list value) :
  rowFilled r = negb (existsb (fun col => eqE (cell r col))
                              (seqZ 0 (Z.of_nat (length r)))).
Proof.
  apply eq_true_iff_eq. rewrite negb_true_iff.
  unfold rowFilled. rewrite forallb_forall. split.
  - intros Hall. apply not_true_is_false. intros Hex.
    apply existsb_seqZ in Hex as (col & Hcol & Hempty).
    destruct (array_get_in_range r col) as [v Hv]; [lia |].
    unfold cell in Hempty. rewrite Hv in Hempty. simpl in Hempty.
    apply array_get_Some in Hv as [_ Hv].
    apply list_elem_of_lookup_2, list_elem_of_In, Hall in Hv.
    unfold eqE in Hempty. by rewrite Hv in Hempty.
  - intros Hnone v Hin.
    apply list_elem_of_In, list_elem_of_lookup_1 in Hin as [n Hn].
    destruct (neE v) eqn:Hv; [done |]. exfalso.
    apply not_true_iff_false in Hnone. apply Hnone.
    apply existsb_seqZ. exists (Z.of_nat n).
    pose proof (lookup_lt_Some _ _ _ Hn).
    split; [lia |]. unfold cell. rewrite array_get_nat, Hn. simpl.
    unfold eqE. by rewrite Hv.
Qed.

Lemma isRowFilled_rect (R C : Z) (b : Bitmap) (row : Z) (r : list value) :
  rect R C b → array_get (data b) row = Some r →
  Bitmap.isRowFilled b row = Ret (rowFilled r).
Proof.
  intros Hrect Hr.
  assert (0 ≤ row < R) as Hrow.
  { apply array_get_Some in Hr as [? Hr]. apply lookup_lt_Some in Hr.
    destruct Hrect as [<- _]. unfold Bitmap.rows. lia. }
  destruct (rect_row R C b row Hrect Hrow) as (r' & Hr' & Hlen).
  assert (r' = r) as -> by congruence.
  unfold Bitmap.isRowFilled. rewrite (rect_cols R C) by (done || lia). osimpl.
  rewrite (for_any_existsb _ (fun col => eqE (cell r col))).
  - osimpl. rewrite rowFilled_cells, Hlen. by rewrite Z.sub_0_r.
  - intros col _. unfold Bitmap.get. by rewrite Hr.
Qed.

Lemma splice1_in_range {A} (l : list A) (row : Z) :
  0 ≤ row < Z.of_nat (length l) → splice1 l row = delete (Z.to_nat row) l.
Proof.
  intros Hrow. unfold splice1. cbv zeta. rewrite decide_False by lia.
  by rewrite Z.min_l by lia.
Qed.

Lemma removeRow_rect (R C : Z) (b : Bitmap) (row : Z) :
  rect R C b → 2 ≤ R → 0 ≤ row < R →
  Bitmap.removeRow b row
  = Ret (mkBitmap (emptyRow C :: delete (Z.to_nat row) (data b))).
Proof.
  intros Hrect HR Hrow. pose proof Hrect as [Hrows Hall].
  unfold Bitmap.rows in Hrows.
  unfold Bitmap.removeRow. rewrite splice1_in_range by lia. simpl.
  assert (rect (R - 1) C (mkBitmap (delete (Z.to_nat row) (data b)))) as Hd.
  { split.
    - unfold Bitmap.rows. cbn [data]. rewrite length_delete.
      + lia.
      + apply lookup_lt_is_Some_2. lia.
    - cbn [data]. by apply Forall_delete. }
  rewrite (rect_cols (R - 1) C) by (done || lia). done.
Qed.

Lemma array_get_middle {A} (l1 l2 : list A) (x : A) (i : Z) :
  i = Z.of_nat (length l1) → array_get (l1 ++ x :: l2) i = Some x.
Proof.
  intros ->. rewrite array_get_nat. apply list_lookup_middle. done.
Qed.

Lemma filledCount_snoc (top : Style2D) (x : list value) :
  filledCount (top ++ [x]) = filledCount top + (if rowFilled x then 1 else 0).
Proof.
  unfold filledCount. rewrite List.filter_app, length_app. simpl.
  destruct (rowFilled x); simpl; lia.
Qed.

Lemma unfilledRows_snoc (top : Style2D) (x : list value) :
  unfilledRows (top ++ [x])
  = unfilledRows top ++ (if rowFilled x then [] else [x]).
Proof.
  unfold unfilledRows. rewrite List.filter_app. simpl.
  by destruct (rowFilled x).
Qed.

(** One unit of fuel per row still to examine is enough for the loop of
    [removeFilledRows]. The rows are [count] fresh empty rows, then the
    rows [top] not yet examined, then the rows [below] that were kept. *)
Lemma removeFilledRows_loop_rect (R C : Z) :
  2 ≤ R →
  ∀ (fuel : nat) (top below : Style2D) (count : Z),
    0 ≤ count →
    (length top ≤ fuel)%nat →
    rect R C (mkBitmap (replicate (Z.to_nat count) (emptyRow C) ++ top ++ below)) →
    Bitmap.removeFilledRows_loop fuel
      (mkBitmap (replicate (Z.to_nat count) (emptyRow C) ++ top ++ below))
      (count + Z.of_nat (length top) - 1) count
    = Ret (count + filledCount top,
           mkBitmap (replicate (Z.to_nat (count + filledCount top)) (emptyRow C)
                       ++ unfilledRows top ++ below)).
Proof.
  intros HR. induction fuel as [|fuel IH]; intros top below count Hcount Hfuel Hrect.
  - destruct top; [| simpl in Hfuel; lia]. simpl.
    unfold filledCount. simpl. by rewrite Z.add_0_r.
  - destruct (decide (top = [])) as [-> | Hne].
    { simpl. rewrite decide_False by lia.
      unfold filledCount. simpl. by rewrite Z.add_0_r. }
    destruct (exists_last Hne) as (top' & x & ->).
    rewrite length_app in Hfuel. simpl in Hfuel.
    cbn [Bitmap.removeFilledRows_loop].
    rewrite decide_True by (rewrite length_app; simpl; lia).
    set (pre := replicate (Z.to_nat count) (emptyRow C) ++ top').
    assert (replicate (Z.to_nat count) (emptyRow C) ++ (top' ++ [x]) ++ below
            = pre ++ x :: below) as Hshape.
    { unfold pre. by rewrite <- !(assoc_L (++)). }
    rewrite Hshape in *.
    assert (count + Z.of_nat (length (top' ++ [x])) - 1 = Z.of_nat (length pre))
      as Hrow.
    { unfold pre. rewrite !length_app, length_replicate. simpl. lia. }
    rewrite Hrow.
    assert (array_get (pre ++ x :: below) (Z.of_nat (length pre)) = Some x) as Hx
      by by apply array_get_middle.
    rewrite (isRowFilled_rect R C _ _ x Hrect Hx). osimpl.
    assert (Z.of_nat (length pre) < R) as HrowR.
    { destruct Hrect as [<- _]. unfold Bitmap.rows. cbn [data].
      rewrite length_app. simpl. lia. }
    rewrite filledCount_snoc, unfilledRows_snoc.
    pose proof Hrect as [Hrows Hall]. unfold Bitmap.rows in Hrows.
    cbn [data] in Hrows, Hall. rewrite length_app in Hrows. simpl in Hrows.
    apply Forall_app in Hall as [Hpre Hall].
    apply Forall_cons in Hall as [Hx_len Hbelow].
    destruct (rowFilled x) eqn:Hfilled.
    + rewrite (removeRow_rect R C) by (done || lia). osimpl. cbn [data].
      rewrite Nat2Z.id, delete_middle.
      assert (emptyRow C :: pre ++ below
              = replicate (Z.to_nat (count + 1)) (emptyRow C) ++ top' ++ below)
        as Hshift.
      { unfold pre. replace (Z.to_nat (count + 1)) with (S (Z.to_nat count)) by lia.
        simpl. by rewrite <- (assoc_L (++)). }
      rewrite Hshift.
      replace (Z.of_nat (length pre)) with (count + 1 + Z.of_nat (length top') - 1)
        by (rewrite <- Hrow, length_app; simpl; lia).
      rewrite IH; [| lia | lia |].
      * rewrite app_nil_r.
        by replace (count + (filledCount top' + 1))
          with (count + 1 + filledCount top') by lia.
      * rewrite <- Hshift. split.
        -- unfold Bitmap.rows. cbn [data length]. rewrite length_app. lia.
        -- cbn [data]. constructor.
           ++ unfold emptyRow. rewrite length_replicate.
              assert (0 ≤ C) by lia. lia.
           ++ apply Forall_app. done.
    + replace (Z.of_nat (length pre) - 1) with (count + Z.of_nat (length top') - 1)
        by (rewrite <- Hrow, length_app; simpl; lia).
      assert (pre ++ x :: below
              = replicate (Z.to_nat count) (emptyRow C) ++ top' ++ x :: below)
        as Hkeep.
      { unfold pre. by rewrite <- (assoc_L (++)). }
      rewrite Hkeep.
      rewrite IH; [| lia | lia |].
      * rewrite Z.add_0_r, <- (assoc_L (++)). done.
      * by rewrite <- Hkeep.
Qed.

Lemma removeFilledRows_rect (R C : Z) (b : Bitmap) :
  rect R C b → 2 ≤ R →
  Bitmap.removeFilledRows b
  = Ret (filledCount (data b),
         mkBitmap (replicate (Z.to_nat (filledCount (data b))) (emptyRow C)
                     ++ unfilledRows (data b))).
Proof.
  intros Hrect HR. unfold Bitmap.removeFilledRows. destruct b as [d].
  pose proof (removeFilledRows_loop_rect R C HR (Z.to_nat (Bitmap.rows (mkBitmap d)))
                d [] 0) as Hloop.
  simpl in Hloop. rewrite !app_nil_r in Hloop.
  replace (Bitmap.rows (mkBitmap d) - 1) with (Z.of_nat (length d) - 1) by done.
  apply Hloop; [lia | unfold Bitmap.rows; simpl; lia | done].
Qed.

(** On a grid of at least two rows whose only filled row is the last one,
    [removeFilledRows] returns 1 and leaves an empty row on top of the other
    rows, which all move down by one. *)
Lemma removeFilledRows_bottom_row (R C : Z) (upper : Style2D) (bottom : list value) :
  rect R C (mkBitmap (upper ++ [bottom])) → 2 ≤ R →
  rowFilled bottom = true →
  Forall (fun r => rowFilled r = false) upper →
  Bitmap.removeFilledRows (mkBitmap (upper ++ [bottom]))
  = Ret (1, mkBitmap (emptyRow C :: upper)).
Proof.
  intros Hrect HR Hbottom Hupper.
  rewrite (removeFilledRows_rect R C) by done. cbn [data].
  rewrite filledCount_snoc, unfilledRows_snoc, Hbottom, app_nil_r.
  assert (filledCount upper = 0 ∧ unfilledRows upper = upper) as [-> ->].
  { unfold filledCount, unfilledRows.
    clear Hrect. induction Hupper as [|r upper Hr _ IH]; [done |].
    destruct IH as [IH1 IH2].
    simpl. rewrite Hr. simpl. split; [done | by rewrite IH2]. }
  done.
Qed.

(** Fuel beyond the number of rows still to examine changes nothing. *)
Lemma removeFilledRows_loop_fuel :
  ∀ (fuel fuel' : nat) (this : Bitmap) (row count : Z),
    row - count + 1 ≤ Z.of_nat fuel → row - count + 1 ≤ Z.of_nat fuel' →
    Bitmap.removeFilledRows_loop fuel this row count
    = Bitmap.removeFilledRows_loop fuel' this row count.
Proof.
  induction fuel as [|fuel IH]; intros fuel' this row count Hfuel Hfuel'.
  - destruct fuel' as [|fuel']; [done |]. cbn [Bitmap.removeFilledRows_loop].
    by rewrite decide_False by lia.
  - cbn [Bitmap.removeFilledRows_loop]. case_decide as Hguard.
    + destruct fuel' as [|fuel']; [lia |]. cbn [Bitmap.removeFilledRows_loop].
      rewrite decide_True by done.
      destruct (Bitmap.isRowFilled this row) as [[|] |]; osimpl; [| | done].
      * destruct (Bitmap.removeRow this row) as [this' |]; osimpl; [| done].
        apply IH; lia.
      * apply IH; lia.
    + destruct fuel' as [|fuel']; [done |]. cbn [Bitmap.removeFilledRows_loop].
      by rewrite decide_False by done.
Qed.

(** C2. On a grid of two rows or more [removeFilledRows] returns the
    number of filled rows and leaves that many empty rows on top of the
    rows that were not filled, in their order; when only the last row is
    filled it returns 1 and the other rows move down by one under a new
    empty row. On a grid of one row that is filled, such as the I block,
    the call throws instead of returning 1: [removeRow] reads the width of
    the grid after it has spliced the only row out. *)
Theorem removeFilledRows_single_filled_row_throws :
  (∀ (R C : Z) (b : Bitmap),
     rect R C b → 2 ≤ R →
     Bitmap.removeFilledRows b
     = Ret (filledCount (data b),
            mkBitmap (replicate (Z.to_nat (filledCount (data b))) (emptyRow C)
                        ++ unfilledRows (data b))))
  ∧ (∀ (R C : Z) (upper : Style2D) (bottom : list value),
       rect R C (mkBitmap (upper ++ [bottom])) → 2 ≤ R →
       rowFilled bottom = true →
       Forall (fun r => rowFilled r = false) upper →
       Bitmap.removeFilledRows (mkBitmap (upper ++ [bottom]))
       = Ret (1, mkBitmap (emptyRow C :: upper)))
  ∧ (rect 1 4 Blocks.BLOCK_I
     ∧ Bitmap.isRowFilled Blocks.BLOCK_I 0 = Ret true
     ∧ Bitmap.removeRow Blocks.BLOCK_I 0 = Throw
     ∧ Bitmap.removeFilledRows Blocks.BLOCK_I = Throw).
Proof.
  split; [exact removeFilledRows_rect |].
  split; [exact removeFilledRows_bottom_row |].
  split; [split; [reflexivity | repeat constructor] |].
  repeat split; reflexivity.
Qed.

Lemma removeFilledRows_single_filled_row_throws_witness :
  let C := Blocks.C in
  let b := mkBitmap [[E; E]; [C; C]; [E; C]; [C; C]] in
  (rect 4 2 b ∧ 2 ≤ 4)
  ∧ Bitmap.removeFilledRows b
    = Ret (2, mkBitmap [[E; E]; [E; E]; [E; E]; [E; C]]).
Proof.
  intros C b.
  assert (rect 4 2 b) as Hrect by (split; [reflexivity | repeat constructor]).
  assert (2 ≤ 4) as HR by lia.
  split; [done |].
  exact (proj1 removeFilledRows_single_filled_row_throws 4 2 b Hrect HR).
Defined.

(** *** copyFrom *)

Lemma for_range_preserves {St} (P : St → Prop) (body : Z → St → outcome St)
    (start stop : Z) (s : St) :
  P s →
  (∀ j t, start ≤ j < stop → P t → ∃ t', body j t = Ret t' ∧ P t') →
  ∃ s', for_range start stop body s = Ret s' ∧ P s'.
Proof.
  intros Hs Hbody. unfold for_range.
  destruct (for_loop_inv (fun _ t => P t) body (Z.to_nat (stop - start)) start s Hs)
    as (s' & Hrun & Hs'); [| by exists s'].
  intros j t Hj. apply Hbody. lia.
Qed.

Lemma copyFrom_rect (R C : Z) (this other : Bitmap) (rowOffset colOffset : Z) :
  rect R C this → 1 ≤ R → 1 ≤ Bitmap.rows other → 0 ≤ rowOffset →
  ∃ this', Bitmap.copyFrom this rowOffset colOffset other = Ret this'
           ∧ rect R C this'.
Proof.
  intros Hrect HR Hother Hro. unfold Bitmap.copyFrom.
  rewrite (rect_cols R C this), (cols_defined other) by done. osimpl.
  rewrite (rect_rows R C this Hrect).
  set (maxRows := Z.min R (rowOffset + Bitmap.rows other)).
  set (maxCols := Z.min C (colOffset + width other)).
  destruct (for_range_preserves (fun d => rect R C (mkBitmap d))
    (fun row d => for_range colOffset maxCols (fun col d =>
       value ← Bitmap.get other (row - rowOffset) (col - colOffset);
       if neE value then
         trow ← defined (array_get d row);
         Ret (<[Z.to_nat row := array_set trow col value]> d)
       else Ret d) d)
    rowOffset maxRows (data this)) as (d & -> & Hd).
  - by destruct this.
  - intros row d Hrow Hd. apply for_range_preserves; [done |].
    intros col d' Hcol Hd'.
    rewrite get_in_rows by lia. osimpl.
    destruct (neE _); [| by exists d'].
    destruct (rect_row R C (mkBitmap d') row Hd') as (trow & Htrow & Hlen); [lia |].
    cbn [data] in Htrow. rewrite Htrow. osimpl.
    eexists. split; [done |]. destruct Hd' as [Hrows Hall]. split.
    + unfold Bitmap.rows in *. cbn [data] in *. by rewrite length_insert.
    + cbn [data] in *. apply Forall_insert; [done |].
      rewrite array_set_length_in by lia. done.
  - osimpl. by exists (mkBitmap d).
Qed.

Lemma for_range_inv_max {St} (I : Z → St → Prop) (body : Z → St → outcome St)
    (start stop : Z) (s : St) :
  I start s →
  (∀ j t, start ≤ j < stop → I j t → ∃ t', body j t = Ret t' ∧ I (j + 1) t') →
  ∃ s', for_range start stop body s = Ret s' ∧ I (Z.max start stop) s'.
Proof.
  intros Hs Hbody. destruct (decide (start ≤ stop)) as [Hle | Hgt].
  - rewrite Z.max_r by done. by apply for_range_inv.
  - rewrite Z.max_l by lia. exists s. split; [| done].
    apply for_range_empty. lia.
Qed.

Lemma cellAt_insert_row (d : Style2D) (row : Z) (trow : list value)
    (col : Z) (v : value) (r c : Z) :
  array_get d row = Some trow → 0 ≤ col < Z.of_nat (length trow) →
  cellAt (mkBitmap (<[Z.to_nat row := array_set trow col v]> d)) r c
  = if decide (r = row ∧ c = col) then v else cellAt (mkBitmap d) r c.
Proof.
  intros Htrow Hcol. pose proof Htrow as Htrow'.
  apply array_get_Some in Htrow' as [Hrow Hlookup].
  unfold cellAt. cbn [data].
  destruct (decide (r = row)) as [-> | Hne].
  - assert (array_get (<[Z.to_nat row := array_set trow col v]> d) row
            = Some (array_set trow col v)) as ->.
    { apply array_get_Some. split; [done |].
      apply list_lookup_insert_eq. by apply lookup_lt_Some in Hlookup. }
    rewrite Htrow, cell_array_set by done.
    destruct (decide (c = col)) as [-> |].
    + by rewrite decide_True.
    + by rewrite decide_False by tauto.
  - assert (array_get (<[Z.to_nat row := array_set trow col v]> d) r
            = array_get d r) as ->.
    { unfold array_get. case_decide; [| done].
      apply list_lookup_insert_ne. lia. }
    by rewrite decide_False by tauto.
Qed.

(** [copyFrom] at offsets that are not negative: the cells of the receiver
    under a non-empty cell of [other] take its value, the others keep
    theirs. *)
Lemma copyFrom_cells (R C : Z) (this other : Bitmap) (rowOffset colOffset : Z) :
  rect R C this → 1 ≤ R → 1 ≤ Bitmap.rows other →
  0 ≤ rowOffset → 0 ≤ colOffset →
  ∃ this',
    Bitmap.copyFrom this rowOffset colOffset other = Ret this'
    ∧ rect R C this'
    ∧ ∀ r c, 0 ≤ r < R → 0 ≤ c < C →
        cellAt this' r c
        = if decide (rowOffset ≤ r < rowOffset + Bitmap.rows other
                     ∧ colOffset ≤ c < colOffset + width other
                     ∧ neE (cellAt other (r - rowOffset) (c - colOffset)) = true)
          then cellAt other (r - rowOffset) (c - colOffset)
          else cellAt this r c.
Proof.
  intros Hrect HR Hother Hro Hco. unfold Bitmap.copyFrom.
  rewrite (rect_cols R C this), (cols_defined other) by done. osimpl.
  rewrite (rect_rows R C this Hrect).
  set (maxRows := Z.min R (rowOffset + Bitmap.rows other)).
  set (maxCols := Z.min C (colOffset + width other)).
  set (src := fun r c => cellAt other (r - rowOffset) (c - colOffset)).
  set (P := fun (j r c : Z) =>
              rowOffset ≤ r < j ∧ colOffset ≤ c < maxCols ∧ neE (src r c) = true).
  set (Q := fun (row j r c : Z) =>
              P row r c ∨ (r = row ∧ colOffset ≤ c < j ∧ neE (src r c) = true)).
  set (Inv := fun (covered : Z → Z → Prop) (d : Style2D) =>
                rect R C (mkBitmap d)
                ∧ ∀ r c, 0 ≤ r < R → 0 ≤ c < C →
                    (covered r c → cellAt (mkBitmap d) r c = src r c)
                    ∧ (¬ covered r c → cellAt (mkBitmap d) r c = cellAt this r c)).
  destruct (for_range_inv_max (fun j d => Inv (P j) d)
    (fun row d => for_range colOffset maxCols (fun col d =>
       value ← Bitmap.get other (row - rowOffset) (col - colOffset);
       if neE value then
         trow ← defined (array_get d row);
         Ret (<[Z.to_nat row := array_set trow col value]> d)
       else Ret d) d)
    rowOffset maxRows (data this)) as (d & -> & Hd & Hcells).
  - split; [by destruct this |]. intros r c Hr Hc. split.
    + intros (? & _). lia.
    + by destruct this.
  - intros row d Hrow [Hd Hcells].
    destruct (for_range_inv_max (fun j d => Inv (Q row j) d)
      (fun col d =>
         value ← Bitmap.get other (row - rowOffset) (col - colOffset);
         if neE value then
           trow ← defined (array_get d row);
           Ret (<[Z.to_nat row := array_set trow col value]> d)
         else Ret d)
      colOffset maxCols d) as (d' & -> & Hd' & Hcells').
    + split; [done |]. intros r c Hr Hc. split.
      * intros [HP | (_ & ? & _)]; [by apply Hcells | lia].
      * intros Hnot. apply Hcells; [done .. |]. intros HP. apply Hnot. by left.
    + intros col d1 Hcol [Hd1 Hcells1].
      rewrite get_in_rows by lia. osimpl. fold (src row col).
      destruct (neE (src row col)) eqn:Hne.
      * destruct (rect_row R C (mkBitmap d1) row Hd1) as (trow & Htrow & Hlen);
          [lia |].
        cbn [data] in Htrow. rewrite Htrow. osimpl.
        eexists. split; [done |]. split.
        { destruct Hd1 as [Hrows Hall]. split.
          - unfold Bitmap.rows in *. cbn [data] in *. by rewrite length_insert.
          - cbn [data] in *. apply Forall_insert; [done |].
            rewrite array_set_length_in by lia. done. }
        intros r c Hr Hc. rewrite (cellAt_insert_row d1 row trow) by (done || lia).
        destruct (decide (r = row ∧ c = col)) as [[-> ->] | Hother'].
        -- split; [done |]. intros Hnot. exfalso. apply Hnot. right.
           repeat split; (done || lia).
        -- destruct (Hcells1 r c Hr Hc) as [Hin Hout]. split.
           ++ intros [HP | (-> & Hc' & Hne')]; [apply Hin; by left |].
              apply Hin. right. split; [done |]. split; [lia | done].
           ++ intros Hnot. apply Hout. intros [HP | (-> & Hc' & Hne')];
                apply Hnot; [by left |]. right. split; [done |]. split; [lia | done].
      * exists d1. split; [done |]. split; [done |].
        intros r c Hr Hc. destruct (Hcells1 r c Hr Hc) as [Hin Hout]. split.
        -- intros [HP | (-> & Hc' & Hne')]; [apply Hin; by left |].
           apply Hin. right. split; [done |]. split; [| done].
           destruct (decide (c = col)) as [-> |]; [congruence | lia].
        -- intros Hnot. apply Hout. intros [HP | (-> & Hc' & Hne')];
             apply Hnot; [by left |]. right. split; [done |]. split; [lia | done].
    + exists d'. split; [done |]. split; [done |].
      intros r c Hr Hc. destruct (Hcells' r c Hr Hc) as [Hin Hout]. split.
      * intros (Hr' & Hc' & Hne). apply Hin.
        destruct (decide (r = row)) as [-> |].
        -- right. split; [done |]. split; [lia | done].
        -- left. split; [lia | done].
      * intros Hnot. apply Hout. intros [(Hr' & Hc' & Hne) | (-> & Hc' & Hne)];
          apply Hnot; (split; [lia |]; split; [lia | done]).
  - osimpl. exists (mkBitmap d). split; [done |]. split; [done |].
    intros r c Hr Hc. destruct (Hcells r c Hr Hc) as [Hin Hout].
    fold (src r c). case_decide as Hcov.
    + apply Hin. unfold P. destruct Hcov as (Hr' & Hc' & Hne).
      repeat split; (done || lia).
    + apply Hout. intros (Hr' & Hc' & Hne). apply Hcov.
      repeat split; (done || lia).
Qed.

(** ** Shape *)

Section ShapeFacts.
Implicit Types (this : Shape) (board cur : Bitmap).

Lemma shape_ok_current this :
  shape_ok this →
  ∃ cur, Shape.currentBitmap this = Ret cur ∧ 1 ≤ Bitmap.rows cur.
Proof.
  intros [Hvalid Hall]. unfold Shape.currentBitmap, Bag.current.
  destruct (array_get_in_range (values (rotations this)) (index (rotations this)))
    as [cur Hcur]; [done |].
  exists cur. rewrite Hcur. split; [done |].
  apply array_get_Some in Hcur as [_ Hcur].
  by apply (Forall_lookup_1 _ _ _ _ Hall Hcur).
Qed.

Lemma shape_ok_next this :
  shape_ok this → shape_ok (Shape.setRotations this (Bag.next (rotations this))).
Proof. intros [Hvalid Hall]. split; [by apply next_valid | done]. Qed.

Lemma isWithin_spec this board cur :
  Shape.currentBitmap this = Ret cur → 1 ≤ Bitmap.rows cur →
  1 ≤ Bitmap.rows board →
  Shape.isWithin this board = Ret (bool_decide (fits this cur board)).
Proof.
  intros Hcur Hrows Hboard. unfold Shape.isWithin, fits.
  case_decide.
  { rewrite bool_decide_eq_false_2; [done | lia]. }
  rewrite Hcur. osimpl.
  rewrite (cols_defined cur), (cols_defined board) by done. osimpl.
  case_decide.
  { rewrite bool_decide_eq_false_2; [done | lia]. }
  case_decide.
  { rewrite bool_decide_eq_false_2; [done | lia]. }
  rewrite bool_decide_eq_true_2; [done | lia].
Qed.

Lemma blocked_spec this board cur :
  Shape.currentBitmap this = Ret cur → 1 ≤ Bitmap.rows cur →
  1 ≤ Bitmap.rows board → 0 ≤ rowOffset this →
  ∃ b, Shape.blocked this board = Ret b
       ∧ (b = false ↔
          fits this cur board
          ∧ ¬ overlaps_receiver_on_other cur (rowOffset this) (colOffset this)
                board).
Proof.
  intros Hcur Hrows Hboard Hrow. unfold Shape.blocked.
  rewrite (isWithin_spec this board cur) by done. osimpl.
  case_bool_decide as Hfits.
  - unfold Shape.isOverlapping. rewrite Hcur. osimpl.
    destruct (isOverlapping_total cur board (rowOffset this) (colOffset this))
      as (b & -> & Hb); [done .. |].
    exists b. split; [done |]. rewrite <- Hb.
    destruct b; [split; [done | by intros [_ Hno]] | done].
  - exists true. split; [done |]. split; [done | tauto].
Qed.

Lemma down_spec this board cur :
  Shape.currentBitmap this = Ret cur → 1 ≤ Bitmap.rows cur →
  1 ≤ Bitmap.rows board → 0 ≤ rowOffset this →
  ∃ moved : bool,
    Shape.down this board
    = Ret (moved, if moved then Shape.setRowOffset this (rowOffset this + 1)
                  else this)
    ∧ (moved = true → rowOffset this + 1 + Bitmap.rows cur ≤ Bitmap.rows board).
Proof.
  intros Hcur Hrows Hboard Hrow. unfold Shape.down.
  destruct (blocked_spec (Shape.setRowOffset this (rowOffset this + 1)) board cur)
    as (b & -> & Hb); [done .. | simpl; lia |].
  osimpl. destruct b.
  - exists false. split; [by destruct this | done].
  - exists true. split; [done |]. intros _.
    destruct Hb as [Hb _]. destruct (Hb eq_refl) as [(_ & _ & Hfit) _].
    exact Hfit.
Qed.

Lemma changeColOffset_spec this board cur (c : Z) :
  Shape.currentBitmap this = Ret cur → 1 ≤ Bitmap.rows cur →
  1 ≤ Bitmap.rows board → 0 ≤ rowOffset this →
  ∃ moved : bool,
    Shape.changeColOffset this c board
    = Ret (moved, if moved then Shape.setColOffset this c else this)
    ∧ (moved = true → 0 ≤ c ∧ c + width cur ≤ width board).
Proof.
  intros Hcur Hrows Hboard Hrow. unfold Shape.changeColOffset.
  destruct (blocked_spec (Shape.setColOffset this c) board cur)
    as (b & -> & Hb); [done .. |].
  osimpl. destruct b.
  - exists false. split; [by destruct this | done].
  - exists true. split; [done |]. intros _.
    destruct Hb as [Hb _]. destruct (Hb eq_refl) as [(Hc & Hfit & _) _].
    done.
Qed.

Lemma fitWithin_spec this board cur :
  Shape.currentBitmap this = Ret cur → 1 ≤ Bitmap.rows cur →
  1 ≤ Bitmap.rows board →
  Shape.fitWithin this board
  = Ret (mkShape (rotations this)
           (Z.min (rowOffset this) (Bitmap.rows board - Bitmap.rows cur))
           (Z.min (Z.max (colOffset this) 0) (width board - width cur))).
Proof.
  intros Hcur Hrows Hboard. unfold Shape.fitWithin.
  rewrite (cols_defined board) by done. osimpl.
  assert (∀ s, rotations s = rotations this → Shape.currentBitmap s = Ret cur)
    as Hsame.
  { intros s Hs. unfold Shape.currentBitmap in *. by rewrite Hs. }
  destruct this as [rs r c]. cbn [rowOffset colOffset rotations] in *.
  repeat (rewrite Hsame by (repeat case_decide; done); osimpl).
  rewrite (cols_defined cur) by done. osimpl.
  repeat (rewrite Hsame by (repeat case_decide; done); osimpl).
  f_equal. unfold Shape.setColOffset, Shape.setRowOffset.
  repeat case_decide; cbn [rowOffset colOffset rotations] in *; f_equal; lia.
Qed.

End ShapeFacts.

Lemma asShapes_BLOCKS : Shape.asShapes Blocks.BLOCKS = Ret standardShapes.
Proof. reflexivity. Qed.

Lemma any_loop_first_throws (n : nat) (i : Z) (test : Z → outcome bool) :
  test i = Throw → any_loop (S n) i test = Throw.
Proof. intros Htest. cbn [any_loop]. by rewrite Htest. Qed.

Lemma for_any_first_throws (start stop : Z) (test : Z → outcome bool) :
  start < stop → test start = Throw → for_any start stop test = Throw.
Proof.
  intros Hlt Htest. unfold for_any.
  replace (Z.to_nat (stop - start)) with (S (Z.to_nat (stop - start - 1))) by lia.
  by apply any_loop_first_throws.
Qed.

Lemma isOverlapping_negative_row (this other : Bitmap) (ro co : Z) :
  1 ≤ Bitmap.rows this → 1 ≤ Bitmap.rows other →
  ro < 0 → 1 ≤ width this → co < width other →
  Bitmap.isOverlapping this ro co other = Throw.
Proof.
  intros Hthis Hother Hro Hwidth Hco. unfold Bitmap.isOverlapping.
  rewrite (cols_defined other), (cols_defined this) by done. osimpl.
  apply for_any_first_throws; [lia |].
  apply for_any_first_throws; [lia |].
  rewrite (get_in_rows this) by lia. osimpl.
  by rewrite get_negative_row.
Qed.

Lemma rotate_throws (this : Shape) (board cur : Bitmap) :
  Bag.current (Bag.next (rotations this)) = Some cur →
  1 ≤ Bitmap.rows cur → 1 ≤ Bitmap.rows board → 1 ≤ width cur →
  Z.min (rowOffset this) (Bitmap.rows board - Bitmap.rows cur) < 0 →
  Shape.rotate this board = Throw.
Proof.
  intros Hcur Hrows Hboard Hwidth Hrow. unfold Shape.rotate.
  assert (Shape.currentBitmap
            (Shape.setRotations this (Bag.next (rotations this))) = Ret cur)
    as Hcur1.
  { unfold Shape.currentBitmap. cbn [rotations Shape.setRotations].
    by rewrite Hcur. }
  rewrite (fitWithin_spec _ board cur Hcur1 Hrows Hboard). osimpl.
  unfold Shape.isOverlapping, Shape.currentBitmap.
  cbn [rotations rowOffset colOffset Shape.setRotations].
  rewrite Hcur. osimpl.
  by rewrite isOverlapping_negative_row by (done || lia).
Qed.

Lemma rotate_run (this : Shape) (board cur : Bitmap) (o : bool) :
  bag_valid (rotations this) →
  Bag.current (Bag.next (rotations this)) = Some cur →
  1 ≤ Bitmap.rows cur → 1 ≤ Bitmap.rows board →
  let col := Z.min (Z.max (colOffset this) 0) (width board - width cur) in
  let row := Z.min (rowOffset this) (Bitmap.rows board - Bitmap.rows cur) in
  Bitmap.isOverlapping cur row col board = Ret o →
  Shape.rotate this board
  = Ret (negb o,
         mkShape (if o then rotations this else Bag.next (rotations this))
           row col).
Proof.
  intros Hvalid Hcur Hrows Hboard col row Ho. unfold Shape.rotate.
  assert (Shape.currentBitmap
            (Shape.setRotations this (Bag.next (rotations this))) = Ret cur)
    as Hcur1.
  { unfold Shape.currentBitmap. cbn [rotations Shape.setRotations].
    by rewrite Hcur. }
  rewrite (fitWithin_spec _ board cur Hcur1 Hrows Hboard). osimpl.
  unfold Shape.isOverlapping, Shape.currentBitmap.
  cbn [rotations rowOffset colOffset Shape.setRotations].
  rewrite Hcur. osimpl. fold col row. rewrite Ho. osimpl.
  destruct o; [| done]. unfold Shape.setRotations.
  cbn [rotations rowOffset colOffset negb].
  by rewrite previous_next.
Qed.

(** C4. [rotate(board)] moves to the next rotation (the index advances by
    one modulo the number of rotations, four for a shape made by the
    constructor), clamps the column offset into [0, board.cols -
    currentCols] and lowers the row offset to [board.rows - currentRows]
    when it is above it, leaving it alone otherwise, also when it is
    negative. The result is what [isOverlapping] then says of the clamped
    position, whenever that call returns: true puts the rotation back and
    gives false, false gives true. For a shape whose row offset is not
    negative and whose next rotation is no taller and no wider than the
    board the call returns, and its result is false exactly when a taken
    cell of the rotation lies on a taken cell of the board. When the
    clamped row offset is negative (the row offset was, or the rotation is
    taller than the board) the call throws. *)
Theorem rotate_clamps_then_checks (this : Shape) (board : Bitmap) :
  shape_ok this → 1 ≤ Bitmap.rows board →
  ∃ cur,
    Bag.current (Bag.next (rotations this)) = Some cur
    ∧ index (Bag.next (rotations this))
      = (index (rotations this) + 1) mod Bag.length (rotations this)
    ∧ let col := Z.min (Z.max (colOffset this) 0) (width board - width cur) in
      let row := Z.min (rowOffset this) (Bitmap.rows board - Bitmap.rows cur) in
      (width cur ≤ width board → 0 ≤ col ≤ width board - width cur)
      ∧ row + Bitmap.rows cur ≤ Bitmap.rows board
      ∧ (rowOffset this + Bitmap.rows cur ≤ Bitmap.rows board →
         row = rowOffset this)
      ∧ (∀ o : bool,
           Bitmap.isOverlapping cur row col board = Ret o →
           Shape.rotate this board
           = Ret (negb o,
                  mkShape (if o then rotations this
                           else Bag.next (rotations this)) row col))
      ∧ (0 ≤ row → ∃ o, Bitmap.isOverlapping cur row col board = Ret o)
      ∧ (0 ≤ rowOffset this → Bitmap.rows cur ≤ Bitmap.rows board →
         width cur ≤ width board →
         rotate_reports_overlap this board cur)
      ∧ (row < 0 → 1 ≤ width cur → Shape.rotate this board = Throw).
Proof.
  intros Hok Hboard.
  destruct (shape_ok_current _ (shape_ok_next this Hok)) as (cur & Hcur & Hrows).
  assert (Bag.current (Bag.next (rotations this)) = Some cur) as Hnext.
  { unfold Shape.currentBitmap in Hcur. cbn [rotations Shape.setRotations] in Hcur.
    by destruct (Bag.current (Bag.next (rotations this))); [injection Hcur as -> |]. }
  exists cur. split; [exact Hnext |].
  split.
  { destruct Hok as [Hvalid _]. unfold bag_valid in Hvalid.
    unfold Bag.next. cbn [index]. apply Z.rem_mod_nonneg; lia. }
  cbv zeta. split; [lia |]. split; [lia |]. split; [lia |].
  split_and!.
  - intros o Ho. apply rotate_run; try done. by destruct Hok.
  - intros Hrow.
    destruct (isOverlapping_total cur board
                (Z.min (rowOffset this) (Bitmap.rows board - Bitmap.rows cur))
                (Z.min (Z.max (colOffset this) 0) (width board - width cur)))
      as (o & Ho & _); [done .. |].
    by exists o.
  - intros Hrow Htall Hwide.
    set (row := Z.min (rowOffset this) (Bitmap.rows board - Bitmap.rows cur)).
    set (col := Z.min (Z.max (colOffset this) 0) (width board - width cur)).
    destruct (isOverlapping_total cur board row col) as (o & Ho & Hiff);
      [done | done | unfold row; lia |].
    rewrite overlaps_inside_iff in Hiff by (unfold row, col; lia).
    exists (negb o),
      (mkShape (if o then rotations this else Bag.next (rotations this)) row col).
    split_and!.
    + apply rotate_run; try done. by destruct Hok.
    + cbn [rowOffset colOffset]. rewrite <- Hiff. by destruct o.
    + by destruct o.
  - intros Hrow Hwidth. by apply (rotate_throws this board cur).
Qed.

Lemma shapeOf_I_ok : shape_ok (mkShape (rotations (shapeOf Blocks.BLOCK_I)) 14 3).
Proof.
  split.
  - split; vm_compute; [discriminate | done].
  - repeat constructor; vm_compute; discriminate.
Qed.

Lemma rotate_clamps_then_checks_witness :
  let this := mkShape (rotations (shapeOf Blocks.BLOCK_I)) 14 3 in
  (shape_ok this ∧ 1 ≤ Bitmap.rows boardWithOverhang)
  ∧ Shape.rotate this boardWithOverhang
    = Ret (false, mkShape (rotations this) 11 3)
  ∧ ∃ cur, Bag.current (Bag.next (rotations this)) = Some cur
           ∧ (0 ≤ rowOffset this ∧ Bitmap.rows cur ≤ Bitmap.rows boardWithOverhang
              ∧ width cur ≤ width boardWithOverhang)
           ∧ rotate_reports_overlap this boardWithOverhang cur.
Proof.
  intros this.
  assert (1 ≤ Bitmap.rows boardWithOverhang) as Hboard
    by (vm_compute; discriminate).
  split; [split; [exact shapeOf_I_ok | exact Hboard] |].
  destruct (rotate_clamps_then_checks this boardWithOverhang shapeOf_I_ok Hboard)
    as (cur & Hcur & _ & _ & _ & _ & Hrot & _ & Hreport & _).
  assert (0 ≤ rowOffset this ∧ Bitmap.rows cur ≤ Bitmap.rows boardWithOverhang
          ∧ width cur ≤ width boardWithOverhang) as Hfit.
  { injection Hcur as <-. split_and!; vm_compute; discriminate. }
  split.
  - injection Hcur as <-. exact (Hrot true eq_refl).
  - exists cur. split; [exact Hcur |]. split; [exact Hfit |].
    destruct Hfit as (Hrow & Htall & Hwide). exact (Hreport Hrow Htall Hwide).
Defined.

(** C4, as worded for every piece and board, fails when the next rotation
    is larger than the board. The J block on an empty board of two rows:
    its next rotation has three rows, the row offset is clamped to -1,
    and the first comparison reads a row above the board, so the call
    throws where a result was promised. The upright I block on an empty
    board of two columns: its next rotation is four cells wide, the
    column offset is clamped to -2, the cells left of the board are
    compared with the [undefined] read there, and the call returns false
    although nothing is on the board. *)
Lemma rotate_large_rotation_counterexample :
  let tall := shapeOf Blocks.BLOCK_J in
  let low := Bitmap.emptyWithSize 2 10 in
  let upright := mkShape (Bag.next (rotations (shapeOf Blocks.BLOCK_I))) 0 0 in
  let narrow := Bitmap.emptyWithSize 15 2 in
  (∃ cur, Bag.current (Bag.next (rotations tall)) = Some cur
          ∧ Bitmap.rows cur = 3
          ∧ Shape.rotate tall low = Throw
          ∧ ¬ rotate_reports_overlap tall low cur)
  ∧ Bag.current (Bag.next (rotations upright)) = Some Blocks.BLOCK_I
  ∧ Shape.rotate upright narrow
    = Ret (false, mkShape (rotations upright) 0 (-2))
  ∧ (∀ r c, neE (cellAt narrow r c) = true → c < 0 ∨ 2 ≤ c ∨ r < 0 ∨ 15 ≤ r)
  ∧ ¬ rotate_reports_overlap upright narrow Blocks.BLOCK_I.
Proof.
  intros tall low upright narrow.
  assert (Shape.rotate tall low = Throw) as Htall by (vm_compute; reflexivity).
  assert (Shape.rotate upright narrow
          = Ret (false, mkShape (rotations upright) 0 (-2))) as Hwide
    by (vm_compute; reflexivity).
  assert (∀ r c, neE (cellAt narrow r c) = true → c < 0 ∨ 2 ≤ c ∨ r < 0 ∨ 15 ≤ r)
    as Hempty.
  { intros r c Hne.
    destruct (decide (0 ≤ r < 15 ∧ 0 ≤ c < 2)) as [[Hr Hc] |]; [| lia].
    exfalso. unfold cellAt, narrow, Bitmap.emptyWithSize in Hne. cbn [data] in Hne.
    assert (array_get (replicate (Z.to_nat 15) (replicate (Z.to_nat 2) E)) r
            = Some (replicate (Z.to_nat 2) E)) as Hrow.
    { apply array_get_Some. split; [lia |]. apply lookup_replicate_2. lia. }
    rewrite Hrow in Hne. unfold cell in Hne.
    assert (array_get (replicate (Z.to_nat 2) E) c = Some E) as Hcell.
    { apply array_get_Some. split; [lia |]. apply lookup_replicate_2. lia. }
    rewrite Hcell in Hne. discriminate Hne. }
  split_and!.
  - eexists. split; [reflexivity |]. split; [reflexivity |].
    split; [exact Htall |].
    intros (ok & s' & Hrun & _). rewrite Htall in Hrun. discriminate Hrun.
  - reflexivity.
  - exact Hwide.
  - exact Hempty.
  - intros (ok & s' & Hrun & Hiff & _). rewrite Hwide in Hrun.
    injection Hrun as <- <-. cbn [rowOffset colOffset] in Hiff.
    destruct (proj1 Hiff eq_refl) as (i & j & _ & _ & Hr & Hc & _ & Hne).
    change (Bitmap.rows narrow) with 15 in Hr.
    change (width narrow) with 2 in Hc.
    apply Hempty in Hne. lia.
Qed.

Lemma fitWithin_rotations (this s' : Shape) (board : Bitmap) :
  Shape.fitWithin this board = Ret s' → rotations s' = rotations this.
Proof.
  unfold Shape.fitWithin. intros Hrun.
  apply bind_Ret_inv in Hrun as (boardCols & _ & Hrun).
  apply bind_Ret_inv in Hrun as (cur & _ & Hrun).
  apply bind_Ret_inv in Hrun as (currentCols & _ & Hrun).
  apply bind_Ret_inv in Hrun as (cur' & _ & Hrun).
  injection Hrun as <-. by repeat case_decide.
Qed.

(** C5. A move to the left, to the right or down that returns false
    leaves the shape as it was, and a rotation that returns false leaves
    the rotation as it was, but not the offsets. The I block lies flat in
    the last row of the board, columns 3 to 6, under the overhang of
    [boardWithOverhang]; the position is legal. [rotate] stands the block
    up, [fitWithin] lifts it to row 11 where it meets a taken cell, and
    the call puts the rotation back and returns false with the row offset
    left at 11 instead of 14, where the flat block overlaps the board. *)
Theorem rotate_failure_keeps_clamped_offsets :
  (∀ (this s' : Shape) (board : Bitmap),
     bag_valid (rotations this) →
     (Shape.left this board = Ret (false, s') → s' = this)
     ∧ (Shape.right this board = Ret (false, s') → s' = this)
     ∧ (Shape.down this board = Ret (false, s') → s' = this)
     ∧ (Shape.rotate this board = Ret (false, s') →
        rotations s' = rotations this))
  ∧ (let this := mkShape (rotations (shapeOf Blocks.BLOCK_I)) 14 3 in
     let this' := mkShape (rotations this) 11 3 in
     rect 15 10 boardWithOverhang
     ∧ Shape.new Blocks.BLOCK_I = Ret (shapeOf Blocks.BLOCK_I)
     ∧ Shape.blocked this boardWithOverhang = Ret false
     ∧ Shape.rotate this boardWithOverhang = Ret (false, this')
     ∧ Shape.isOverlapping this' boardWithOverhang = Ret true).
Proof.
  split.
  - intros this s' board Hvalid.
    assert (∀ c, Shape.changeColOffset this c board = Ret (false, s') → s' = this)
      as Hside.
    { unfold Shape.changeColOffset. intros c Hrun.
      apply bind_Ret_inv in Hrun as (b & _ & Hrun).
      destruct b; [| done]. injection Hrun as <-. by destruct this. }
    split_and!.
    + apply Hside.
    + apply Hside.
    + unfold Shape.down. intros Hrun.
      apply bind_Ret_inv in Hrun as (b & _ & Hrun).
      destruct b; [| done]. injection Hrun as <-. by destruct this.
    + unfold Shape.rotate. intros Hrun.
      apply bind_Ret_inv in Hrun as (s1 & Hfit & Hrun).
      apply bind_Ret_inv in Hrun as (o & _ & Hrun).
      destruct o; [| done]. injection Hrun as <-.
      apply fitWithin_rotations in Hfit. cbn [rotations Shape.setRotations] in *.
      rewrite Hfit. by apply previous_next.
  - intros this this'. split; [split; [reflexivity | repeat constructor] |].
    repeat split; reflexivity.
Qed.

Lemma rotate_failure_keeps_clamped_offsets_witness :
  let this := mkShape (rotations (shapeOf Blocks.BLOCK_I)) 14 3 in
  let this' := mkShape (rotations this) 11 3 in
  (bag_valid (rotations this)
   ∧ Shape.rotate this boardWithOverhang = Ret (false, this'))
  ∧ rotations this' = rotations this ∧ rowOffset this' ≠ rowOffset this.
Proof.
  intros this this'.
  assert (bag_valid (rotations this)) as Hvalid
    by (split; vm_compute; [discriminate | done]).
  assert (Shape.rotate this boardWithOverhang = Ret (false, this')) as Hrun
    by reflexivity.
  split; [done |]. split; [| discriminate].
  exact (proj2 (proj2 (proj2
           (proj1 rotate_failure_keeps_clamped_offsets
              this this' boardWithOverhang Hvalid))) Hrun).
Defined.

Lemma resetPosition_run (this : Shape) (board cur : Bitmap) (o : bool) :
  Bag.current (rotations this) = Some cur →
  1 ≤ Bitmap.rows cur → 1 ≤ Bitmap.rows board →
  Bitmap.isOverlapping cur 0 ((width board - width cur) / 2) board = Ret o →
  Shape.resetPosition this board
  = Ret (negb o, mkShape (rotations this) 0 ((width board - width cur) / 2)).
Proof.
  intros Hcur Hrows Hboard Ho.
  unfold Shape.resetPosition. rewrite (cols_defined board) by done. osimpl.
  unfold Shape.currentBitmap. cbn [rotations Shape.setRowOffset].
  rewrite Hcur. osimpl. rewrite (cols_defined cur) by done. osimpl.
  unfold Shape.isOverlapping, Shape.currentBitmap.
  cbn [rotations rowOffset colOffset Shape.setRowOffset Shape.setColOffset].
  rewrite Hcur. osimpl. rewrite Ho. done.
Qed.

Lemma centred_col (wb wc : Z) :
  wc ≤ wb → 0 ≤ (wb - wc) / 2 ∧ (wb - wc) / 2 + wc ≤ wb.
Proof.
  intros Hle. split; [apply Z.div_pos; lia |].
  pose proof (Z.mul_div_le (wb - wc) 2). lia.
Qed.

(** C7, as amended. [resetPosition(board)] puts the shape in row 0,
    centred: [colOffset = floor((board.cols - currentCols) / 2)]. For a
    shape no wider than the board it returns false exactly when a cell of
    the shape at that position and the cell of the board under it are both
    taken. On the empty 15 by 10 board it returns true for each of the
    seven standard shapes, in whichever rotation the shape was left. *)
Theorem resetPosition_centres_and_reports_overlap :
  (∀ (this : Shape) (board cur : Bitmap),
     Bag.current (rotations this) = Some cur →
     1 ≤ Bitmap.rows cur → 1 ≤ Bitmap.rows board →
     width cur ≤ width board →
     let col := (width board - width cur) / 2 in
     (∃ ok : bool,
        Shape.resetPosition this board
        = Ret (ok, mkShape (rotations this) 0 col))
     ∧ 0 ≤ col ∧ col + width cur ≤ width board
     ∧ resetPosition_reports_overlap this board cur)
  ∧ (∀ s : Shape,
       standard s →
       ∃ s', Shape.resetPosition s (Bitmap.emptyWithSize ROWS COLS)
             = Ret (true, s')).
Proof.
  split.
  - intros this board cur Hcur Hrows Hboard Hwidth col.
    pose proof (centred_col (width board) (width cur) Hwidth) as Hcol.
    fold col in Hcol.
    destruct (isOverlapping_total cur board 0 col) as (o & Ho & Hiff);
      [done | done | lia |].
    pose proof (resetPosition_run this board cur o Hcur Hrows Hboard Ho) as Hrun.
    fold col in Hrun.
    split; [by exists (negb o) |]. split; [tauto |]. split; [tauto |].
    intros ok s' Hrun'. rewrite Hrun in Hrun'. injection Hrun' as <- <-.
    cbn [rowOffset colOffset].
    rewrite <- overlaps_inside_iff, <- Hiff by lia. by destruct o.
  - intros [[vs i] r c] (s0 & Hs0 & Hvs & Hi).
    cbn [rotations values index] in *. subst vs.
    assert (i = 0 ∨ i = 1 ∨ i = 2 ∨ i = 3) as Hcases by lia.
    unfold standardShapes, Blocks.BLOCKS in Hs0. rewrite !fmap_cons in Hs0.
    repeat (apply elem_of_cons in Hs0 as [-> | Hs0]);
      [.. | by apply elem_of_nil in Hs0];
      destruct Hcases as [-> | [-> | [-> | ->]]];
      eexists; vm_compute; reflexivity.
Qed.

Lemma resetPosition_centres_and_reports_overlap_witness :
  let this := mkShape (rotations (shapeOf Blocks.BLOCK_I)) 14 3 in
  let board := boardWithOverhang in
  ∃ cur,
    (Bag.current (rotations this) = Some cur
     ∧ 1 ≤ Bitmap.rows cur ∧ 1 ≤ Bitmap.rows board
     ∧ width cur ≤ width board)
    ∧ Shape.resetPosition this board = Ret (true, mkShape (rotations this) 0 3)
    ∧ ¬ overlaps_inside cur 0 3 board.
Proof.
  intros this board. exists Blocks.BLOCK_I.
  assert (Bag.current (rotations this) = Some Blocks.BLOCK_I) as Hcur
    by reflexivity.
  assert (1 ≤ Bitmap.rows Blocks.BLOCK_I) as Hrows by (vm_compute; discriminate).
  assert (1 ≤ Bitmap.rows board) as Hboard by (vm_compute; discriminate).
  assert (width Blocks.BLOCK_I ≤ width board) as Hwidth
    by (vm_compute; discriminate).
  split; [done |].
  destruct (proj1 resetPosition_centres_and_reports_overlap
              this board Blocks.BLOCK_I Hcur Hrows Hboard Hwidth)
    as ([ok Hrun] & _ & _ & Hreport).
  assert (ok = true) as ->.
  { destruct ok; [done |]. vm_compute in Hrun. discriminate Hrun. }
  split; [exact Hrun |].
  intros Hoverlap. apply (Hreport true _ Hrun) in Hoverlap. discriminate Hoverlap.
Defined.

(** C7, as worded, fails for a shape wider than the board. The I block,
    four cells wide, is centred on an empty board of two columns at column
    -1; the cell it hangs off the left edge with is compared with the
    [undefined] read there, and [resetPosition] returns false although
    nothing is on the board. *)
Lemma resetPosition_wide_shape_counterexample :
  let this := shapeOf Blocks.BLOCK_I in
  let board := Bitmap.emptyWithSize 15 2 in
  Bag.current (rotations this) = Some Blocks.BLOCK_I
  ∧ Shape.resetPosition this board = Ret (false, mkShape (rotations this) 0 (-1))
  ∧ (∀ r c, neE (cellAt board r c) = true → c < 0 ∨ 2 ≤ c ∨ r < 0 ∨ 15 ≤ r)
  ∧ ¬ resetPosition_reports_overlap this board Blocks.BLOCK_I.
Proof.
  intros this board.
  assert (Shape.resetPosition this board
          = Ret (false, mkShape (rotations this) 0 (-1))) as Hrun
    by (vm_compute; reflexivity).
  assert (∀ r c, neE (cellAt board r c) = true → c < 0 ∨ 2 ≤ c ∨ r < 0 ∨ 15 ≤ r)
    as Hempty.
  { intros r c Hne.
    destruct (decide (0 ≤ r < 15 ∧ 0 ≤ c < 2)) as [[Hr Hc] |]; [| lia].
    exfalso. unfold cellAt, board, Bitmap.emptyWithSize in Hne. cbn [data] in Hne.
    assert (array_get (replicate (Z.to_nat 15) (replicate (Z.to_nat 2) E)) r
            = Some (replicate (Z.to_nat 2) E)) as Hrow.
    { apply array_get_Some. split; [lia |]. apply lookup_replicate_2. lia. }
    rewrite Hrow in Hne. unfold cell in Hne.
    assert (array_get (replicate (Z.to_nat 2) E) c = Some E) as Hcell.
    { apply array_get_Some. split; [lia |]. apply lookup_replicate_2. lia. }
    rewrite Hcell in Hne. discriminate Hne. }
  split; [reflexivity |]. split; [exact Hrun |]. split; [exact Hempty |].
  intros Hreport. destruct (Hreport false _ Hrun) as [Hoverlap _].
  destruct (Hoverlap eq_refl) as (i & j & _ & _ & Hi & Hj & _ & Hne).
  cbn [rowOffset colOffset] in *. apply Hempty in Hne.
  change (Bitmap.rows board) with 15 in Hi. change (width board) with 2 in Hj.
  lia.
Qed.

(** ** Game *)

Section BagUpdate.
Context {T : Type}.
Implicit Types (b : Bag T) (v : T).

Lemma current_update b v : bag_valid b → Bag.current (Bag.update b v) = Some v.
Proof.
  intros Hb. unfold bag_valid, Bag.length in Hb.
  unfold Bag.current, Bag.update. cbn [values index].
  apply array_get_Some. split; [lia |].
  apply list_lookup_insert_eq. lia.
Qed.

Lemma update_current b v : Bag.current b = Some v → Bag.update b v = b.
Proof.
  intros Hv. apply array_get_Some in Hv as [_ Hv].
  destruct b as [vs i]. unfold Bag.update. cbn [values index] in *.
  by rewrite list_insert_id.
Qed.

Lemma update_update b v w :
  Bag.update (Bag.update b v) w = Bag.update b w.
Proof.
  unfold Bag.update. cbn [values index]. by rewrite list_insert_insert_eq.
Qed.

Lemma update_length b v : Bag.length (Bag.update b v) = Bag.length b.
Proof.
  unfold Bag.update, Bag.length. cbn [values index]. by rewrite length_insert.
Qed.

Lemma update_valid b v : bag_valid b → bag_valid (Bag.update b v).
Proof.
  unfold bag_valid, Bag.update, Bag.length. cbn [values index].
  by rewrite length_insert.
Qed.

Lemma update_Forall (P : T → Prop) b v :
  Forall P (values b) → P v → Forall P (values (Bag.update b v)).
Proof. intros Hall Hv. by apply Forall_insert. Qed.

Lemma current_Forall (P : T → Prop) b v :
  Forall P (values b) → Bag.current b = Some v → P v.
Proof.
  intros Hall Hv. apply array_get_Some in Hv as [_ Hv].
  by apply (Forall_lookup_1 _ _ _ _ Hall Hv).
Qed.

Lemma current_valid b v : Bag.current b = Some v → bag_valid b.
Proof.
  intros Hv. apply array_get_Some in Hv as [? Hv].
  apply lookup_lt_Some in Hv. unfold bag_valid, Bag.length. lia.
Qed.
End BagUpdate.

Lemma emptyWithSize_rect (R C : Z) :
  0 ≤ R → 0 ≤ C → rect R C (Bitmap.emptyWithSize R C).
Proof.
  intros HR HC. split.
  - unfold Bitmap.rows, Bitmap.emptyWithSize. cbn [data].
    rewrite length_replicate. lia.
  - cbn [data Bitmap.emptyWithSize]. apply Forall_replicate.
    rewrite length_replicate. lia.
Qed.

Lemma removeFilledRows_keeps_rect (R C : Z) (b : Bitmap) :
  rect R C b → 2 ≤ R → 0 ≤ C →
  ∃ n b', Bitmap.removeFilledRows b = Ret (n, b')
          ∧ n = filledCount (data b) ∧ 0 ≤ n ≤ R ∧ rect R C b'.
Proof.
  intros Hrect HR HC. rewrite (removeFilledRows_rect R C) by done.
  do 2 eexists. split; [done |]. split; [done |].
  destruct Hrect as [Hrows Hall]. unfold Bitmap.rows in Hrows.
  pose proof (List.filter_length rowFilled (data b)) as Hlen.
  unfold filledCount, unfilledRows. split; [lia |]. split.
  - unfold Bitmap.rows. cbn [data]. rewrite length_app, length_replicate. lia.
  - cbn [data]. apply Forall_app. split.
    + apply Forall_replicate. unfold emptyRow. rewrite length_replicate. lia.
    + apply Forall_forall. intros r Hr.
      apply list_elem_of_In, List.filter_In in Hr as [Hr _].
      apply list_elem_of_In in Hr.
      by apply (proj1 (Forall_forall _ _) Hall).
Qed.

Section GameFacts.
Context (R C N : Z).
Implicit Types (g : Game) (s : Shape) (k : Z).

Lemma shape_fits_board_same_rotations s s' :
  rotations s' = rotations s → shape_fits_board R C s → shape_fits_board R C s'.
Proof. unfold shape_fits_board, shape_ok. by intros ->. Qed.

Lemma fits_board_current s cur :
  shape_fits_board R C s → Bag.current (rotations s) = Some cur →
  1 ≤ Bitmap.rows cur ≤ R ∧ 1 ≤ width cur ≤ C.
Proof.
  intros [[_ Hrows] Hdims] Hcur.
  pose proof (current_Forall _ _ _ Hrows Hcur).
  pose proof (current_Forall _ _ _ Hdims Hcur). cbv beta in *. lia.
Qed.

Lemma width_rect b : rect R C b → 1 ≤ R → width b = C.
Proof. intros Hb HR. apply width_cols. by apply (rect_cols R C). Qed.

(** Storing the moved current shape back keeps the game in order. *)
Lemma withShape_fits_ok g s' cur :
  game_base R C N g →
  shape_fits_board R C s' →
  Bag.current (rotations s') = Some cur →
  within s' cur (board g) →
  game_ok R C N (Game.withShape g s').
Proof.
  intros (Hboard & HR & HC & Hvalid & Hall & Hlen) Hfits Hcur Hwithin.
  split.
  - unfold game_base. cbn [board shapes Game.withShape Game.setShapes].
    split_and!; try done.
    + by apply update_valid.
    + by apply update_Forall.
    + by rewrite update_length.
  - exists s', cur. split; [by apply current_update | done].
Qed.

Lemma withShape_ok g s s' cur :
  game_base R C N g →
  Bag.current (shapes g) = Some s →
  rotations s' = rotations s →
  Bag.current (rotations s) = Some cur →
  within s' cur (board g) →
  game_ok R C N (Game.withShape g s').
Proof.
  intros Hbase Hs Hrot Hcur Hwithin.
  apply (withShape_fits_ok g s' cur); [done | | by rewrite Hrot | done].
  apply (shape_fits_board_same_rotations s); [done |].
  destruct Hbase as (_ & _ & _ & _ & Hall & _).
  by apply (current_Forall _ _ _ Hall Hs).
Qed.

Lemma nextShape_ok g k :
  game_base R C N g → 0 ≤ k < N →
  ∃ g', Game.nextShape k g = Ret g'
        ∧ game_ok R C N g'
        ∧ board g' = board g ∧ lines g' = lines g ∧ score g' = score g.
Proof.
  intros (Hboard & HR & HC & Hvalid & Hall & Hlen) Hk.
  unfold Game.nextShape, Game.currentShape.
  cbn [shapes Game.setShapes board].
  destruct (array_get_in_range (values (shapes g)) k) as [s Hs];
    [unfold Bag.length in Hlen; lia |].
  assert (Bag.current (Bag.random k (shapes g)) = Some s) as Hcurrent by done.
  rewrite Hcurrent. osimpl.
  pose proof (Forall_lookup_1 _ _ _ _ Hall (proj2 (proj1 (array_get_Some _ _ _) Hs)))
    as Hfits.
  destruct (shape_ok_current s (proj1 Hfits)) as (cur & Hcur & _).
  unfold Shape.currentBitmap in Hcur.
  destruct (Bag.current (rotations s)) as [cur' |] eqn:Hcur'; [| done].
  injection Hcur as ->.
  destruct (fits_board_current s cur Hfits Hcur') as [Hrows Hwidth].
  pose proof (width_rect _ Hboard ltac:(lia)) as Hwb.
  destruct (isOverlapping_total cur (board g) 0 ((width (board g) - width cur) / 2))
    as (o & Ho & _); [lia | destruct Hboard as [-> _]; lia | lia |].
  rewrite (resetPosition_run s (board g) cur o); try done;
    [| lia | destruct Hboard as [-> _]; lia].
  osimpl.
  set (s' := mkShape (rotations s) 0 ((width (board g) - width cur) / 2)).
  set (g0 := Game.setShapes g (Bag.random k (shapes g))).
  assert (game_ok R C N (Game.withShape g0 s')) as Hok.
  { apply (withShape_ok g0 s s' cur); [| exact Hcurrent | done | done |].
    - unfold game_base, g0. cbn [board shapes Game.setShapes].
      split_and!; try done.
      unfold bag_valid, Bag.random, Bag.length in *. cbn [values index]. lia.
    - pose proof (centred_col (width (board g)) (width cur) ltac:(lia)).
      unfold within, s'. cbn [rowOffset colOffset g0 board Game.setShapes].
      destruct Hboard as [-> _]. lia. }
  destruct (negb o).
  - eexists. split; [done |]. split; [done |]. done.
  - eexists. split; [done |]. split; [| done].
    destruct Hok as [Hbase Hpiece]. split; done.
Qed.

End GameFacts.

Section GameMoves.
Context (R C N : Z).
Implicit Types (g : Game) (s : Shape) (k : Z).

Lemma landed_ok g k :
  game_ok R C N g → 0 ≤ k < N →
  ∃ s b n b' g',
    Game.currentShape g = Ret s
    ∧ Shape.copyTo s (board g) = Ret b
    ∧ Bitmap.removeFilledRows b = Ret (n, b')
    ∧ 0 ≤ n
    ∧ Game.landed k g = Ret g'
    ∧ game_ok R C N g'
    ∧ board g' = b'
    ∧ lines g' = lines g + n
    ∧ score g' = (if decide (n < 4) then score g + (lines g + n) * 10
                  else score g + 1000).
Proof.
  intros [(Hboard & HR & HC & Hvalid & Hall & Hlen) (s & cur & Hs & Hcur & Hwithin)] Hk.
  pose proof (fits_board_current R C s cur (current_Forall _ _ _ Hall Hs) Hcur)
    as [Hrows Hwidth].
  destruct (copyFrom_rect R C (board g) cur (rowOffset s) (colOffset s))
    as (b & Hb & Hbrect); [done | lia | lia | unfold within in Hwithin; lia |].
  destruct (removeFilledRows_keeps_rect R C b) as (n & b' & Hrm & _ & Hn & Hb');
    [done | lia | lia |].
  destruct (nextShape_ok R C N
              (mkGame b' (shapes g) (state g) (lines g + n)
                 (if decide (n < 4) then score g + (lines g + n) * 10
                  else score g + 1000)) k)
    as (g' & Hnext & Hok & Hboard' & Hlines & Hscore).
  { unfold game_base. cbn [board shapes]. split_and!; done. }
  { done. }
  exists s, b, n, b', g'.
  assert (Shape.copyTo s (board g) = Ret b) as Hcopy.
  { unfold Shape.copyTo, Shape.currentBitmap. rewrite Hcur. done. }
  unfold Game.landed, Game.currentShape. rewrite Hs. osimpl.
  rewrite Hcopy. osimpl. rewrite Hrm. osimpl.
  split_and!; try done. lia.
Qed.

Lemma moveDown_ok g k :
  game_ok R C N g → 0 ≤ k < N →
  ∃ (moved : bool) g',
    Game.moveDown k g = Ret (moved, g')
    ∧ game_ok R C N g'
    ∧ (moved = true →
       g' = lowered g 1
       ∧ ∀ s cur, Bag.current (shapes g) = Some s →
                  Bag.current (rotations s) = Some cur →
                  rowOffset s + 1 + Bitmap.rows cur ≤ R)
    ∧ (moved = false → Game.landed k g = Ret g').
Proof.
  intros Hok Hk. pose proof Hok as [Hbase (s & cur & Hs & Hcur & Hwithin)].
  pose proof Hbase as (Hboard & HR & HC & Hvalid & Hall & Hlen).
  pose proof (fits_board_current R C s cur (current_Forall _ _ _ Hall Hs) Hcur)
    as [Hrows Hwidth].
  assert (Shape.currentBitmap s = Ret cur) as Hcur'.
  { unfold Shape.currentBitmap. by rewrite Hcur. }
  destruct (down_spec s (board g) cur) as (moved & Hdown & Hmoved);
    [done | lia | destruct Hboard as [-> _]; lia
    | unfold within in Hwithin; lia |].
  unfold Game.moveDown, Game.currentShape. rewrite Hs. osimpl.
  rewrite Hdown. osimpl. destruct moved.
  - exists true, (lowered g 1). unfold lowered. rewrite Hs.
    split; [done |]. split.
    + apply (withShape_ok R C N g s _ cur); try done.
      unfold within in *. cbn [rowOffset colOffset Shape.setRowOffset].
      specialize (Hmoved eq_refl). lia.
    + split; [| done]. intros _. split; [done |].
      intros s1 cur1 Hs1 Hcur1.
      assert (s1 = s) as -> by congruence.
      assert (cur1 = cur) as -> by congruence.
      specialize (Hmoved eq_refl). destruct Hboard as [<- _]. lia.
  - unfold Game.withShape. rewrite (update_current _ _ Hs).
    assert (Game.setShapes g (shapes g) = g) as -> by by destruct g.
    destruct (landed_ok g k Hok Hk)
      as (s1 & b1 & n1 & b1' & g' & _ & _ & _ & _ & Hland & Hok' & _).
    exists false, g'. rewrite Hland. osimpl.
    split; [done |]. split; [done |]. split; done.
Qed.

Lemma shape_current_ok g s cur :
  game_base R C N g →
  Bag.current (shapes g) = Some s → Bag.current (rotations s) = Some cur →
  shape_ok s ∧ Shape.currentBitmap s = Ret cur
  ∧ 1 ≤ Bitmap.rows cur ≤ R ∧ 1 ≤ width cur ≤ C
  ∧ Bitmap.rows (board g) = R ∧ width (board g) = C.
Proof.
  intros (Hboard & HR & HC & Hvalid & Hall & Hlen) Hs Hcur.
  pose proof (current_Forall _ _ _ Hall Hs) as Hfits.
  pose proof (fits_board_current R C s cur Hfits Hcur) as [Hrows Hwidth].
  split_and!; try done; try lia.
  - by destruct Hfits.
  - unfold Shape.currentBitmap. by rewrite Hcur.
  - by destruct Hboard.
  - apply (width_rect R C); [done | lia].
Qed.

Lemma left_ok g :
  game_ok R C N g → ∃ g', Game.left g = Ret g' ∧ game_ok R C N g'.
Proof.
  intros [Hbase (s & cur & Hs & Hcur & Hwithin)].
  destruct (shape_current_ok g s cur Hbase Hs Hcur)
    as (Hsok & Hcur' & Hrows & Hwidth & HbR & HbC).
  destruct (changeColOffset_spec s (board g) cur (colOffset s - 1))
    as (moved & Hmove & Hmoved);
    [done | lia | lia | unfold within in Hwithin; lia |].
  unfold Game.left, Game.currentShape, Shape.left. rewrite Hs. osimpl.
  rewrite Hmove. osimpl. eexists. split; [done |].
  apply (withShape_ok R C N g s _ cur); try done; [by destruct moved |].
  destruct moved; [| done]. specialize (Hmoved eq_refl).
  unfold within in *. cbn [rowOffset colOffset Shape.setColOffset]. lia.
Qed.

Lemma right_ok g :
  game_ok R C N g → ∃ g', Game.right g = Ret g' ∧ game_ok R C N g'.
Proof.
  intros [Hbase (s & cur & Hs & Hcur & Hwithin)].
  destruct (shape_current_ok g s cur Hbase Hs Hcur)
    as (Hsok & Hcur' & Hrows & Hwidth & HbR & HbC).
  destruct (changeColOffset_spec s (board g) cur (colOffset s + 1))
    as (moved & Hmove & Hmoved);
    [done | lia | lia | unfold within in Hwithin; lia |].
  unfold Game.right, Game.currentShape, Shape.right. rewrite Hs. osimpl.
  rewrite Hmove. osimpl. eexists. split; [done |].
  apply (withShape_ok R C N g s _ cur); try done; [by destruct moved |].
  destruct moved; [| done]. specialize (Hmoved eq_refl).
  unfold within in *. cbn [rowOffset colOffset Shape.setColOffset]. lia.
Qed.

End GameMoves.

Section GameRotate.
Context (R C N : Z).
Implicit Types (g : Game) (s : Shape) (k : Z).

Lemma rotate_ok g :
  game_ok R C N g → ∃ g', Game.rotate g = Ret g' ∧ game_ok R C N g'.
Proof.
  intros [Hbase (s & cur & Hs & Hcur & Hwithin)].
  destruct (shape_current_ok R C N g s cur Hbase Hs Hcur)
    as (Hsok & _ & Hrows & Hwidth & HbR & HbC).
  pose proof Hbase as (_ & HR & HC & _ & Hall & _).
  pose proof (current_Forall _ _ _ Hall Hs) as Hfits.
  set (next := Shape.setRotations s (Bag.next (rotations s))).
  assert (shape_fits_board R C next) as Hfits'.
  { destruct Hfits as [Hok Hdims]. split; [by apply shape_ok_next | done]. }
  destruct (shape_ok_current next (proj1 Hfits')) as (cur' & Hcur' & _).
  unfold Shape.currentBitmap in Hcur'. cbn [next rotations Shape.setRotations] in Hcur'.
  destruct (Bag.current (Bag.next (rotations s))) as [cur1 |] eqn:Hnext; [| done].
  injection Hcur' as ->.
  destruct (fits_board_current R C next cur' Hfits' Hnext) as [Hrows' Hwidth'].
  unfold within in Hwithin.
  set (col := Z.min (Z.max (colOffset s) 0) (width (board g) - width cur')).
  set (row := Z.min (rowOffset s) (Bitmap.rows (board g) - Bitmap.rows cur')).
  destruct (isOverlapping_total cur' (board g) row col) as (o & Ho & _);
    [lia | lia | unfold row; lia |].
  unfold Game.rotate, Game.currentShape. rewrite Hs. osimpl.
  rewrite (rotate_run s (board g) cur' o); try done; [| by destruct Hsok | lia | lia].
  osimpl. fold col row. eexists. split; [done |].
  destruct o.
  - apply (withShape_ok R C N g s _ cur); try done.
    unfold within, row, col. cbn [rowOffset colOffset]. lia.
  - apply (withShape_fits_ok R C N g _ cur'); try done.
    unfold within, row, col. cbn [rowOffset colOffset]. lia.
Qed.

Lemma lowered_0 g s : Bag.current (shapes g) = Some s → lowered g 0 = g.
Proof.
  intros Hs. unfold lowered. rewrite Hs.
  assert (Shape.setRowOffset s (rowOffset s + 0) = s) as ->.
  { destruct s. unfold Shape.setRowOffset. cbn [rowOffset rotations colOffset].
    by rewrite Z.add_0_r. }
  unfold Game.withShape. rewrite (update_current _ _ Hs). by destruct g.
Qed.

Lemma lowered_lowered g s (a b : Z) :
  Bag.current (shapes g) = Some s →
  lowered (lowered g a) b = lowered g (a + b).
Proof.
  intros Hs. pose proof (current_valid _ _ Hs) as Hvalid.
  unfold lowered at 2. rewrite Hs. unfold lowered.
  cbn [shapes Game.withShape Game.setShapes]. rewrite current_update by done.
  rewrite Hs. unfold Game.withShape, Game.setShapes.
  cbn [shapes board state lines score]. rewrite update_update.
  unfold Shape.setRowOffset. cbn [rowOffset rotations colOffset].
  by rewrite Z.add_assoc.
Qed.

Lemma lowered_current g s (d : Z) :
  Bag.current (shapes g) = Some s →
  Bag.current (shapes (lowered g d))
  = Some (Shape.setRowOffset s (rowOffset s + d)).
Proof.
  intros Hs. unfold lowered. rewrite Hs.
  cbn [shapes Game.withShape Game.setShapes].
  apply current_update. by apply (current_valid _ s).
Qed.

Lemma throwDown_fuel_mono k :
  ∀ (n : nat) g r,
    Game.throwDown n k g = Some r →
    ∀ fuel, (n ≤ fuel)%nat → Game.throwDown fuel k g = Some r.
Proof.
  induction n as [|n IH]; intros g r Hrun fuel Hfuel; [done |].
  destruct fuel as [|fuel]; [lia |]. cbn [Game.throwDown] in *.
  destruct (Game.moveDown k g) as [[[|] g1] |]; [| done | done].
  apply (IH g1); [done | lia].
Qed.

(** With room for [d] more rows under the shape, the loop of [throwDown]
    ends within [d + 1] calls of [moveDown]: all but the last move the
    shape down by one row and nothing else, the last one fails and
    lands. *)
Lemma throwDown_lands k :
  0 ≤ k < N →
  ∀ (d : nat) g s cur,
    game_ok R C N g →
    Bag.current (shapes g) = Some s →
    Bag.current (rotations s) = Some cur →
    R - rowOffset s - Bitmap.rows cur ≤ Z.of_nat d →
    ∃ (n : nat) g',
      (1 ≤ n ≤ d + 1)%nat
      ∧ Game.throwDown n k g = Some (Ret g')
      ∧ (∀ m, (m < n)%nat → Game.throwDown m k g = None)
      ∧ (∀ j, 0 ≤ j < Z.of_nat n - 1 →
              Game.moveDown k (lowered g j) = Ret (true, lowered g (j + 1)))
      ∧ Game.moveDown k (lowered g (Z.of_nat n - 1)) = Ret (false, g')
      ∧ Game.landed k (lowered g (Z.of_nat n - 1)) = Ret g'
      ∧ game_ok R C N g'.
Proof.
  intros Hk. induction d as [|d IH]; intros g s cur Hok Hs Hcur Hroom;
    destruct (moveDown_ok R C N g k Hok Hk)
      as (moved & g1 & Hmove & Hok1 & Htrue & Hfalse);
    destruct moved.
  - destruct (Htrue eq_refl) as [_ Hfit]. specialize (Hfit s cur Hs Hcur). lia.
  - exists 1%nat, g1. cbn [Game.throwDown]. rewrite Hmove.
    change (Z.of_nat 1 - 1) with 0. rewrite (lowered_0 g s Hs).
    split_and!; try done; try lia; try (by apply Hfalse).
    intros m Hm. by replace m with 0%nat by lia.
  - destruct (Htrue eq_refl) as [-> Hfit]. specialize (Hfit s cur Hs Hcur).
    destruct (IH (lowered g 1) (Shape.setRowOffset s (rowOffset s + 1)) cur)
      as (n & g' & Hn & Hrun & Hnone & Hmoves & Hlast & Hland & Hok');
      [done | by apply lowered_current | done
      | cbn [rowOffset Shape.setRowOffset]; lia |].
    exists (S n), g'. cbn [Game.throwDown]. rewrite Hmove.
    replace (Z.of_nat (S n) - 1) with (1 + (Z.of_nat n - 1)) by lia.
    rewrite <- (lowered_lowered g s 1 (Z.of_nat n - 1) Hs).
    split_and!; try done; try lia.
    + intros [|m] Hm; [done |]. cbn [Game.throwDown]. rewrite Hmove.
      apply Hnone. lia.
    + intros j Hj. destruct (decide (j = 0)) as [-> | Hne].
      * by rewrite (lowered_0 g s Hs).
      * replace j with (1 + (j - 1)) at 1 by lia.
        replace (j + 1) with (1 + (j - 1 + 1)) by lia.
        rewrite <- !(lowered_lowered g s 1 _ Hs). apply Hmoves. lia.
  - exists 1%nat, g1. cbn [Game.throwDown]. rewrite Hmove.
    change (Z.of_nat 1 - 1) with 0. rewrite (lowered_0 g s Hs).
    split_and!; try done; try lia; try (by apply Hfalse).
    intros m Hm. by replace m with 0%nat by lia.
Qed.

End GameRotate.

Lemma standardShapes_fit : Forall (shape_fits_board ROWS COLS) standardShapes.
Proof.
  unfold standardShapes, Blocks.BLOCKS. rewrite !fmap_cons, fmap_nil.
  repeat apply Forall_cons_2; [.. | apply Forall_nil_2];
    (split; [split; [split; vm_compute; [discriminate | done] |] |]);
    repeat apply Forall_cons_2; try apply Forall_nil_2;
    vm_compute; repeat split; discriminate.
Qed.

Lemma gameWith_ok (b : Bitmap) (k : Z) :
  rect ROWS COLS b → 0 ≤ k < 7 →
  Game.nextShape k (mkGame b (Bag.new standardShapes) PLAYING 0 0)
  = Ret (gameWith b k)
  ∧ game_ok ROWS COLS 7 (gameWith b k).
Proof.
  intros Hb Hk.
  destruct (nextShape_ok ROWS COLS 7
              (mkGame b (Bag.new standardShapes) PLAYING 0 0) k)
    as (g' & Hrun & Hok & _); [| done |].
  - unfold game_base. cbn [board shapes].
    split_and!;
      [done | unfold ROWS; lia | unfold COLS; lia
      | split; vm_compute; [discriminate | done]
      | apply standardShapes_fit | reflexivity].
  - unfold gameWith. rewrite Hrun. done.
Qed.

(** C8. From a position of the shape inside the board, the loop of
    [throwDown] ends after [n] calls of [moveDown] with [n] at most the
    number of rows of the board: less fuel than [n] does not reach the end
    of the loop and any more gives the same game. The first [n - 1] calls
    return true and only move the shape down by one row; the last call
    returns false, and the game that [throwDown] leaves is the one landing
    gives from the position reached. *)
Theorem throwDown_terminates_and_lands_once (R C N : Z) (g : Game) (k : Z) :
  game_ok R C N g → 0 ≤ k < N →
  ∃ (n : nat) (g' : Game),
    (1 ≤ n)%nat ∧ Z.of_nat n ≤ Bitmap.rows (board g)
    ∧ Game.throwDown n k g = Some (Ret g')
    ∧ (∀ m, (m < n)%nat → Game.throwDown m k g = None)
    ∧ (∀ fuel, (n ≤ fuel)%nat → Game.throwDown fuel k g = Some (Ret g'))
    ∧ (∀ j, 0 ≤ j < Z.of_nat n - 1 →
            Game.moveDown k (lowered g j) = Ret (true, lowered g (j + 1)))
    ∧ Game.moveDown k (lowered g (Z.of_nat n - 1)) = Ret (false, g')
    ∧ Game.landed k (lowered g (Z.of_nat n - 1)) = Ret g'.
Proof.
  intros Hok Hk. pose proof Hok as [Hbase (s & cur & Hs & Hcur & Hwithin)].
  destruct (shape_current_ok R C N g s cur Hbase Hs Hcur)
    as (_ & _ & Hrows & _ & HbR & _).
  unfold within in Hwithin.
  destruct (throwDown_lands R C N k Hk
              (Z.to_nat (R - rowOffset s - Bitmap.rows cur)) g s cur)
    as (n & g' & Hn & Hrun & Hnone & Hmoves & Hlast & Hland & _);
    [done | done | done | lia |].
  exists n, g'. split_and!; try done; try lia.
  intros fuel Hfuel. by apply (throwDown_fuel_mono k n).
Qed.

Lemma scenarioBoard_rect : rect ROWS COLS scenarioBoard.
Proof. split; [reflexivity |]. repeat constructor. Qed.

Lemma throwDown_terminates_and_lands_once_witness :
  let g := gameWith scenarioBoard 0 in
  (game_ok ROWS COLS 7 g ∧ 0 ≤ 0 < 7)
  ∧ ∃ (n : nat) (g' : Game),
      Z.of_nat n ≤ Bitmap.rows (board g)
      ∧ Game.throwDown n 0 g = Some (Ret g')
      ∧ Game.landed 0 (lowered g (Z.of_nat n - 1)) = Ret g'.
Proof.
  intros g.
  assert (game_ok ROWS COLS 7 g) as Hok
    by (apply gameWith_ok; [exact scenarioBoard_rect | lia]).
  assert (0 ≤ 0 < 7) as Hk by lia.
  split; [done |].
  destruct (throwDown_terminates_and_lands_once ROWS COLS 7 g 0 Hok Hk)
    as (n & g' & _ & Hn & Hrun & _ & _ & _ & _ & Hland).
  exists n, g'. done.
Defined.

(** *** Landing *)

Lemma nextShape_inv (k : Z) (g g' : Game) :
  Game.nextShape k g = Ret g' →
  board g' = board g ∧ lines g' = lines g ∧ score g' = score g.
Proof.
  unfold Game.nextShape. intros Hrun.
  apply bind_Ret_inv in Hrun as (s & _ & Hrun).
  apply bind_Ret_inv in Hrun as ([ok s'] & _ & Hrun).
  destruct ok; injection Hrun as <-; done.
Qed.

Lemma landed_inv (k : Z) (g g' : Game) :
  Game.landed k g = Ret g' →
  ∃ s b n b',
    Game.currentShape g = Ret s
    ∧ Shape.copyTo s (board g) = Ret b
    ∧ Bitmap.removeFilledRows b = Ret (n, b')
    ∧ board g' = b'
    ∧ lines g' = lines g + n
    ∧ score g' = score g + (if decide (n < 4) then lines g' * 10 else 1000).
Proof.
  unfold Game.landed. intros Hrun.
  apply bind_Ret_inv in Hrun as (s & Hs & Hrun).
  apply bind_Ret_inv in Hrun as (b & Hb & Hrun).
  apply bind_Ret_inv in Hrun as ([n b'] & Hrm & Hrun).
  apply nextShape_inv in Hrun as (Hboard & Hlines & Hscore).
  cbn [board lines score] in *.
  exists s, b, n, b'. split_and!; try done.
  rewrite Hscore, Hlines. by case_decide.
Qed.

Lemma moveDown_false_inv (k : Z) (g g' : Game) :
  Game.moveDown k g = Ret (false, g') →
  ∃ s s',
    Game.currentShape g = Ret s
    ∧ Shape.down s (board g) = Ret (false, s')
    ∧ Game.landed k (Game.withShape g s') = Ret g'.
Proof.
  unfold Game.moveDown. intros Hrun.
  apply bind_Ret_inv in Hrun as (s & Hs & Hrun).
  apply bind_Ret_inv in Hrun as ([moved s'] & Hdown & Hrun).
  destruct moved; [done |].
  apply bind_Ret_inv in Hrun as (g1 & Hland & Hrun).
  injection Hrun as ->. by exists s, s'.
Qed.

Lemma currentShape_withShape (g : Game) (s s' : Shape) :
  Game.currentShape g = Ret s →
  Game.currentShape (Game.withShape g s') = Ret s'.
Proof.
  unfold Game.currentShape. intros Hs.
  destruct (Bag.current (shapes g)) as [s0 |] eqn:Hcur; [| done].
  cbn [shapes Game.withShape Game.setShapes].
  rewrite current_update; [done | by apply (current_valid _ s0)].
Qed.

(** C1. A call of [moveDown] that returns false has found the shape unable
    to move down, has copied it to the board, removed the filled rows and
    counted them as [n], raised [lines] by [n] and then raised the score
    by ten times the new value of [lines] when [n] is below 4 (also when
    [n] is 0) and by 1000 otherwise. In a game in order [moveDown] always
    returns. Three landings that clear one line each, from [lines] at 0
    and with lines and score left alone between them, score 10, 20 and 30,
    60 in all. *)
Theorem landing_commits_clears_and_scores :
  (∀ (k : Z) (g g' : Game),
     Game.moveDown k g = Ret (false, g') →
     ∃ s s' b n b',
       Game.currentShape g = Ret s
       ∧ Shape.down s (board g) = Ret (false, s')
       ∧ Shape.copyTo s' (board g) = Ret b
       ∧ Bitmap.removeFilledRows b = Ret (n, b')
       ∧ board g' = b'
       ∧ lines g' = lines g + n
       ∧ score g' = score g + (if decide (n < 4) then lines g' * 10 else 1000))
  ∧ (∀ (R C N k : Z) (g : Game),
       game_ok R C N g → 0 ≤ k < N →
       ∃ (moved : bool) g', Game.moveDown k g = Ret (moved, g'))
  ∧ (∀ (k1 k2 k3 : Z) (ga ga' gb gb' gc gc' : Game),
       lines ga = 0 →
       Game.moveDown k1 ga = Ret (false, ga') → lines ga' = lines ga + 1 →
       lines gb = lines ga' → score gb = score ga' →
       Game.moveDown k2 gb = Ret (false, gb') → lines gb' = lines gb + 1 →
       lines gc = lines gb' → score gc = score gb' →
       Game.moveDown k3 gc = Ret (false, gc') → lines gc' = lines gc + 1 →
       score ga' = score ga + 10
       ∧ score gb' = score gb + 20
       ∧ score gc' = score gc + 30
       ∧ score gc' = score ga + 60).
Proof.
  assert (∀ (k : Z) (g g' : Game),
     Game.moveDown k g = Ret (false, g') →
     ∃ s s' b n b',
       Game.currentShape g = Ret s
       ∧ Shape.down s (board g) = Ret (false, s')
       ∧ Shape.copyTo s' (board g) = Ret b
       ∧ Bitmap.removeFilledRows b = Ret (n, b')
       ∧ board g' = b'
       ∧ lines g' = lines g + n
       ∧ score g' = score g + (if decide (n < 4) then lines g' * 10 else 1000))
    as Hrule.
  { intros k g g' Hrun.
    apply moveDown_false_inv in Hrun as (s & s' & Hs & Hdown & Hland).
    apply landed_inv in Hland as (s1 & b & n & b' & Hs1 & Hcopy & Hrm & Hres).
    rewrite (currentShape_withShape g s s' Hs) in Hs1. injection Hs1 as <-.
    exists s, s', b, n, b'. done. }
  split; [exact Hrule |]. split.
  - intros R C N k g Hok Hk.
    destruct (moveDown_ok R C N g k Hok Hk) as (moved & g' & Hrun & _).
    by exists moved, g'.
  - intros k1 k2 k3 ga ga' gb gb' gc gc' H0 Ha Hla Hlb Hsb Hb Hlb' Hlc Hsc Hc Hlc'.
    apply Hrule in Ha as (? & ? & ? & na & ? & _ & _ & _ & _ & _ & Hna & Hsa).
    apply Hrule in Hb as (? & ? & ? & nb & ? & _ & _ & _ & _ & _ & Hnb & Hsb').
    apply Hrule in Hc as (? & ? & ? & nc & ? & _ & _ & _ & _ & _ & Hnc & Hsc').
    assert (na = 1) as -> by lia. assert (nb = 1) as -> by lia.
    assert (nc = 1) as -> by lia.
    rewrite decide_True in Hsa, Hsb', Hsc' by lia. lia.
Qed.

Lemma landing_commits_clears_and_scores_witness :
  (lines scenarioA = 0
   ∧ Game.moveDown 0 scenarioA = Ret (false, scenarioA')
   ∧ lines scenarioA' = lines scenarioA + 1
   ∧ lines scenarioB = lines scenarioA' ∧ score scenarioB = score scenarioA'
   ∧ Game.moveDown 0 scenarioB = Ret (false, scenarioB')
   ∧ lines scenarioB' = lines scenarioB + 1
   ∧ lines scenarioC = lines scenarioB' ∧ score scenarioC = score scenarioB'
   ∧ Game.moveDown 0 scenarioC = Ret (false, scenarioC')
   ∧ lines scenarioC' = lines scenarioC + 1)
  ∧ (score scenarioA' = score scenarioA + 10
     ∧ score scenarioB' = score scenarioB + 20
     ∧ score scenarioC' = score scenarioC + 30
     ∧ score scenarioC' = score scenarioA + 60)
  ∧ score scenarioC' = 60
  ∧ Game.throwDown 15 0 (gameWith scenarioBoard 0) = Some (Ret scenarioA')
  ∧ Game.throwDown 15 0 scenarioA' = Some (Ret scenarioB')
  ∧ Game.throwDown 15 0 scenarioB' = Some (Ret scenarioC').
Proof.
  assert (lines scenarioA = 0) as H0 by (vm_compute; reflexivity).
  assert (Game.moveDown 0 scenarioA = Ret (false, scenarioA')) as Ha
    by (vm_compute; reflexivity).
  assert (lines scenarioA' = lines scenarioA + 1) as Hla
    by (vm_compute; reflexivity).
  assert (lines scenarioB = lines scenarioA') as Hlb by (vm_compute; reflexivity).
  assert (score scenarioB = score scenarioA') as Hsb by (vm_compute; reflexivity).
  assert (Game.moveDown 0 scenarioB = Ret (false, scenarioB')) as Hb
    by (vm_compute; reflexivity).
  assert (lines scenarioB' = lines scenarioB + 1) as Hlb'
    by (vm_compute; reflexivity).
  assert (lines scenarioC = lines scenarioB') as Hlc by (vm_compute; reflexivity).
  assert (score scenarioC = score scenarioB') as Hsc by (vm_compute; reflexivity).
  assert (Game.moveDown 0 scenarioC = Ret (false, scenarioC')) as Hc
    by (vm_compute; reflexivity).
  assert (lines scenarioC' = lines scenarioC + 1) as Hlc'
    by (vm_compute; reflexivity).
  split; [split_and!; done |].
  split; [| split_and!; vm_compute; reflexivity].
  exact (proj2 (proj2 landing_commits_clears_and_scores)
           0 0 0 scenarioA scenarioA' scenarioB scenarioB' scenarioC scenarioC'
           H0 Ha Hla Hlb Hsb Hb Hlb' Hlc Hsc Hc Hlc').
Defined.

(** *** The events of a game *)

Section GameEvents.
Context (R C N : Z).
Implicit Types (g : Game) (k : Z).

Lemma setState_ok g (st : State) :
  game_ok R C N g → game_ok R C N (Game.setState g st).
Proof. by intros [Hbase Hpiece]. Qed.

Lemma togglePaused_ok g : game_ok R C N g → game_ok R C N (Game.togglePaused g).
Proof.
  intros Hok. unfold Game.togglePaused.
  destruct (state g); [by apply setState_ok .. | done].
Qed.

Lemma down_ok g k :
  game_ok R C N g → 0 ≤ k < N →
  ∃ g', Game.down k g = Ret g' ∧ game_ok R C N g'.
Proof.
  intros Hok Hk.
  destruct (moveDown_ok R C N g k Hok Hk) as (moved & g' & Hrun & Hok' & _).
  exists g'. unfold Game.down. by rewrite Hrun.
Qed.

Lemma throwDown_ok k :
  0 ≤ k < N →
  ∀ (fuel : nat) g r,
    game_ok R C N g → Game.throwDown fuel k g = Some r →
    ∃ g', r = Ret g' ∧ game_ok R C N g'.
Proof.
  intros Hk. induction fuel as [|fuel IH]; intros g r Hok Hrun; [done |].
  cbn [Game.throwDown] in Hrun.
  destruct (moveDown_ok R C N g k Hok Hk) as (moved & g1 & Hmove & Hok1 & _).
  rewrite Hmove in Hrun. destruct moved.
  - by apply (IH g1).
  - injection Hrun as <-. by exists g1.
Qed.

Lemma throwDown_enough_fuel g k :
  game_ok R C N g → 0 ≤ k < N →
  ∃ g', Game.throwDown (Z.to_nat R) k g = Some (Ret g').
Proof.
  intros Hok Hk. pose proof Hok as [Hbase (s & cur & Hs & Hcur & Hwithin)].
  destruct (shape_current_ok R C N g s cur Hbase Hs Hcur)
    as (_ & _ & Hrows & _ & HbR & _).
  unfold within in Hwithin.
  destruct (throwDown_lands R C N k Hk
              (Z.to_nat (R - rowOffset s - Bitmap.rows cur)) g s cur)
    as (n & g' & Hn & Hrun & _); [done | done | done | lia |].
  exists g'. apply (throwDown_fuel_mono k n); [done | lia].
Qed.

End GameEvents.

Lemma clear_ok (g : Game) (k : Z) :
  game_ok ROWS COLS 7 g → 0 ≤ k < 7 →
  ∃ g', Game.clear k g = Ret g' ∧ game_ok ROWS COLS 7 g'.
Proof.
  intros [(_ & HR & HC & Hvalid & Hall & Hlen) _] Hk. unfold Game.clear.
  destruct (nextShape_ok ROWS COLS 7
              (mkGame (Bitmap.emptyWithSize ROWS COLS) (shapes g) PLAYING 0 0) k)
    as (g' & Hrun & Hok & _); [| done | by exists g'].
  unfold game_base. cbn [board shapes]. split_and!; try done.
  by apply emptyWithSize_rect.
Qed.

Lemma new_ok (k : Z) :
  0 ≤ k < 7 → ∃ g, Game.new k = Ret g ∧ game_ok ROWS COLS 7 g.
Proof.
  intros Hk. unfold Game.new. rewrite asShapes_BLOCKS. osimpl.
  destruct (gameWith_ok (Bitmap.emptyWithSize ROWS COLS) k) as [Hrun Hok];
    [by apply emptyWithSize_rect | done |].
  by exists (gameWith (Bitmap.emptyWithSize ROWS COLS) k).
Qed.

Lemma onPlayKey_ok (fuel : nat) (k : Z) (key : string) (g : Game) r :
  game_ok ROWS COLS 7 g → 0 ≤ k < 7 →
  Game.onPlayKey fuel k key g = Some r →
  ∃ g', r = Ret g' ∧ game_ok ROWS COLS 7 g'.
Proof.
  intros Hok Hk. unfold Game.onPlayKey.
  repeat (case_match; [intros [= <-] |]).
  - by apply left_ok.
  - by apply right_ok.
  - by apply rotate_ok.
  - by apply down_ok.
  - case_match; [by apply throwDown_ok |]. intros [= <-]. by exists g.
Qed.

Lemma onKeyEvent_ok (fuel : nat) (k : Z) (key : string) (g : Game) r :
  game_ok ROWS COLS 7 g → 0 ≤ k < 7 →
  Game.onKeyEvent fuel k key g = Some r →
  ∃ g', r = Ret g' ∧ game_ok ROWS COLS 7 g'.
Proof.
  intros Hok Hk. unfold Game.onKeyEvent, Game.onControlKey.
  destruct (String.eqb key "enter").
  { cbn [negb andb]. intros [= <-]. eexists. split; [done |].
    by apply togglePaused_ok. }
  destruct (String.eqb key "r").
  { destruct (clear_ok g k Hok Hk) as (g' & -> & Hok'). osimpl.
    cbn [negb andb]. intros [= <-]. by exists g'. }
  cbn [negb andb]. destruct (isPlaying (state g)).
  - by apply onPlayKey_ok.
  - intros [= <-]. by exists g.
Qed.

Lemma update_ok (due : bool) (k : Z) (g : Game) :
  game_ok ROWS COLS 7 g → 0 ≤ k < 7 →
  ∃ g', Game.update due k g = Ret g' ∧ game_ok ROWS COLS 7 g'.
Proof.
  intros Hok Hk. unfold Game.update.
  destruct (isPlaying (state g) && due); [by apply down_ok | by exists g].
Qed.

(** Every event of a game in order returns; 15 units of fuel are enough
    for the loop of [throwDown]. *)
Lemma onKeyEvent_returns (k : Z) (key : string) (g : Game) :
  game_ok ROWS COLS 7 g → 0 ≤ k < 7 →
  ∃ g', Game.onKeyEvent 15 k key g = Some (Ret g').
Proof.
  intros Hok Hk.
  destruct (Game.onKeyEvent 15 k key g) as [r |] eqn:Hrun.
  - destruct (onKeyEvent_ok 15 k key g r Hok Hk Hrun) as (g' & -> & _).
    by exists g'.
  - exfalso. revert Hrun. unfold Game.onKeyEvent, Game.onControlKey.
    destruct (String.eqb key "enter"); [done |].
    destruct (String.eqb key "r").
    { by destruct (clear_ok g k Hok Hk) as (g' & -> & _). }
    cbn [negb andb]. destruct (isPlaying (state g)); [| done].
    unfold Game.onPlayKey. repeat (case_match; [done |]).
    case_match; [| done].
    destruct (throwDown_enough_fuel ROWS COLS 7 g k Hok Hk) as (g' & Hrun).
    change (Z.to_nat ROWS) with 15%nat in Hrun. by rewrite Hrun.
Qed.

(** C10. In every state that a game of the seven standard shapes on the 15
    by 10 board reaches, the current rotation of the current shape lies
    inside the board: its column offset and row offset are not negative
    and its last column and last row are on the board. Drawing a shape
    (which resets its position) establishes this from any game in order,
    and a move to the left, to the right or down and a rotation keep it. *)
Theorem piece_stays_within_board :
  (∀ g, reachable g →
     ∃ s cur,
       Bag.current (shapes g) = Some s
       ∧ Bag.current (rotations s) = Some cur
       ∧ Bitmap.rows (board g) = ROWS ∧ Bitmap.cols (board g) = Ret COLS
       ∧ 0 ≤ colOffset s ∧ colOffset s + width cur ≤ COLS
       ∧ 0 ≤ rowOffset s ∧ rowOffset s + Bitmap.rows cur ≤ ROWS)
  ∧ (∀ g k, game_ok ROWS COLS 7 g → 0 ≤ k < 7 →
       (∃ g', Game.nextShape k g = Ret g' ∧ game_ok ROWS COLS 7 g')
       ∧ (∃ g', Game.left g = Ret g' ∧ game_ok ROWS COLS 7 g')
       ∧ (∃ g', Game.right g = Ret g' ∧ game_ok ROWS COLS 7 g')
       ∧ (∃ moved g', Game.moveDown k g = Ret (moved, g')
                      ∧ game_ok ROWS COLS 7 g')
       ∧ (∃ g', Game.rotate g = Ret g' ∧ game_ok ROWS COLS 7 g')).
Proof.
  split.
  - intros g Hreach.
    assert (game_ok ROWS COLS 7 g) as Hok.
    { induction Hreach as [k g Hk Hnew | fuel k key g g' _ IH Hk Hkey
                          | due k g g' _ IH Hk Hupd].
      - destruct (new_ok k Hk) as (g0 & Hrun & Hok).
        rewrite Hrun in Hnew. by injection Hnew as <-.
      - destruct (onKeyEvent_ok fuel k key g _ IH Hk Hkey) as (g0 & [= <-] & Hok).
        done.
      - destruct (update_ok due k g IH Hk) as (g0 & Hrun & Hok).
        rewrite Hrun in Hupd. by injection Hupd as <-. }
    destruct Hok as [Hbase (s & cur & Hs & Hcur & Hwithin)].
    destruct (shape_current_ok ROWS COLS 7 g s cur Hbase Hs Hcur)
      as (_ & _ & _ & _ & HbR & HbC).
    destruct Hbase as (Hrect & _).
    exists s, cur. unfold within in Hwithin. rewrite HbR, HbC in Hwithin.
    split_and!; try done; try lia.
    apply (rect_cols ROWS COLS); [done | unfold ROWS; lia].
  - intros g k Hok Hk. split_and!.
    + destruct (nextShape_ok ROWS COLS 7 g k (proj1 Hok) Hk) as (g' & Hrun & Hok' & _).
      by exists g'.
    + by apply left_ok.
    + by apply right_ok.
    + destruct (moveDown_ok ROWS COLS 7 g k Hok Hk) as (moved & g' & Hrun & Hok' & _).
      by exists moved, g'.
    + by apply rotate_ok.
Qed.

Lemma piece_stays_within_board_witness :
  let g := gameWith (Bitmap.emptyWithSize ROWS COLS) 0 in
  (reachable g ∧ game_ok ROWS COLS 7 g ∧ 0 ≤ 0 < 7)
  ∧ (∃ s cur,
       Bag.current (shapes g) = Some s
       ∧ Bag.current (rotations s) = Some cur
       ∧ 0 ≤ colOffset s ∧ colOffset s + width cur ≤ COLS
       ∧ 0 ≤ rowOffset s ∧ rowOffset s + Bitmap.rows cur ≤ ROWS)
  ∧ ∃ g', Game.rotate g = Ret g' ∧ game_ok ROWS COLS 7 g'.
Proof.
  intros g.
  assert (0 ≤ 0 < 7) as Hk by lia.
  assert (reachable g) as Hreach.
  { apply (reach_new 0); [exact Hk | vm_compute; reflexivity]. }
  assert (game_ok ROWS COLS 7 g) as Hok.
  { apply gameWith_ok; [apply emptyWithSize_rect; discriminate | exact Hk]. }
  split; [done |]. split.
  - destruct (proj1 piece_stays_within_board g Hreach)
      as (s & cur & Hs & Hcur & _ & _ & Hwithin).
    by exists s, cur.
  - exact (proj2 (proj2 (proj2 (proj2
             (proj2 piece_stays_within_board g 0 Hok Hk))))).
Defined.

(** * Further properties *)

(** ** Bag *)

(** X1. The constructor on a list that is not empty gives a bag whose
    index points at its first value; [next()], [previous()] and [random()]
    with a drawn index below the length keep the index pointing at a
    value and never touch the values; [current()] of such a bag is the
    value at the index. On a bag without values [current()] is
    [undefined]. *)
Theorem bag_index_stays_valid {T} (vs : list T) (b : Bag T) (k : Z) :
  (vs ≠ [] →
   bag_valid (Bag.new vs) ∧ Bag.current (Bag.new vs) = head vs)
  ∧ (bag_valid b →
     bag_valid (Bag.next b) ∧ bag_valid (Bag.previous b)
     ∧ ∃ v, Bag.current b = Some v ∧ values b !! Z.to_nat (index b) = Some v)
  ∧ (0 ≤ k < Bag.length b →
     bag_valid (Bag.random k b)
     ∧ Bag.current (Bag.random k b) = values b !! Z.to_nat k)
  ∧ (values (Bag.next b) = values b ∧ values (Bag.previous b) = values b
     ∧ values (Bag.random k b) = values b)
  ∧ (Bag.length b = 0 →
     Bag.current b = None ∧ Bag.current (Bag.next b) = None
     ∧ Bag.current (Bag.previous b) = None
     ∧ Bag.current (Bag.random k b) = None).
Proof.
  split_and!; try done.
  - intros Hvs. destruct vs as [|v vs]; [done |]. split; [| done].
    unfold bag_valid, Bag.new, Bag.length. cbn [index values length]. lia.
  - intros Hb. split; [by apply next_valid |]. split; [by apply previous_valid |].
    destruct (array_get_in_range (values b) (index b) Hb) as [v Hv].
    exists v. split; [done |]. by apply array_get_Some in Hv as [_ Hv].
  - intros Hk. split; [done |].
    unfold Bag.current, Bag.random, array_get. cbn [values index].
    by rewrite decide_True by lia.
  - intros Hlen. unfold Bag.length in Hlen.
    assert (values b = []) as Hnil.
    { destruct (values b); [done | simpl in Hlen; lia]. }
    unfold Bag.current, Bag.next, Bag.previous, Bag.random, array_get.
    cbn [values index]. rewrite Hnil.
    repeat split; case_decide; done.
Qed.

Lemma bag_index_stays_valid_witness :
  let b := mkBag ["I"; "J"; "L"] 2 in
  (["I"; "J"; "L"] ≠ [] ∧ bag_valid b ∧ 0 ≤ 1 < Bag.length b)
  ∧ Bag.current (Bag.new ["I"; "J"; "L"]) = Some "I"
  ∧ Bag.current (Bag.next b) = Some "I"
  ∧ Bag.current (Bag.random 1 b) = Some "J".
Proof.
  intros b.
  assert (["I"; "J"; "L"] ≠ []) as Hvs by discriminate.
  assert (bag_valid b) as Hb by (split; vm_compute; [discriminate | done]).
  assert (0 ≤ 1 < Bag.length b) as Hk by (split; vm_compute; [discriminate | done]).
  split; [done |].
  destruct (bag_index_stays_valid ["I"; "J"; "L"] b 1)
    as (Hnew & _ & Hrandom & _).
  split; [exact (proj2 (Hnew Hvs)) |]. split; [reflexivity |].
  exact (proj2 (Hrandom Hk)).
Defined.

(** ** Bitmap *)

Lemma cellAt_emptyWithSize (R C r c : Z) :
  0 ≤ r < R → 0 ≤ c < C → cellAt (Bitmap.emptyWithSize R C) r c = E.
Proof.
  intros Hr Hc. unfold cellAt, Bitmap.emptyWithSize. cbn [data].
  assert (array_get (replicate (Z.to_nat R) (replicate (Z.to_nat C) E)) r
          = Some (replicate (Z.to_nat C) E)) as ->.
  { apply array_get_Some. split; [lia |]. apply lookup_replicate_2. lia. }
  unfold cell.
  assert (array_get (replicate (Z.to_nat C) E) c = Some E) as ->; [| done].
  apply array_get_Some. split; [lia |]. apply lookup_replicate_2. lia.
Qed.

Lemma rowFilled_emptyRow (C : Z) : 1 ≤ C → rowFilled (emptyRow C) = false.
Proof.
  intros HC. unfold emptyRow.
  replace (Z.to_nat C) with (S (Z.to_nat (C - 1))) by lia. done.
Qed.

Lemma no_filled_rows (d : Style2D) :
  Forall (fun r => rowFilled r = false) d →
  filledCount d = 0 ∧ unfilledRows d = d.
Proof.
  unfold filledCount, unfilledRows.
  induction 1 as [|r d Hr _ IH]; [done |]. destruct IH as [IH1 IH2].
  simpl. rewrite Hr. simpl. split; [done | by rewrite IH2].
Qed.

Lemma removeFilledRows_nothing_filled (R C : Z) (b : Bitmap) :
  rect R C b → 2 ≤ R → Forall (fun r => rowFilled r = false) (data b) →
  Bitmap.removeFilledRows b = Ret (0, b).
Proof.
  intros Hrect HR Hnone. rewrite (removeFilledRows_rect R C) by done.
  destruct (no_filled_rows _ Hnone) as [-> ->]. by destruct b.
Qed.

Lemma isOverlapping_nothing_taken (piece other : Bitmap) (ro co : Z) :
  1 ≤ Bitmap.rows piece → 1 ≤ Bitmap.rows other → 0 ≤ ro → 0 ≤ co →
  (∀ r c, 0 ≤ r < Bitmap.rows other → 0 ≤ c < width other →
          cellAt other r c = E) →
  Bitmap.isOverlapping piece ro co other = Ret false.
Proof.
  intros Hpiece Hother Hro Hco Hempty.
  destruct (isOverlapping_total piece other ro co) as (b & -> & Hb); [done .. |].
  destruct b; [| done]. exfalso.
  destruct (proj1 Hb eq_refl) as (i & j & Hi & Hj & Hi' & Hj' & _ & Hne).
  rewrite Hempty in Hne by lia. discriminate Hne.
Qed.

(** X2. [emptyWithSize(rows, cols)] is a grid of that size whose cells
    are all [E]: none of its rows is filled, no grid overlaps it at offsets
    that are not negative, and [removeFilledRows] finds nothing to remove
    and leaves it as it is. *)
Theorem emptyWithSize_is_empty (R C : Z) :
  0 ≤ R → 0 ≤ C →
  let e := Bitmap.emptyWithSize R C in
  rect R C e
  ∧ (∀ r c, 0 ≤ r < R → 0 ≤ c < C → Bitmap.get e r c = Ret E)
  ∧ (1 ≤ C → ∀ r, 0 ≤ r < R → Bitmap.isRowFilled e r = Ret false)
  ∧ (∀ piece ro co,
       1 ≤ R → 1 ≤ Bitmap.rows piece → 0 ≤ ro → 0 ≤ co →
       Bitmap.isOverlapping piece ro co e = Ret false)
  ∧ (2 ≤ R → 1 ≤ C → Bitmap.removeFilledRows e = Ret (0, e)).
Proof.
  intros HR HC e.
  pose proof (emptyWithSize_rect R C HR HC) as Hrect. fold e in Hrect.
  assert (1 ≤ C → Forall (fun r => rowFilled r = false) (data e)) as Hnone.
  { intros HC1. apply Forall_replicate. by apply (rowFilled_emptyRow C). }
  split_and!.
  - done.
  - intros r c Hr Hc.
    rewrite get_in_rows by (rewrite (rect_rows R C e Hrect); lia).
    f_equal. by apply cellAt_emptyWithSize.
  - intros HC1 r Hr.
    destruct (rect_row R C e r Hrect Hr) as (row & Hrow & _).
    rewrite (isRowFilled_rect R C e r row Hrect Hrow). f_equal.
    apply array_get_Some in Hrow as [_ Hrow].
    by apply (Forall_lookup_1 _ _ _ _ (Hnone HC1) Hrow).
  - intros piece ro co HR1 Hpiece Hro Hco.
    apply isOverlapping_nothing_taken; try done.
    + rewrite (rect_rows R C e Hrect). lia.
    + intros r c Hr Hc. apply cellAt_emptyWithSize.
      * by rewrite (rect_rows R C e Hrect) in Hr.
      * by rewrite (width_rect R C e Hrect HR1) in Hc.
  - intros HR2 HC1. apply (removeFilledRows_nothing_filled R C); auto.
Qed.

Lemma emptyWithSize_is_empty_witness :
  (0 ≤ ROWS ∧ 0 ≤ COLS)
  ∧ rect ROWS COLS (Bitmap.emptyWithSize ROWS COLS)
  ∧ Bitmap.isOverlapping Blocks.BLOCK_T 13 7 (Bitmap.emptyWithSize ROWS COLS)
    = Ret false.
Proof.
  assert (0 ≤ ROWS) as HR by discriminate.
  assert (0 ≤ COLS) as HC by discriminate.
  split; [done |].
  destruct (emptyWithSize_is_empty ROWS COLS HR HC) as (Hrect & _ & _ & Hover & _).
  split; [exact Hrect |].
  apply Hover; discriminate.
Defined.

(** *** The four rotations *)

Lemma rect_gridOf (n m : Z) (f : Z → Z → value) :
  0 ≤ n → 0 ≤ m → rect n m (mkBitmap (gridOf n m f)).
Proof.
  intros Hn Hm. split.
  - unfold Bitmap.rows, gridOf. cbn [data]. rewrite length_fmap, length_seqZ. lia.
  - cbn [data]. unfold gridOf. apply Forall_fmap, Forall_forall. intros i _.
    cbn. rewrite length_fmap, length_seqZ. lia.
Qed.

Lemma cellAt_gridOf (n m : Z) (f : Z → Z → value) (i j : Z) :
  0 ≤ i < n → 0 ≤ j < m → cellAt (mkBitmap (gridOf n m f)) i j = f i j.
Proof.
  intros Hi Hj. unfold cellAt, gridOf. cbn [data].
  rewrite (lookup_fmap_seqZ _ n i) by done.
  unfold cell. by rewrite (lookup_fmap_seqZ _ m j) by done.
Qed.

Lemma gridOf_ext (n m : Z) (f g : Z → Z → value) :
  (∀ i j, 0 ≤ i < n → 0 ≤ j < m → f i j = g i j) →
  gridOf n m f = gridOf n m g.
Proof.
  intros Hfg. unfold gridOf. apply list_fmap_ext. intros k i Hi.
  apply lookup_seqZ in Hi as [-> Hk]. apply list_fmap_ext. intros l j Hj.
  apply lookup_seqZ in Hj as [-> Hl]. apply Hfg; lia.
Qed.

Lemma rect_data_gridOf (R C : Z) (b : Bitmap) :
  rect R C b → data b = gridOf R C (cellAt b).
Proof.
  intros [Hrows Hall]. unfold Bitmap.rows in Hrows.
  apply list_eq. intros i. unfold gridOf. rewrite list_lookup_fmap.
  destruct (decide (i < length (data b))%nat) as [Hi | Hi].
  - rewrite lookup_seqZ_lt by lia. cbn.
    destruct (lookup_lt_is_Some_2 (data b) i Hi) as [row Hrow].
    rewrite Hrow. f_equal.
    pose proof (Forall_lookup_1 _ _ _ _ Hall Hrow) as Hlen. cbv beta in Hlen.
    apply list_eq. intros j. rewrite list_lookup_fmap.
    destruct (decide (j < length row)%nat) as [Hj | Hj].
    + rewrite lookup_seqZ_lt by lia. cbn.
      destruct (lookup_lt_is_Some_2 row j Hj) as [v Hv]. rewrite Hv. f_equal.
      unfold cellAt. rewrite Z.add_0_l, array_get_nat, Hrow.
      unfold cell. by rewrite Z.add_0_l, array_get_nat, Hv.
    + rewrite lookup_seqZ_ge by lia. cbn. apply lookup_ge_None. lia.
  - rewrite lookup_seqZ_ge by lia. cbn. apply lookup_ge_None. lia.
Qed.

Lemma rotate_gridOf (n m : Z) (f : Z → Z → value) :
  1 ≤ n → 0 ≤ m →
  Bitmap.rotate (mkBitmap (gridOf n m f))
  = Ret (mkBitmap (gridOf m n (fun c r => f (n - r - 1) c))).
Proof.
  intros Hn Hm.
  pose proof (rect_gridOf n m f ltac:(lia) Hm) as Hrect.
  rewrite (rotate_eq _ m (rect_cols n m _ Hrect Hn)).
  rewrite (rect_rows n m _ Hrect). cbv zeta. do 2 f_equal.
  apply gridOf_ext. intros c r Hc Hr. apply cellAt_gridOf; lia.
Qed.

Lemma rotations_closed (R C : Z) (b : Bitmap) :
  rect R C b → 1 ≤ R → 1 ≤ C →
  let b1 := mkBitmap (gridOf C R (fun c r => cellAt b (R - r - 1) c)) in
  let b2 := mkBitmap (gridOf R C (fun r c => cellAt b (R - r - 1) (C - c - 1))) in
  let b3 := mkBitmap (gridOf C R (fun c r => cellAt b r (C - c - 1))) in
  Bitmap.rotate b = Ret b1 ∧ Bitmap.rotate b1 = Ret b2
  ∧ Bitmap.rotate b2 = Ret b3 ∧ Bitmap.rotate b3 = Ret b.
Proof.
  intros Hrect HR HC b1 b2 b3.
  assert (b = mkBitmap (gridOf R C (cellAt b))) as Hb.
  { destruct b as [d]. f_equal. by apply (rect_data_gridOf R C (mkBitmap d)). }
  split_and!.
  - rewrite Hb at 1. by rewrite rotate_gridOf by lia.
  - unfold b1. rewrite rotate_gridOf by lia. unfold b2. do 2 f_equal.
  - unfold b2. rewrite rotate_gridOf by lia. unfold b3. do 2 f_equal.
    apply gridOf_ext. intros c r Hc Hr. f_equal; lia.
  - unfold b3. rewrite rotate_gridOf by lia.
    transitivity (Ret (mkBitmap (gridOf R C (cellAt b)))); [| by rewrite <- Hb].
    do 2 f_equal. apply gridOf_ext. intros r c Hr Hc. f_equal; lia.
Qed.

(** X3. Four calls of [rotate()] in a row bring a rectangular grid back,
    cell for cell; the grids in between have the sizes C by R, R by C and
    C by R, and the second one is the grid turned by half: its cell
    [[r][c]] is the cell [[R-1-r][C-1-c]] of the first. *)
Theorem rotate_four_times_identity (R C : Z) (b : Bitmap) :
  rect R C b → 1 ≤ R → 1 ≤ C →
  ∃ b1 b2 b3,
    Bitmap.rotate b = Ret b1 ∧ Bitmap.rotate b1 = Ret b2
    ∧ Bitmap.rotate b2 = Ret b3 ∧ Bitmap.rotate b3 = Ret b
    ∧ rect C R b1 ∧ rect R C b2 ∧ rect C R b3
    ∧ ∀ r c, 0 ≤ r < R → 0 ≤ c < C →
        Bitmap.get b2 r c = Bitmap.get b (R - 1 - r) (C - 1 - c).
Proof.
  intros Hrect HR HC.
  destruct (rotations_closed R C b Hrect HR HC) as (H1 & H2 & H3 & H4).
  do 3 eexists. split_and!; [exact H1 | exact H2 | exact H3 | exact H4 | ..].
  - apply rect_gridOf; lia.
  - apply rect_gridOf; lia.
  - apply rect_gridOf; lia.
  - intros r c Hr Hc.
    rewrite !get_in_rows.
    + rewrite cellAt_gridOf by lia. do 2 f_equal; lia.
    + rewrite (rect_rows R C b Hrect). lia.
    + rewrite (rect_rows R C _ (rect_gridOf R C _ ltac:(lia) ltac:(lia))). lia.
Qed.

Lemma rotate_four_times_identity_witness :
  (rect 2 3 Blocks.BLOCK_S ∧ 1 ≤ 2 ∧ 1 ≤ 3)
  ∧ (b1 ← Bitmap.rotate Blocks.BLOCK_S; b2 ← Bitmap.rotate b1;
     b3 ← Bitmap.rotate b2; Bitmap.rotate b3) = Ret Blocks.BLOCK_S.
Proof.
  assert (rect 2 3 Blocks.BLOCK_S) as Hrect
    by (split; [reflexivity | repeat constructor]).
  split; [split; [exact Hrect | lia] |].
  destruct (rotate_four_times_identity 2 3 Blocks.BLOCK_S Hrect)
    as (b1 & b2 & b3 & H1 & H2 & H3 & H4 & _); [lia | lia |].
  rewrite H1. osimpl. rewrite H2. osimpl. rewrite H3. osimpl. exact H4.
Defined.

Lemma rotate_no_rows (b : Bitmap) : data b = [] → Bitmap.rotate b = Throw.
Proof. intros Hd. unfold Bitmap.rotate, Bitmap.cols. by rewrite Hd. Qed.

Lemma allRotations_unfold (b b1 b2 b3 : Bitmap) :
  Bitmap.rotate b = Ret b1 → Bitmap.rotate b1 = Ret b2 →
  Bitmap.rotate b2 = Ret b3 →
  Bitmap.allRotations b = Ret [b; b1; b2; b3].
Proof.
  intros H1 H2 H3. unfold Bitmap.allRotations, for_range.
  change (Z.to_nat (4 - 1)) with 3%nat. cbn [for_loop].
  change (array_get [b] (1 - 1)) with (Some b). osimpl. rewrite H1. osimpl.
  change (array_get ([b] ++ [b1]) (1 + 1 - 1)) with (Some b1). osimpl.
  rewrite H2. osimpl.
  change (array_get (([b] ++ [b1]) ++ [b2]) (1 + 1 + 1 - 1)) with (Some b2).
  osimpl. rewrite H3. done.
Qed.

(** X4. [allRotations()] of a rectangular grid returns four grids: the
    grid itself and its three successive rotations, whose sizes alternate
    and whose last one rotates back to the grid. The constructor of
    [Shape] puts them in a bag with the first one current, at offsets 0.
    A grid without rows or without columns makes both throw. *)
Theorem allRotations_four_grids (R C : Z) (b : Bitmap) :
  (rect R C b → 1 ≤ R → 1 ≤ C →
   ∃ b1 b2 b3,
     Bitmap.allRotations b = Ret [b; b1; b2; b3]
     ∧ Shape.new b = Ret (mkShape (mkBag [b; b1; b2; b3] 0) 0 0)
     ∧ Bitmap.rotate b = Ret b1 ∧ Bitmap.rotate b1 = Ret b2
     ∧ Bitmap.rotate b2 = Ret b3 ∧ Bitmap.rotate b3 = Ret b
     ∧ rect C R b1 ∧ rect R C b2 ∧ rect C R b3
     ∧ shape_fits_board (Z.max R C) (Z.max R C)
         (mkShape (mkBag [b; b1; b2; b3] 0) 0 0))
  ∧ (Bitmap.rows b = 0 → Bitmap.allRotations b = Throw ∧ Shape.new b = Throw)
  ∧ (rect R 0 b → 1 ≤ R →
     Bitmap.allRotations b = Throw ∧ Shape.new b = Throw).
Proof.
  split_and!.
  - intros Hrect HR HC.
    destruct (rotations_closed R C b Hrect HR HC) as (H1 & H2 & H3 & H4).
    pose proof (allRotations_unfold b _ _ _ H1 H2 H3) as Hall.
    pose proof (rect_gridOf C R (fun c r => cellAt b (R - r - 1) c)
                  ltac:(lia) ltac:(lia)) as Hr1.
    pose proof (rect_gridOf R C (fun r c => cellAt b (R - r - 1) (C - c - 1))
                  ltac:(lia) ltac:(lia)) as Hr2.
    pose proof (rect_gridOf C R (fun c r => cellAt b r (C - c - 1))
                  ltac:(lia) ltac:(lia)) as Hr3.
    do 3 eexists. split_and!; [exact Hall | | exact H1 | exact H2 | exact H3
                              | exact H4 | exact Hr1 | exact Hr2 | exact Hr3 |].
    + unfold Shape.new. rewrite Hall. done.
    + split; [split |].
      * split; vm_compute; [discriminate | done].
      * cbn [rotations values].
        repeat apply Forall_cons_2; try apply Forall_nil_2.
        -- rewrite (rect_rows R C b Hrect). lia.
        -- rewrite (rect_rows C R _ Hr1). lia.
        -- rewrite (rect_rows R C _ Hr2). lia.
        -- rewrite (rect_rows C R _ Hr3). lia.
      * cbn [rotations values].
        repeat apply Forall_cons_2; try apply Forall_nil_2.
        -- rewrite (rect_rows R C b Hrect), (width_rect R C b Hrect) by lia. lia.
        -- rewrite (rect_rows C R _ Hr1), (width_rect C R _ Hr1) by lia. lia.
        -- rewrite (rect_rows R C _ Hr2), (width_rect R C _ Hr2) by lia. lia.
        -- rewrite (rect_rows C R _ Hr3), (width_rect C R _ Hr3) by lia. lia.
  - intros Hrows.
    assert (data b = []) as Hd.
    { unfold Bitmap.rows in Hrows. destruct (data b); [done | simpl in Hrows; lia]. }
    assert (Bitmap.allRotations b = Throw) as Hall.
    { unfold Bitmap.allRotations, for_range.
      change (Z.to_nat (4 - 1)) with 3%nat. cbn [for_loop].
      change (array_get [b] (1 - 1)) with (Some b). osimpl.
      by rewrite (rotate_no_rows b Hd). }
    split; [exact Hall |]. unfold Shape.new. by rewrite Hall.
  - intros Hrect HR.
    assert (b = mkBitmap (gridOf R 0 (cellAt b))) as Hb.
    { destruct b as [d]. f_equal. by apply (rect_data_gridOf R 0 (mkBitmap d)). }
    assert (Bitmap.rotate b = Ret (mkBitmap [])) as H1.
    { rewrite Hb at 1. by rewrite rotate_gridOf by lia. }
    assert (Bitmap.allRotations b = Throw) as Hall.
    { unfold Bitmap.allRotations, for_range.
      change (Z.to_nat (4 - 1)) with 3%nat. cbn [for_loop].
      change (array_get [b] (1 - 1)) with (Some b). osimpl. rewrite H1. osimpl.
      change (array_get ([b] ++ [mkBitmap []]) (1 + 1 - 1))
        with (Some (mkBitmap [])). osimpl.
      by rewrite (rotate_no_rows (mkBitmap [])). }
    split; [exact Hall |]. unfold Shape.new. by rewrite Hall.
Qed.

Lemma allRotations_four_grids_witness :
  (rect 2 3 Blocks.BLOCK_T ∧ 1 ≤ 2 ∧ 1 ≤ 3
   ∧ Bitmap.rows (mkBitmap []) = 0 ∧ rect 1 0 (mkBitmap [[]]) ∧ 1 ≤ 1)
  ∧ (∃ b1 b2 b3, Bitmap.allRotations Blocks.BLOCK_T
                 = Ret [Blocks.BLOCK_T; b1; b2; b3])
  ∧ Shape.new (mkBitmap []) = Throw
  ∧ Shape.new (mkBitmap [[]]) = Throw.
Proof.
  assert (rect 2 3 Blocks.BLOCK_T) as Hrect
    by (split; [reflexivity | repeat constructor]).
  assert (rect 1 0 (mkBitmap [[]])) as Hrect0
    by (split; [reflexivity | repeat constructor]).
  assert (Bitmap.rows (mkBitmap []) = 0) as Hrows by reflexivity.
  split; [split_and!; (done || lia) |].
  split_and!.
  - destruct (proj1 (allRotations_four_grids 2 3 Blocks.BLOCK_T) Hrect)
      as (b1 & b2 & b3 & Hall & _); [lia | lia |].
    by exists b1, b2, b3.
  - exact (proj2 (proj1 (proj2 (allRotations_four_grids 0 0 (mkBitmap []))) Hrows)).
  - apply (proj2 (proj2 (allRotations_four_grids 1 0 (mkBitmap [[]])))); [done | lia].
Defined.

(** *** copyFrom and the offsets above the grid *)

(** X5. [copyFrom] at offsets that are not negative keeps the size of the
    receiver and changes exactly the cells that lie under a non-empty cell
    of [other]: these take the value of [other], every other cell keeps
    its value. No cell that was taken becomes empty. *)
Theorem copyFrom_merges_cells (R C : Z) (this other : Bitmap) (ro co : Z) :
  rect R C this → 1 ≤ R → 1 ≤ Bitmap.rows other → 0 ≤ ro → 0 ≤ co →
  ∃ this',
    Bitmap.copyFrom this ro co other = Ret this'
    ∧ rect R C this'
    ∧ (∀ r c, 0 ≤ r < R → 0 ≤ c < C →
         Bitmap.get this' r c
         = if decide (ro ≤ r < ro + Bitmap.rows other
                      ∧ co ≤ c < co + width other
                      ∧ neE (cellAt other (r - ro) (c - co)) = true)
           then Bitmap.get other (r - ro) (c - co)
           else Bitmap.get this r c)
    ∧ (∀ r c, 0 ≤ r < R → 0 ≤ c < C →
         neE (cellAt this r c) = true → neE (cellAt this' r c) = true).
Proof.
  intros Hrect HR Hother Hro Hco.
  destruct (copyFrom_cells R C this other ro co) as (this' & Hrun & Hrect' & Hcells);
    [done .. |].
  exists this'. split_and!; [done | done | |].
  - intros r c Hr Hc.
    rewrite (get_in_rows this') by (rewrite (rect_rows R C this' Hrect'); lia).
    rewrite (Hcells r c Hr Hc). case_decide as Hcov.
    + by rewrite get_in_rows by lia.
    + by rewrite get_in_rows by (rewrite (rect_rows R C this Hrect); lia).
  - intros r c Hr Hc Hne. rewrite (Hcells r c Hr Hc).
    case_decide as Hcov; [tauto | done].
Qed.

Lemma copyFrom_merges_cells_witness :
  let board := Bitmap.emptyWithSize 3 4 in
  (rect 3 4 board ∧ 1 ≤ 3 ∧ 1 ≤ Bitmap.rows Blocks.BLOCK_J ∧ 0 ≤ 1 ∧ 0 ≤ 1)
  ∧ Bitmap.copyFrom board 1 1 Blocks.BLOCK_J
    = Ret (mkBitmap [[E; E; E; E];
                     [E; Blocks.B; E; E];
                     [E; Blocks.B; Blocks.B; Blocks.B]]).
Proof.
  intros board.
  assert (rect 3 4 board) as Hrect by (split; [reflexivity | repeat constructor]).
  assert (1 ≤ Bitmap.rows Blocks.BLOCK_J) as Hother by discriminate.
  split; [split_and!; (done || lia) |].
  destruct (copyFrom_merges_cells 3 4 board Blocks.BLOCK_J 1 1 Hrect)
    as (this' & Hrun & _); [lia | done | lia | lia |].
  rewrite Hrun. vm_compute in Hrun. injection Hrun as <-. reflexivity.
Defined.

Lemma for_any_no_iteration (start stop : Z) (test : Z → outcome bool) :
  stop ≤ start → for_any start stop test = Ret false.
Proof.
  intros Hle. unfold for_any.
  by replace (Z.to_nat (stop - start)) with 0%nat by lia.
Qed.

Lemma for_loop_throws {St} (body : Z → St → outcome St) (s : St) :
  ∀ (n : nat) (i j : Z),
    i ≤ j < i + Z.of_nat n →
    (∀ l, i ≤ l < i + Z.of_nat n → body l s = Ret s ∨ body l s = Throw) →
    body j s = Throw →
    for_loop n i body s = Throw.
Proof.
  induction n as [|n IH]; intros i j Hj Hbody Hthrow; [lia |].
  cbn [for_loop]. destruct (Hbody i) as [Hret | Hthr]; [lia | | by rewrite Hthr].
  rewrite Hret. osimpl. apply (IH (i + 1) j).
  - destruct (decide (j = i)) as [-> |]; [congruence | lia].
  - intros l Hl. apply Hbody. lia.
  - done.
Qed.

Lemma for_loop_first_throws {St} (body : Z → St → outcome St) (s : St)
    (n : nat) (i : Z) :
  body i s = Throw → for_loop (S n) i body s = Throw.
Proof. intros Hthrow. cbn [for_loop]. by rewrite Hthrow. Qed.

(** X6. A grid placed with a negative row offset cannot be tested or
    copied: [isOverlapping] throws as soon as it has a cell to compare
    (the receiver has a column and the column offset is left of the last
    column of [other]), and [copyFrom] throws when the first row of
    [other] has a non-empty cell over a column of the receiver. Right of
    the last column there is nothing to compare and [isOverlapping]
    returns false, whatever the row offset. *)
Theorem negative_row_offset_throws (this other : Bitmap) (ro co : Z) :
  1 ≤ Bitmap.rows this → 1 ≤ Bitmap.rows other →
  (ro < 0 → 1 ≤ width this → co < width other →
   Bitmap.isOverlapping this ro co other = Throw)
  ∧ (width other ≤ co → Bitmap.isOverlapping this ro co other = Ret false)
  ∧ (ro < 0 →
     (∃ j, 0 ≤ j < width other ∧ co + j < width this
           ∧ neE (cellAt other 0 j) = true) →
     Bitmap.copyFrom this ro co other = Throw).
Proof.
  intros Hthis Hother. split_and!.
  - intros Hro Hwidth Hco. unfold Bitmap.isOverlapping.
    rewrite (cols_defined other), (cols_defined this) by done. osimpl.
    apply for_any_first_throws; [lia |].
    apply for_any_first_throws; [lia |].
    rewrite (get_in_rows this) by lia. osimpl.
    by rewrite get_negative_row.
  - intros Hco. unfold Bitmap.isOverlapping.
    rewrite (cols_defined other), (cols_defined this) by done. osimpl.
    destruct (decide (ro < Z.min (Bitmap.rows other) (ro + Bitmap.rows this)))
      as [Hrows | Hrows]; [| apply for_any_no_iteration; lia].
    rewrite (for_any_existsb _ (fun _ => false)).
    + f_equal. apply not_true_is_false. intros Hex.
      apply existsb_seqZ in Hex as (? & _ & ?). done.
    + intros row Hrow. apply for_any_no_iteration. lia.
  - intros Hro (j & Hj & Hcol & Hne). unfold Bitmap.copyFrom.
    rewrite (cols_defined this), (cols_defined other) by done. osimpl.
    set (maxRows := Z.min (Bitmap.rows this) (ro + Bitmap.rows other)).
    set (maxCols := Z.min (width this) (co + width other)).
    assert (for_range ro maxRows (fun row d =>
              for_range co maxCols (fun col d =>
                value ← Bitmap.get other (row - ro) (col - co);
                if neE value then
                  trow ← defined (array_get d row);
                  Ret (<[Z.to_nat row := array_set trow col value]> d)
                else Ret d) d) (data this) = Throw) as ->; [| done].
    unfold for_range at 1.
    replace (Z.to_nat (maxRows - ro)) with (S (Z.to_nat (maxRows - ro - 1)))
      by (unfold maxRows; lia).
    apply for_loop_first_throws. unfold for_range.
    apply (for_loop_throws _ _ _ co (co + j)).
    + unfold maxCols. lia.
    + intros l Hl. rewrite get_in_rows by lia. osimpl.
      destruct (neE (cellAt other (ro - ro) (l - co))); [right | by left].
      rewrite array_get_out by lia. reflexivity.
    + rewrite get_in_rows by lia. osimpl.
      replace (ro - ro) with 0 by lia. replace (co + j - co) with j by lia.
      rewrite Hne. rewrite array_get_out by lia. reflexivity.
Qed.

Lemma negative_row_offset_throws_witness :
  let board := Bitmap.emptyWithSize 3 4 in
  (1 ≤ Bitmap.rows Blocks.BLOCK_O ∧ 1 ≤ Bitmap.rows board
   ∧ -1 < 0 ∧ 1 ≤ width Blocks.BLOCK_O ∧ 1 < width board
   ∧ width board ≤ 4
   ∧ ∃ j, 0 ≤ j < width Blocks.BLOCK_O ∧ 1 + j < width board
          ∧ neE (cellAt Blocks.BLOCK_O 0 j) = true)
  ∧ Bitmap.isOverlapping Blocks.BLOCK_O (-1) 1 board = Throw
  ∧ Bitmap.isOverlapping Blocks.BLOCK_O (-1) 4 board = Ret false
  ∧ Bitmap.copyFrom board (-1) 1 Blocks.BLOCK_O = Throw.
Proof.
  intros board.
  assert (1 ≤ Bitmap.rows Blocks.BLOCK_O) as Hthis by discriminate.
  assert (1 ≤ Bitmap.rows board) as Hother by discriminate.
  assert (∃ j, 0 ≤ j < width Blocks.BLOCK_O ∧ 1 + j < width board
               ∧ neE (cellAt Blocks.BLOCK_O 0 j) = true) as Hcell.
  { exists 0. split_and!; (done || reflexivity). }
  split.
  { split_and!; try done. }
  split_and!.
  - apply (proj1 (negative_row_offset_throws Blocks.BLOCK_O board (-1) 1
                    Hthis Hother)); done.
  - apply (proj1 (proj2 (negative_row_offset_throws Blocks.BLOCK_O board (-1) 4
                           Hthis Hother))). done.
  - apply (proj2 (proj2 (negative_row_offset_throws board Blocks.BLOCK_O (-1) 1
                           Hother Hthis))); [done |]. exact Hcell.
Defined.

(** *** Rows: isRowFilled, removeRow, removeFilledRows *)

Lemma cellAt_row (b : Bitmap) (row col : Z) (r : list value) :
  array_get (data b) row = Some r → cellAt b row col = cell r col.
Proof. intros Hr. unfold cellAt. by rewrite Hr. Qed.

Lemma rowFilled_spec (r : list value) :
  rowFilled r = true
  ↔ ∀ c, 0 ≤ c < Z.of_nat (length r) → neE (cell r c) = true.
Proof.
  rewrite rowFilled_cells, negb_true_iff. split.
  - intros Hnone c Hc. destruct (neE (cell r c)) eqn:Hne; [done |].
    assert (existsb (λ col, eqE (cell r col)) (seqZ 0 (Z.of_nat (length r))) = true)
      as Hex; [| congruence].
    apply existsb_seqZ. exists c. split; [lia |]. unfold eqE. by rewrite Hne.
  - intros Hall. apply not_true_is_false. intros Hex.
    apply existsb_seqZ in Hex as (c & Hc & Heq). unfold eqE in Heq.
    rewrite Hall in Heq by lia. done.
Qed.

Lemma get_outside_rows (b : Bitmap) (row col : Z) :
  ¬ 0 ≤ row < Bitmap.rows b → Bitmap.get b row col = Throw.
Proof.
  intros Hrow. unfold Bitmap.get. rewrite array_get_out; [done |].
  unfold Bitmap.rows in Hrow. lia.
Qed.

(** X7. [isRowFilled] on a rectangular grid: for a row of the grid it is
    true exactly when no cell of the row is empty; for a row number
    outside the grid it throws (there is a first column to read); on a
    grid whose rows have no cells it is true for every row number. *)
Theorem isRowFilled_cases (R C : Z) (b : Bitmap) (row : Z) :
  rect R C b → 1 ≤ R →
  (0 ≤ row < R →
   ∃ filled, Bitmap.isRowFilled b row = Ret filled
             ∧ (filled = true
                ↔ ∀ c, 0 ≤ c < C → Bitmap.get b row c ≠ Ret E))
  ∧ (¬ 0 ≤ row < R → 1 ≤ C → Bitmap.isRowFilled b row = Throw)
  ∧ (C = 0 → Bitmap.isRowFilled b row = Ret true).
Proof.
  intros Hrect HR. split_and!.
  - intros Hrow. destruct (rect_row R C b row Hrect Hrow) as (r & Hr & Hlen).
    exists (rowFilled r). split; [by apply (isRowFilled_rect R C) |].
    rewrite rowFilled_spec, Hlen.
    assert (∀ c, Bitmap.get b row c = Ret (cell r c)) as Hget.
    { intros c. rewrite get_in_rows by (rewrite (rect_rows R C b Hrect); lia).
      by rewrite (cellAt_row b row c r Hr). }
    split; intros Hall c Hc; specialize (Hall c Hc); rewrite Hget in *.
    + intros [= Heq]. by rewrite Heq in Hall.
    + destruct (cell r c) as [s|]; [| done]. simpl.
      destruct (String.eqb_spec s ""); [by subst |done].
  - intros Hrow HC. unfold Bitmap.isRowFilled.
    rewrite (rect_cols R C b Hrect HR). osimpl.
    rewrite for_any_first_throws; [done | lia |].
    rewrite get_outside_rows; [done |].
    by rewrite (rect_rows R C b Hrect).
  - intros ->. unfold Bitmap.isRowFilled.
    rewrite (rect_cols R 0 b Hrect HR). osimpl.
    by rewrite for_any_no_iteration.
Qed.

Lemma isRowFilled_cases_witness :
  (rect 2 3 Blocks.BLOCK_T ∧ 1 ≤ 2 ∧ 0 ≤ 0 < 2 ∧ ¬ 0 ≤ 2 < 2 ∧ 1 ≤ 3)
  ∧ Bitmap.isRowFilled Blocks.BLOCK_T 0 = Ret true
  ∧ Bitmap.isRowFilled Blocks.BLOCK_T 2 = Throw.
Proof.
  assert (rect 2 3 Blocks.BLOCK_T) as Hrect
    by (split; [reflexivity | repeat constructor]).
  split; [split_and!; (done || lia) |].
  pose proof (isRowFilled_cases 2 3 Blocks.BLOCK_T 0 Hrect ltac:(lia))
    as [Hin _].
  pose proof (isRowFilled_cases 2 3 Blocks.BLOCK_T 2 Hrect ltac:(lia))
    as (_ & Hout & _).
  split.
  - destruct Hin as (filled & Hrun & _); [lia |].
    rewrite Hrun. vm_compute in Hrun. injection Hrun as <-. reflexivity.
  - apply Hout; lia.
Defined.

Lemma array_get_cons {A} (x : A) (l : list A) (i : Z) :
  0 ≤ i → array_get (x :: l) (i + 1) = array_get l i.
Proof.
  intros Hi. unfold array_get. rewrite !decide_True by lia.
  by replace (Z.to_nat (i + 1)) with (S (Z.to_nat i)) by lia.
Qed.

Lemma splice1_past_end {A} (l : list A) (row : Z) :
  Z.of_nat (length l) ≤ row → splice1 l row = l.
Proof.
  intros Hrow. unfold splice1. cbv zeta.
  rewrite (decide_False (P := row < 0)) by lia.
  rewrite delete_take_drop, take_ge, drop_ge by lia. apply app_nil_r.
Qed.

Lemma splice1_negative {A} (l : list A) (row : Z) :
  row < 0 → 1 ≤ Z.of_nat (length l) →
  splice1 l row = splice1 l (Z.max (Z.of_nat (length l) + row) 0).
Proof.
  intros Hrow Hlen. unfold splice1. cbv zeta.
  rewrite (decide_True (P := row < 0)) by lia.
  rewrite (decide_False (P := Z.max (Z.of_nat (length l) + row) 0 < 0)) by lia.
  f_equal. lia.
Qed.

Lemma rect_delete (R C : Z) (b : Bitmap) (row : Z) :
  rect R C b → 0 ≤ row < R → 0 ≤ C →
  rect R C (mkBitmap (emptyRow C :: delete (Z.to_nat row) (data b))).
Proof.
  intros [Hrows Hall] Hrow HC. unfold Bitmap.rows in Hrows. split.
  - unfold Bitmap.rows. cbn [data length].
    rewrite length_delete; [lia |]. apply lookup_lt_is_Some. lia.
  - cbn [data]. constructor.
    + unfold emptyRow. rewrite length_replicate. lia.
    + by apply Forall_delete.
Qed.

(** X8. [removeRow] on a rectangular grid. For a row of a grid of two
    rows or more: the size is kept, the new first row is empty, the rows
    above the removed one move down by one and the rows below it stay. A
    row number past the last row removes nothing, so the grid grows by the
    empty row; a negative row number counts from the last row, as the
    splice does; the only row of a one-row grid cannot be removed, the
    call throws. *)
Theorem removeRow_shifts_rows (R C : Z) (b : Bitmap) (row : Z) :
  rect R C b → 1 ≤ R → 0 ≤ C →
  (2 ≤ R → 0 ≤ row < R →
   ∃ b', Bitmap.removeRow b row = Ret b'
         ∧ rect R C b'
         ∧ (∀ c, 0 ≤ c < C → Bitmap.get b' 0 c = Ret E)
         ∧ (∀ r c, 0 ≤ r < row → Bitmap.get b' (r + 1) c = Bitmap.get b r c)
         ∧ (∀ r c, row < r < R → Bitmap.get b' r c = Bitmap.get b r c))
  ∧ (R ≤ row →
     Bitmap.removeRow b row = Ret (mkBitmap (emptyRow C :: data b)))
  ∧ (row < 0 →
     Bitmap.removeRow b row = Bitmap.removeRow b (Z.max (R + row) 0))
  ∧ (R = 1 → row ≤ 0 → Bitmap.removeRow b row = Throw).
Proof.
  intros Hrect HR HC.
  pose proof Hrect as [Hrows Hall]. unfold Bitmap.rows in Hrows.
  split_and!.
  - intros HR2 Hrow. eexists. split; [by apply (removeRow_rect R C) |].
    split_and!.
    + by apply rect_delete.
    + intros c Hc. unfold Bitmap.get. cbn [data].
      replace (array_get (emptyRow C :: delete (Z.to_nat row) (data b)) 0)
        with (Some (emptyRow C)) by done.
      osimpl. f_equal.
      unfold cell, array_get, emptyRow. rewrite decide_True by lia.
      by rewrite lookup_replicate_2 by lia.
    + intros r c Hr. unfold Bitmap.get. cbn [data].
      rewrite array_get_cons by lia. unfold array_get.
      rewrite !decide_True by lia.
      by rewrite list_lookup_delete_lt by lia.
    + intros r c Hr. unfold Bitmap.get. cbn [data].
      replace r with (r - 1 + 1) at 1 by lia.
      rewrite array_get_cons by lia. unfold array_get.
      rewrite !decide_True by lia.
      rewrite list_lookup_delete_ge by lia.
      by replace (S (Z.to_nat (r - 1))) with (Z.to_nat r) by lia.
  - intros Hrow. unfold Bitmap.removeRow. cbv zeta.
    rewrite splice1_past_end by lia.
    replace (mkBitmap (data b)) with b by by destruct b.
    by rewrite (rect_cols R C b Hrect HR).
  - intros Hrow. unfold Bitmap.removeRow.
    rewrite (splice1_negative (data b) row) by lia. by rewrite Hrows.
  - intros -> Hrow. unfold Bitmap.removeRow. cbv zeta.
    destruct (data b) as [|x [|y d]] eqn:Hdata; simpl in Hrows; try lia.
    unfold splice1. cbv zeta. simpl length.
    destruct (decide (row < 0)).
    + by replace (Z.to_nat (Z.max (Z.of_nat 1 + row) 0)) with 0%nat by lia.
    + by replace (Z.to_nat (Z.min row (Z.of_nat 1))) with 0%nat by lia.
Qed.

Lemma removeRow_shifts_rows_witness :
  (rect 2 3 Blocks.BLOCK_J ∧ 1 ≤ 2 ∧ 0 ≤ 3 ∧ 2 ≤ 2 ∧ 0 ≤ 1 < 2 ∧ 2 ≤ 5 ∧ -1 < 0)
  ∧ Bitmap.removeRow Blocks.BLOCK_J 1
    = Ret (mkBitmap [[E; E; E]; [Blocks.B; E; E]])
  ∧ Bitmap.removeRow Blocks.BLOCK_J 5
    = Ret (mkBitmap [[E; E; E]; [Blocks.B; E; E]; [Blocks.B; Blocks.B; Blocks.B]])
  ∧ Bitmap.removeRow Blocks.BLOCK_J (-1) = Bitmap.removeRow Blocks.BLOCK_J 1.
Proof.
  assert (rect 2 3 Blocks.BLOCK_J) as Hrect
    by (split; [reflexivity | repeat constructor]).
  split; [split_and!; (done || lia) |].
  pose proof (removeRow_shifts_rows 2 3 Blocks.BLOCK_J 1 Hrect ltac:(lia) ltac:(lia))
    as (Hin & _).
  pose proof (removeRow_shifts_rows 2 3 Blocks.BLOCK_J 5 Hrect ltac:(lia) ltac:(lia))
    as (_ & Hpast & _).
  pose proof (removeRow_shifts_rows 2 3 Blocks.BLOCK_J (-1) Hrect ltac:(lia) ltac:(lia))
    as (_ & _ & Hneg & _).
  split_and!.
  - destruct Hin as (b' & Hrun & _); [lia | lia |].
    rewrite Hrun. vm_compute in Hrun. injection Hrun as <-. reflexivity.
  - rewrite Hpast by lia. reflexivity.
  - rewrite Hneg by lia. reflexivity.
Defined.

Lemma unfilledRows_unfilled (d : Style2D) :
  Forall (fun r => rowFilled r = false) (unfilledRows d).
Proof.
  unfold unfilledRows. apply Forall_forall. intros r Hin.
  apply list_elem_of_In, List.filter_In in Hin as [_ Hneg]. by apply negb_true_iff.
Qed.

Lemma filledCount_0 (d : Style2D) :
  filledCount d = 0 → unfilledRows d = d.
Proof.
  unfold filledCount, unfilledRows. induction d as [|r d IH]; [done |].
  simpl. destruct (rowFilled r); simpl; [lia |].
  intros Hlen. f_equal. by apply IH.
Qed.

Lemma all_filled_rows (d : Style2D) :
  Forall (fun r => rowFilled r = true) d →
  filledCount d = Z.of_nat (length d) ∧ unfilledRows d = [].
Proof.
  unfold filledCount, unfilledRows. induction 1 as [|r d Hr _ [IHn IHd]]; [done |].
  simpl. rewrite Hr. simpl. rewrite IHd. split; [lia | done].
Qed.

Lemma rows_by_isRowFilled (R C : Z) (b : Bitmap) (f : bool) :
  rect R C b →
  (∀ r, 0 ≤ r < R → Bitmap.isRowFilled b r = Ret f) →
  Forall (fun r => rowFilled r = f) (data b).
Proof.
  intros Hrect Hall. apply Forall_lookup. intros i r Hi.
  assert (array_get (data b) (Z.of_nat i) = Some r) as Hr
    by by rewrite array_get_nat.
  assert (0 ≤ Z.of_nat i < R) as Hrow.
  { destruct Hrect as [<- _]. unfold Bitmap.rows.
    apply lookup_lt_Some in Hi. lia. }
  specialize (Hall _ Hrow).
  rewrite (isRowFilled_rect R C b _ r Hrect Hr) in Hall. congruence.
Qed.

Lemma removeFilledRows_loop_none (R C : Z) (b : Bitmap) :
  rect R C b → Forall (fun r => rowFilled r = false) (data b) →
  ∀ (fuel : nat) (row : Z),
    row < R → row + 1 ≤ Z.of_nat fuel →
    Bitmap.removeFilledRows_loop fuel b row 0 = Ret (0, b).
Proof.
  intros Hrect Hall. induction fuel as [|fuel IH]; intros row Hrow Hfuel; [done |].
  cbn [Bitmap.removeFilledRows_loop]. case_decide as Hge; [| done].
  destruct (rect_row R C b row Hrect) as (r & Hr & _); [lia |].
  rewrite (isRowFilled_rect R C b row r Hrect Hr).
  assert (rowFilled r = false) as ->.
  { apply array_get_Some in Hr as [_ Hr].
    by apply (Forall_lookup_1 _ _ _ _ Hall Hr). }
  osimpl. apply IH; lia.
Qed.

(** X9. [removeFilledRows] on a rectangular grid of two rows or more and
    at least one column keeps the size, returns a count between 0 and the
    number of rows, leaves that many empty rows on top and no filled row
    anywhere; a second call returns 0 and changes nothing, and a count of
    0 means the grid is as it was. *)
Theorem removeFilledRows_leaves_no_filled_row (R C : Z) (b : Bitmap) :
  rect R C b → 2 ≤ R → 1 ≤ C →
  ∃ n b',
    Bitmap.removeFilledRows b = Ret (n, b')
    ∧ rect R C b'
    ∧ 0 ≤ n ≤ R
    ∧ (∀ r c, 0 ≤ r < n → 0 ≤ c < C → Bitmap.get b' r c = Ret E)
    ∧ (∀ r, 0 ≤ r < R → Bitmap.isRowFilled b' r = Ret false)
    ∧ Bitmap.removeFilledRows b' = Ret (0, b')
    ∧ (n = 0 → b' = b).
Proof.
  intros Hrect HR HC.
  destruct (removeFilledRows_keeps_rect R C b Hrect HR) as (n & b' & Hrun & Hn & Hbound & Hrect');
    [lia |].
  pose proof Hrun as Hshape. rewrite (removeFilledRows_rect R C b Hrect HR) in Hshape.
  injection Hshape as _ Hb'. rewrite <- Hn in Hb'.
  assert (Forall (fun r => rowFilled r = false) (data b')) as Hnone.
  { rewrite <- Hb'. cbn [data]. apply Forall_app. split.
    - apply Forall_replicate. by apply rowFilled_emptyRow.
    - apply unfilledRows_unfilled. }
  exists n, b'. split_and!; [done | done | lia | lia | | | |].
  - intros r c Hr Hc.
    rewrite get_in_rows by (rewrite (rect_rows R C b' Hrect'); lia).
    f_equal. unfold cellAt, array_get. rewrite decide_True by lia.
    rewrite <- Hb'. cbn [data].
    rewrite lookup_app_l by (rewrite length_replicate; lia).
    rewrite lookup_replicate_2 by lia.
    unfold cell, array_get, emptyRow. rewrite decide_True by lia.
    by rewrite lookup_replicate_2 by lia.
  - intros r Hr. destruct (rect_row R C b' r Hrect' Hr) as (x & Hx & _).
    rewrite (isRowFilled_rect R C b' r x Hrect' Hx). f_equal.
    apply array_get_Some in Hx as [_ Hx].
    by apply (Forall_lookup_1 _ _ _ _ Hnone Hx).
  - by apply (removeFilledRows_nothing_filled R C).
  - intros ->. rewrite <- Hb'. cbn [replicate app].
    rewrite filledCount_0 by done. by destruct b.
Qed.

Lemma removeFilledRows_leaves_no_filled_row_witness :
  let b := mkBitmap [[Blocks.R; E]; [Blocks.R; Blocks.R]; [E; Blocks.G];
                     [Blocks.G; Blocks.G]] in
  (rect 4 2 b ∧ 2 ≤ 4 ∧ 1 ≤ 2)
  ∧ Bitmap.removeFilledRows b
    = Ret (2, mkBitmap [[E; E]; [E; E]; [Blocks.R; E]; [E; Blocks.G]]).
Proof.
  intros b.
  assert (rect 4 2 b) as Hrect by (split; [reflexivity | repeat constructor]).
  split; [split_and!; (done || lia) |].
  destruct (removeFilledRows_leaves_no_filled_row 4 2 b Hrect)
    as (n & b' & Hrun & _); [lia | lia |].
  rewrite Hrun. vm_compute in Hrun. injection Hrun as <- <-. reflexivity.
Defined.

(** X10. The ends of [removeFilledRows]: a grid without rows gives 0 and
    is left alone; a rectangular grid none of whose rows [isRowFilled]
    reports filled gives 0 and is left alone (one-row grids included); a
    rectangular grid of two rows or more all of whose rows are filled
    gives the number of rows and becomes the empty grid of the same
    size. *)
Theorem removeFilledRows_none_or_all (R C : Z) (b : Bitmap) :
  (Bitmap.rows b = 0 → Bitmap.removeFilledRows b = Ret (0, b))
  ∧ (rect R C b → 1 ≤ R →
     (∀ r, 0 ≤ r < R → Bitmap.isRowFilled b r = Ret false) →
     Bitmap.removeFilledRows b = Ret (0, b))
  ∧ (rect R C b → 2 ≤ R → 0 ≤ C →
     (∀ r, 0 ≤ r < R → Bitmap.isRowFilled b r = Ret true) →
     Bitmap.removeFilledRows b = Ret (R, Bitmap.emptyWithSize R C)).
Proof.
  split_and!.
  - intros Hrows. unfold Bitmap.removeFilledRows. cbv zeta. by rewrite Hrows.
  - intros Hrect HR Hall. unfold Bitmap.removeFilledRows. cbv zeta.
    apply (removeFilledRows_loop_none R C b Hrect).
    + by apply (rows_by_isRowFilled R C).
    + rewrite (rect_rows R C b Hrect). lia.
    + lia.
  - intros Hrect HR HC Hall.
    rewrite (removeFilledRows_rect R C b Hrect HR).
    destruct (all_filled_rows (data b)) as [Hcount Hrest];
      [by apply (rows_by_isRowFilled R C) |].
    rewrite Hcount, Hrest, app_nil_r.
    destruct Hrect as [Hrows _]. unfold Bitmap.rows in Hrows. rewrite Hrows.
    reflexivity.
Qed.

Lemma removeFilledRows_none_or_all_witness :
  let none := Blocks.BLOCK_S in
  let all := mkBitmap [[Blocks.Y; Blocks.Y]; [Blocks.C; Blocks.P]] in
  (Bitmap.rows (mkBitmap []) = 0
   ∧ rect 2 3 none ∧ 1 ≤ 2
   ∧ (∀ r, 0 ≤ r < 2 → Bitmap.isRowFilled none r = Ret false)
   ∧ rect 2 2 all ∧ 2 ≤ 2 ∧ 0 ≤ 2
   ∧ (∀ r, 0 ≤ r < 2 → Bitmap.isRowFilled all r = Ret true))
  ∧ Bitmap.removeFilledRows (mkBitmap []) = Ret (0, mkBitmap [])
  ∧ Bitmap.removeFilledRows none = Ret (0, none)
  ∧ Bitmap.removeFilledRows all = Ret (2, mkBitmap [[E; E]; [E; E]]).
Proof.
  intros none all.
  assert (rect 2 3 none) as Hnone by (split; [reflexivity | repeat constructor]).
  assert (rect 2 2 all) as Hall by (split; [reflexivity | repeat constructor]).
  assert (∀ r, 0 ≤ r < 2 → Bitmap.isRowFilled none r = Ret false) as Hfn.
  { intros r Hr. assert (r = 0 ∨ r = 1) as [-> | ->] by lia; reflexivity. }
  assert (∀ r, 0 ≤ r < 2 → Bitmap.isRowFilled all r = Ret true) as Hfa.
  { intros r Hr. assert (r = 0 ∨ r = 1) as [-> | ->] by lia; reflexivity. }
  split; [split_and!; (done || lia) |].
  split_and!.
  - by apply (proj1 (removeFilledRows_none_or_all 0 0 (mkBitmap []))).
  - apply (proj1 (proj2 (removeFilledRows_none_or_all 2 3 none))); (done || lia).
  - apply (proj2 (proj2 (removeFilledRows_none_or_all 2 2 all))); (done || lia).
Defined.

(** ** Shape *)

(** X11. [fitWithin] keeps the rotation and moves the shape to where
    [isWithin] accepts it, which it does exactly when the current rotation
    is no wider than the board: the height is not tested, the row offset
    is only bounded from above and goes negative for a rotation taller
    than the board. A shape that [isWithin] accepts is left where it is,
    and a second [fitWithin] changes nothing. *)
Theorem fitWithin_then_isWithin (this : Shape) (board cur : Bitmap) :
  Shape.currentBitmap this = Ret cur → 1 ≤ Bitmap.rows cur →
  1 ≤ Bitmap.rows board →
  ∃ s',
    Shape.fitWithin this board = Ret s'
    ∧ rotations s' = rotations this
    ∧ Shape.isWithin s' board = Ret (bool_decide (width cur ≤ width board))
    ∧ rowOffset s' + Bitmap.rows cur ≤ Bitmap.rows board
    ∧ (Shape.isWithin this board = Ret true → s' = this)
    ∧ Shape.fitWithin s' board = Ret s'.
Proof.
  intros Hcur Hrows Hboard.
  set (s' := mkShape (rotations this)
               (Z.min (rowOffset this) (Bitmap.rows board - Bitmap.rows cur))
               (Z.min (Z.max (colOffset this) 0) (width board - width cur))).
  assert (Shape.currentBitmap s' = Ret cur) as Hcur' by exact Hcur.
  exists s'. split_and!.
  - by apply fitWithin_spec.
  - done.
  - rewrite (isWithin_spec s' board cur Hcur' Hrows Hboard).
    f_equal. apply bool_decide_ext. unfold fits, s'. cbn [rowOffset colOffset].
    lia.
  - unfold s'. cbn [rowOffset]. lia.
  - rewrite (isWithin_spec this board cur Hcur Hrows Hboard).
    intros [= Hfits]. apply bool_decide_eq_true in Hfits.
    destruct Hfits as (Hc0 & Hc1 & Hr). unfold s'. destruct this as [rot r c].
    cbn [rotations rowOffset colOffset] in *. f_equal; lia.
  - rewrite (fitWithin_spec s' board cur Hcur' Hrows Hboard).
    unfold s'. cbn [rotations rowOffset colOffset]. do 2 f_equal; lia.
Qed.

Lemma fitWithin_then_isWithin_witness :
  let board := Bitmap.emptyWithSize 15 10 in
  let this := Shape.setColOffset (Shape.setRowOffset (shapeOf Blocks.BLOCK_I) 20) 8 in
  (Shape.currentBitmap this = Ret Blocks.BLOCK_I
   ∧ 1 ≤ Bitmap.rows Blocks.BLOCK_I ∧ 1 ≤ Bitmap.rows board)
  ∧ Shape.fitWithin this board
    = Ret (Shape.setColOffset (Shape.setRowOffset this 14) 6)
  ∧ Shape.isWithin (Shape.setColOffset (Shape.setRowOffset this 14) 6) board
    = Ret true.
Proof.
  intros board this.
  assert (Shape.currentBitmap this = Ret Blocks.BLOCK_I) as Hcur by reflexivity.
  assert (1 ≤ Bitmap.rows Blocks.BLOCK_I) as Hrows by discriminate.
  assert (1 ≤ Bitmap.rows board) as Hboard by discriminate.
  split; [done |].
  destruct (fitWithin_then_isWithin this board Blocks.BLOCK_I Hcur Hrows Hboard)
    as (s' & Hfit & _ & Hin & _).
  rewrite Hfit. vm_compute in Hfit. injection Hfit as <-.
  split; [reflexivity | exact Hin].
Defined.

Lemma free_at_blocked (this : Shape) (board cur : Bitmap) :
  Shape.currentBitmap this = Ret cur → 1 ≤ Bitmap.rows cur →
  1 ≤ Bitmap.rows board → 0 ≤ rowOffset this →
  ∃ b, Shape.blocked this board = Ret b
       ∧ (b = false ↔ free_at cur board (rowOffset this) (colOffset this)).
Proof.
  intros Hcur Hrows Hboard Hrow.
  destruct (blocked_spec this board cur Hcur Hrows Hboard Hrow) as (b & Hrun & Hb).
  exists b. split; [done |]. rewrite Hb. unfold fits, free_at. split.
  - intros ((Hc0 & Hc1 & Hr) & Hno). split_and!; [done .. |].
    by rewrite <- overlaps_inside_iff.
  - intros (Hc0 & Hc1 & Hr & Hno). split; [done |].
    by rewrite overlaps_inside_iff.
Qed.

Lemma changeColOffset_free (this : Shape) (board cur : Bitmap) (c : Z) :
  Shape.currentBitmap this = Ret cur → 1 ≤ Bitmap.rows cur →
  1 ≤ Bitmap.rows board → 0 ≤ rowOffset this →
  ∃ moved : bool,
    Shape.changeColOffset this c board
    = Ret (moved, if moved then Shape.setColOffset this c else this)
    ∧ (moved = true ↔ free_at cur board (rowOffset this) c).
Proof.
  intros Hcur Hrows Hboard Hrow.
  destruct (free_at_blocked (Shape.setColOffset this c) board cur)
    as (b & Hrun & Hb); [done .. |].
  cbn [Shape.setColOffset rowOffset colOffset] in Hb.
  exists (negb b). unfold Shape.changeColOffset. cbv zeta. rewrite Hrun. osimpl.
  destruct b; simpl.
  - split; [by destruct this |]. rewrite <- Hb. done.
  - split; [done |]. rewrite <- Hb. done.
Qed.

Lemma down_free (this : Shape) (board cur : Bitmap) :
  Shape.currentBitmap this = Ret cur → 1 ≤ Bitmap.rows cur →
  1 ≤ Bitmap.rows board → 0 ≤ rowOffset this →
  ∃ moved : bool,
    Shape.down this board
    = Ret (moved, if moved then Shape.setRowOffset this (rowOffset this + 1)
                  else this)
    ∧ (moved = true ↔ free_at cur board (rowOffset this + 1) (colOffset this)).
Proof.
  intros Hcur Hrows Hboard Hrow.
  destruct (free_at_blocked (Shape.setRowOffset this (rowOffset this + 1)) board cur)
    as (b & Hrun & Hb); [done | done | done | cbn; lia |].
  cbn [Shape.setRowOffset rowOffset colOffset] in Hb.
  exists (negb b). unfold Shape.down. cbv zeta. rewrite Hrun. osimpl.
  destruct b; simpl.
  - split; [by destruct this |]. rewrite <- Hb. done.
  - split; [done |]. rewrite <- Hb. done.
Qed.

(** X12. [left], [right] and [down] move the shape by one column or one
    row exactly when the rotation is free at the target: inside the left,
    right and lower edge of the board and on no taken cell. Then the
    result is true and only that offset has changed; otherwise the result
    is false and the shape is as before. *)
Theorem move_succeeds_iff_target_free (this : Shape) (board cur : Bitmap) :
  Shape.currentBitmap this = Ret cur → 1 ≤ Bitmap.rows cur →
  1 ≤ Bitmap.rows board → 0 ≤ rowOffset this →
  let row := rowOffset this in
  let col := colOffset this in
  (∃ moved : bool,
     Shape.left this board
     = Ret (moved, if moved then Shape.setColOffset this (col - 1) else this)
     ∧ (moved = true ↔ free_at cur board row (col - 1)))
  ∧ (∃ moved : bool,
       Shape.right this board
       = Ret (moved, if moved then Shape.setColOffset this (col + 1) else this)
       ∧ (moved = true ↔ free_at cur board row (col + 1)))
  ∧ (∃ moved : bool,
       Shape.down this board
       = Ret (moved, if moved then Shape.setRowOffset this (row + 1) else this)
       ∧ (moved = true ↔ free_at cur board (row + 1) col)).
Proof.
  intros Hcur Hrows Hboard Hrow. cbv zeta. split_and!.
  - by apply changeColOffset_free.
  - by apply changeColOffset_free.
  - by apply down_free.
Qed.

Lemma move_succeeds_iff_target_free_witness :
  let board := Bitmap.emptyWithSize 15 10 in
  let this := Shape.setRowOffset (shapeOf Blocks.BLOCK_O) 13 in
  (Shape.currentBitmap this = Ret Blocks.BLOCK_O
   ∧ 1 ≤ Bitmap.rows Blocks.BLOCK_O ∧ 1 ≤ Bitmap.rows board
   ∧ 0 ≤ rowOffset this)
  ∧ Shape.left this board = Ret (false, this)
  ∧ Shape.right this board = Ret (true, Shape.setColOffset this 1)
  ∧ Shape.down this board = Ret (false, this).
Proof.
  intros board this.
  assert (Shape.currentBitmap this = Ret Blocks.BLOCK_O) as Hcur by reflexivity.
  assert (1 ≤ Bitmap.rows Blocks.BLOCK_O) as Hrows by discriminate.
  assert (1 ≤ Bitmap.rows board) as Hboard by discriminate.
  assert (0 ≤ rowOffset this) as Hrow by discriminate.
  split; [done |].
  destruct (move_succeeds_iff_target_free this board Blocks.BLOCK_O
              Hcur Hrows Hboard Hrow)
    as ((ml & Hl & _) & (mr & Hr & _) & (md & Hd & _)).
  rewrite Hl, Hr, Hd. vm_compute in Hl, Hr, Hd.
  destruct ml, mr, md; try discriminate. split_and!; reflexivity.
Defined.

(** X13. From a position where the rotation is free, a [left] that
    succeeds is undone by [right], and a [right] that succeeds by [left]:
    the second call succeeds and gives the first shape back. *)
Theorem left_right_round_trip (this : Shape) (board cur : Bitmap) :
  Shape.currentBitmap this = Ret cur → 1 ≤ Bitmap.rows cur →
  1 ≤ Bitmap.rows board → 0 ≤ rowOffset this →
  free_at cur board (rowOffset this) (colOffset this) →
  (∀ s1, Shape.left this board = Ret (true, s1) →
         Shape.right s1 board = Ret (true, this))
  ∧ (∀ s1, Shape.right this board = Ret (true, s1) →
           Shape.left s1 board = Ret (true, this)).
Proof.
  intros Hcur Hrows Hboard Hrow Hfree.
  assert (∀ d s1,
            Shape.changeColOffset this (colOffset this + d) board = Ret (true, s1) →
            Shape.changeColOffset s1 (colOffset s1 - d) board = Ret (true, this))
    as Hback.
  { intros d s1 Hgo.
    destruct (changeColOffset_free this board cur (colOffset this + d))
      as (m & Hrun & _); [done .. |].
    rewrite Hrun in Hgo. injection Hgo as -> <-.
    destruct (changeColOffset_free
                (Shape.setColOffset this (colOffset this + d)) board cur
                (colOffset this + d - d)) as (m & Hrun' & Hm); [done .. |].
    cbn [Shape.setColOffset rowOffset colOffset] in *.
    replace (colOffset this + d - d) with (colOffset this) in * by lia.
    rewrite Hrun'. rewrite (proj2 Hm Hfree). by destruct this. }
  split; intros s1 Hgo.
  - unfold Shape.right. replace (colOffset s1 + 1) with (colOffset s1 - -1) by lia.
    apply Hback. unfold Shape.left in Hgo.
    by replace (colOffset this + -1) with (colOffset this - 1) by lia.
  - unfold Shape.left. by apply Hback.
Qed.

Lemma left_right_round_trip_witness :
  let board := Bitmap.emptyWithSize 15 10 in
  let this := Shape.setColOffset (shapeOf Blocks.BLOCK_T) 4 in
  let moved := Shape.setColOffset this 3 in
  (Shape.currentBitmap this = Ret Blocks.BLOCK_T
   ∧ 1 ≤ Bitmap.rows Blocks.BLOCK_T ∧ 1 ≤ Bitmap.rows board
   ∧ 0 ≤ rowOffset this
   ∧ free_at Blocks.BLOCK_T board (rowOffset this) (colOffset this)
   ∧ Shape.left this board = Ret (true, moved))
  ∧ Shape.right moved board = Ret (true, this).
Proof.
  intros board this moved.
  assert (Shape.currentBitmap this = Ret Blocks.BLOCK_T) as Hcur by reflexivity.
  assert (1 ≤ Bitmap.rows Blocks.BLOCK_T) as Hrows by discriminate.
  assert (1 ≤ Bitmap.rows board) as Hboard by discriminate.
  assert (0 ≤ rowOffset this) as Hrow by discriminate.
  assert (free_at Blocks.BLOCK_T board (rowOffset this) (colOffset this)) as Hfree.
  { split_and!; try discriminate.
    intros (i & j & Hi & Hj & Hri & Hcj & _ & Hne).
    change (rowOffset this) with 0 in Hri, Hne.
    change (colOffset this) with 4 in Hcj, Hne.
    change (Bitmap.rows board) with 15 in Hri.
    change (width board) with 10 in Hcj.
    unfold board in Hne. rewrite cellAt_emptyWithSize in Hne by lia.
    discriminate. }
  assert (Shape.left this board = Ret (true, moved)) as Hleft by reflexivity.
  split; [done |].
  exact (proj1 (left_right_round_trip this board Blocks.BLOCK_T
                  Hcur Hrows Hboard Hrow Hfree) moved Hleft).
Defined.

(** X14. [copyTo] writes every taken cell of the current rotation onto
    the board at the offsets of the shape and keeps the size of the
    board. When the shape lies inside the board and has a taken cell, it
    overlaps the board it was copied to: [isOverlapping] and the test of
    a move are true there. *)
Theorem copyTo_then_overlapping (R C : Z) (this : Shape) (board cur : Bitmap) :
  Shape.currentBitmap this = Ret cur → 1 ≤ Bitmap.rows cur →
  rect R C board → 1 ≤ R → within this cur board →
  ∃ board',
    Shape.copyTo this board = Ret board'
    ∧ rect R C board'
    ∧ (∀ i j, 0 ≤ i < Bitmap.rows cur → 0 ≤ j < width cur →
              neE (cellAt cur i j) = true →
              Bitmap.get board' (rowOffset this + i) (colOffset this + j)
              = Bitmap.get cur i j)
    ∧ ((∃ i j, 0 ≤ i < Bitmap.rows cur ∧ 0 ≤ j < width cur
               ∧ neE (cellAt cur i j) = true) →
       Shape.isOverlapping this board' = Ret true
       ∧ Shape.blocked this board' = Ret true).
Proof.
  intros Hcur Hrows Hrect HR (Hc0 & Hc1 & Hr0 & Hr1).
  rewrite (width_rect R C board Hrect HR) in Hc1.
  rewrite (rect_rows R C board Hrect) in Hr1.
  destruct (copyFrom_cells R C board cur (rowOffset this) (colOffset this))
    as (board' & Hrun & Hrect' & Hcells); [done .. |].
  assert (∀ i j, 0 ≤ i < Bitmap.rows cur → 0 ≤ j < width cur →
                 neE (cellAt cur i j) = true →
                 cellAt board' (rowOffset this + i) (colOffset this + j)
                 = cellAt cur i j) as Hcopied.
  { intros i j Hi Hj Hne. rewrite Hcells by lia.
    replace (rowOffset this + i - rowOffset this) with i by lia.
    replace (colOffset this + j - colOffset this) with j by lia.
    rewrite decide_True; [done |]. split_and!; (done || lia). }
  exists board'. split_and!.
  - unfold Shape.copyTo. rewrite Hcur. by osimpl.
  - done.
  - intros i j Hi Hj Hne.
    rewrite get_in_rows by (rewrite (rect_rows R C board' Hrect'); lia).
    rewrite get_in_rows by lia. f_equal. by apply Hcopied.
  - intros (i & j & Hi & Hj & Hne).
    assert (1 ≤ Bitmap.rows board') as Hboard'
      by (rewrite (rect_rows R C board' Hrect'); lia).
    assert (Shape.isOverlapping this board' = Ret true) as Hover.
    { unfold Shape.isOverlapping. rewrite Hcur. osimpl.
      destruct (isOverlapping_total cur board' (rowOffset this) (colOffset this))
        as (b & Hb & Hiff); [done .. |].
      rewrite Hb. f_equal. apply Hiff. exists i, j.
      rewrite (rect_rows R C board' Hrect'), (width_rect R C board' Hrect' HR).
      split_and!; try (done || lia).
      by rewrite Hcopied. }
    split; [done |]. unfold Shape.blocked.
    rewrite (isWithin_spec this board' cur Hcur Hrows Hboard'). osimpl.
    by destruct (bool_decide _).
Qed.

Lemma copyTo_then_overlapping_witness :
  let board := Bitmap.emptyWithSize 3 4 in
  let this := Shape.setColOffset (Shape.setRowOffset (shapeOf Blocks.BLOCK_L) 1) 1 in
  (Shape.currentBitmap this = Ret Blocks.BLOCK_L
   ∧ 1 ≤ Bitmap.rows Blocks.BLOCK_L ∧ rect 3 4 board ∧ 1 ≤ 3
   ∧ within this Blocks.BLOCK_L board)
  ∧ Shape.copyTo this board
    = Ret (mkBitmap [[E; E; E; E];
                     [E; E; E; Blocks.O];
                     [E; Blocks.O; Blocks.O; Blocks.O]]).
Proof.
  intros board this.
  assert (Shape.currentBitmap this = Ret Blocks.BLOCK_L) as Hcur by reflexivity.
  assert (1 ≤ Bitmap.rows Blocks.BLOCK_L) as Hrows by discriminate.
  assert (rect 3 4 board) as Hrect by (split; [reflexivity | repeat constructor]).
  assert (within this Blocks.BLOCK_L board) as Hin
    by (split_and!; discriminate).
  split; [split_and!; (done || lia) |].
  destruct (copyTo_then_overlapping 3 4 this board Blocks.BLOCK_L
              Hcur Hrows Hrect ltac:(lia) Hin) as (board' & Hrun & _).
  rewrite Hrun. vm_compute in Hrun. injection Hrun as <-. reflexivity.
Defined.

(** ** Game *)

Lemma nextShape_run (R C N : Z) (g : Game) (k : Z) (s : Shape) (cur : Bitmap)
    (o : bool) :
  game_base R C N g →
  array_get (values (shapes g)) k = Some s →
  Bag.current (rotations s) = Some cur →
  Bitmap.isOverlapping cur 0 ((C - width cur) / 2) (board g) = Ret o →
  Game.nextShape k g
  = Ret (let g1 := Game.withShape (Game.setShapes g (Bag.random k (shapes g)))
                     (mkShape (rotations s) 0 ((C - width cur) / 2)) in
         if o then Game.setState g1 GAME_OVER else g1).
Proof.
  intros (Hboard & HR & HC & Hvalid & Hall & Hlen) Hs Hcur Ho.
  pose proof (Forall_lookup_1 _ _ _ _ Hall (proj2 (proj1 (array_get_Some _ _ _) Hs)))
    as Hfits.
  destruct (fits_board_current R C s cur Hfits Hcur) as [Hrows Hwidth].
  pose proof (width_rect R C _ Hboard ltac:(lia)) as Hwb.
  unfold Game.nextShape, Game.currentShape.
  cbn [shapes Game.setShapes board].
  assert (Bag.current (Bag.random k (shapes g)) = Some s) as -> by done.
  osimpl.
  rewrite (resetPosition_run s (board g) cur o); rewrite ?Hwb; try done;
    [| lia | destruct Hboard as [-> _]; lia].
  osimpl. by destruct o.
Qed.

Lemma drawn_shape (R C N : Z) (g : Game) (k : Z) :
  game_base R C N g → 0 ≤ k < N →
  ∃ s cur,
    array_get (values (shapes g)) k = Some s
    ∧ Bag.current (rotations s) = Some cur
    ∧ 1 ≤ Bitmap.rows cur ≤ R ∧ 1 ≤ width cur ≤ C.
Proof.
  intros (Hboard & HR & HC & Hvalid & Hall & Hlen) Hk.
  destruct (array_get_in_range (values (shapes g)) k) as [s Hs];
    [unfold Bag.length in Hlen; lia |].
  pose proof (Forall_lookup_1 _ _ _ _ Hall (proj2 (proj1 (array_get_Some _ _ _) Hs)))
    as Hfits.
  destruct (shape_ok_current s (proj1 Hfits)) as (cur & Hcur & _).
  unfold Shape.currentBitmap in Hcur.
  destruct (Bag.current (rotations s)) as [cur' |] eqn:Hcur'; [| done].
  injection Hcur as ->.
  exists s, cur. split_and!; [done | done | ..];
    apply (fits_board_current R C s cur Hfits Hcur').
Qed.

(** X15. [nextShape] makes the drawn shape the current one, in the
    rotation it was last left in, at row 0 and centred; the board and the
    counters are not touched. The state becomes GAME_OVER when the shape
    overlaps the board there, and is kept otherwise: a game that is over
    stays over. *)
Theorem nextShape_draws_and_tests (R C N : Z) (g : Game) (k : Z) :
  game_base R C N g → 0 ≤ k < N →
  ∃ s cur g',
    array_get (values (shapes g)) k = Some s
    ∧ Bag.current (rotations s) = Some cur
    ∧ Game.nextShape k g = Ret g'
    ∧ index (shapes g') = k
    ∧ Bag.current (shapes g')
      = Some (mkShape (rotations s) 0 ((C - width cur) / 2))
    ∧ board g' = board g ∧ lines g' = lines g ∧ score g' = score g
    ∧ (overlaps_inside cur 0 ((C - width cur) / 2) (board g) →
       state g' = GAME_OVER)
    ∧ (¬ overlaps_inside cur 0 ((C - width cur) / 2) (board g) →
       state g' = state g).
Proof.
  intros Hbase Hk.
  destruct (drawn_shape R C N g k Hbase Hk) as (s & cur & Hs & Hcur & Hrows & Hwidth).
  pose proof Hbase as (Hboard & HR & HC & Hvalid & Hall & Hlen).
  pose proof (centred_col C (width cur) ltac:(lia)) as Hcol.
  destruct (isOverlapping_total cur (board g) 0 ((C - width cur) / 2))
    as (o & Ho & Hiff); [lia | destruct Hboard as [-> _]; lia | lia |].
  rewrite overlaps_inside_iff in Hiff by lia.
  exists s, cur. eexists. split_and!; [done | done | | ..].
  - by apply (nextShape_run R C N g k s cur o).
  - by destruct o.
  - cbv zeta.
    assert (bag_valid (Bag.random k (shapes g))) as Hvalid'.
    { unfold bag_valid, Bag.random, Bag.length in *. cbn [values index]. lia. }
    destruct o; cbn [shapes Game.setState Game.withShape Game.setShapes];
      by rewrite current_update.
  - by destruct o.
  - by destruct o.
  - by destruct o.
  - intros Hover. by rewrite (proj2 Hiff Hover).
  - intros Hfree. destruct o; [| done]. destruct Hfree. by apply Hiff.
Qed.

Lemma nextShape_draws_and_tests_witness :
  let g := mkGame boardWithOverhang (Bag.new standardShapes) PAUSED 3 40 in
  (game_base ROWS COLS 7 g ∧ 0 ≤ 3 < 7)
  ∧ ∃ g', Game.nextShape 3 g = Ret g'
          ∧ Bag.current (shapes g') = Some (mkShape (rotations (shapeOf Blocks.BLOCK_O)) 0 4)
          ∧ state g' = PAUSED.
Proof.
  intros g.
  assert (game_base ROWS COLS 7 g) as Hbase.
  { unfold game_base. split_and!; try done.
    - split; [reflexivity | repeat constructor].
    - apply standardShapes_fit. }
  split; [split; [done | lia] |].
  destruct (nextShape_draws_and_tests ROWS COLS 7 g 3 Hbase ltac:(lia))
    as (s & cur & g' & Hs & Hcur & Hrun & _ & Hcurrent & _).
  vm_compute in Hs. injection Hs as <-.
  vm_compute in Hcur. injection Hcur as <-.
  exists g'. split; [done |]. split; [exact Hcurrent |].
  vm_compute in Hrun. injection Hrun as <-. reflexivity.
Defined.

Lemma fresh_board_game (shapes0 : Bag Shape) (k : Z) :
  bag_valid shapes0 →
  Forall (shape_fits_board ROWS COLS) (values shapes0) →
  0 ≤ k < Bag.length shapes0 →
  ∃ g', Game.nextShape k
          (mkGame (Bitmap.emptyWithSize ROWS COLS) shapes0 PLAYING 0 0) = Ret g'
        ∧ board g' = Bitmap.emptyWithSize ROWS COLS
        ∧ lines g' = 0 ∧ score g' = 0 ∧ state g' = PLAYING
        ∧ index (shapes g') = k
        ∧ game_ok ROWS COLS (Bag.length shapes0) g'.
Proof.
  intros Hvalid Hall Hk.
  set (g := mkGame (Bitmap.emptyWithSize ROWS COLS) shapes0 PLAYING 0 0).
  assert (game_base ROWS COLS (Bag.length shapes0) g) as Hbase.
  { unfold game_base, g. cbn [board shapes]. split_and!; try done.
    by apply emptyWithSize_rect. }
  destruct (drawn_shape _ _ _ g k Hbase Hk) as (s & cur & Hs & Hcur & Hrows & Hwidth).
  pose proof (centred_col COLS (width cur) ltac:(lia)) as Hcol.
  assert (Bitmap.isOverlapping cur 0 ((COLS - width cur) / 2) (board g)
          = Ret false) as Ho.
  { apply isOverlapping_nothing_taken; [lia | done | lia | lia |].
    intros r c Hr Hc. by apply cellAt_emptyWithSize. }
  destruct (nextShape_ok _ _ _ g k Hbase Hk) as (g' & Hrun & Hok & _).
  exists g'. split; [done |].
  rewrite (nextShape_run _ _ _ g k s cur false Hbase Hs Hcur Ho) in Hrun.
  injection Hrun as <-. split_and!; done.
Qed.

(** X16. The constructor and [clear] (the key "r") give a fresh game:
    the empty board of 15 by 10, both counters 0 and the state PLAYING,
    whatever the state was, with the drawn shape current; on the empty
    board the draw never ends the game. *)
Theorem clear_gives_fresh_game (k : Z) :
  0 ≤ k < 7 →
  (∃ g', Game.new k = Ret g'
         ∧ board g' = Bitmap.emptyWithSize ROWS COLS
         ∧ lines g' = 0 ∧ score g' = 0 ∧ state g' = PLAYING
         ∧ index (shapes g') = k)
  ∧ (∀ g, game_ok ROWS COLS 7 g →
          ∃ g', Game.clear k g = Ret g'
                ∧ board g' = Bitmap.emptyWithSize ROWS COLS
                ∧ lines g' = 0 ∧ score g' = 0 ∧ state g' = PLAYING
                ∧ index (shapes g') = k
                ∧ Game.onKeyEvent 0 k "r" g = Some (Ret g')).
Proof.
  intros Hk. split.
  - unfold Game.new. rewrite asShapes_BLOCKS. osimpl.
    destruct (fresh_board_game (Bag.new standardShapes) k)
      as (g' & Hrun & Hb & Hl & Hsc & Hst & Hi & _);
      [done | apply standardShapes_fit | done |].
    exists g'. by split_and!.
  - intros g [(Hboard & HR & HC & Hvalid & Hall & Hlen) _].
    destruct (fresh_board_game (shapes g) k)
      as (g' & Hrun & Hb & Hl & Hsc & Hst & Hi & _); [done | done | lia |].
    exists g'. unfold Game.onKeyEvent, Game.onControlKey, Game.clear.
    cbn [String.eqb Ascii.eqb Bool.eqb]. rewrite Hrun. osimpl.
    by split_and!.
Qed.

Lemma clear_gives_fresh_game_witness :
  0 ≤ 3 < 7
  ∧ Game.new 3 = Ret (gameWith (Bitmap.emptyWithSize ROWS COLS) 3).
Proof.
  split; [lia |].
  destruct (proj1 (clear_gives_fresh_game 3 ltac:(lia))) as (g' & Hrun & _).
  rewrite Hrun. vm_compute in Hrun. injection Hrun as <-. reflexivity.
Defined.

Lemma togglePaused_twice (g : Game) :
  Game.togglePaused (Game.togglePaused g) = g.
Proof. unfold Game.togglePaused. by destruct g as [b sh [] l sc]. Qed.

(** X17. The key "enter" turns PLAYING into PAUSED and PAUSED into
    PLAYING and touches nothing else; pressed twice it gives the game
    back, and it does nothing to a game that is over. While the state is
    not PLAYING, every key other than "enter" and "r" and every tick of
    the animation loop leave the game as it is; while it is PLAYING the
    play keys and a tick that is due run their methods. *)
Theorem paused_game_ignores_play (g : Game) (fuel : nat) (k : Z) :
  let paused := Game.togglePaused g in
  Game.onKeyEvent fuel k "enter" g = Some (Ret paused)
  ∧ Game.onKeyEvent fuel k "enter" paused = Some (Ret g)
  ∧ board paused = board g ∧ shapes paused = shapes g
  ∧ lines paused = lines g ∧ score paused = score g
  ∧ (state g = GAME_OVER → paused = g)
  ∧ (state g ≠ PLAYING →
     (∀ key, key ≠ "enter" → key ≠ "r" →
             Game.onKeyEvent fuel k key g = Some (Ret g))
     ∧ ∀ due, Game.update due k g = Ret g)
  ∧ (state g = PLAYING → state paused = PAUSED)
  ∧ (state g = PAUSED → state paused = PLAYING)
  ∧ (state g = PLAYING →
     Game.onKeyEvent fuel k "arrowleft" g = Some (Game.left g)
     ∧ Game.onKeyEvent fuel k "arrowright" g = Some (Game.right g)
     ∧ Game.onKeyEvent fuel k "arrowup" g = Some (Game.rotate g)
     ∧ Game.onKeyEvent fuel k "arrowdown" g = Some (Game.down k g)
     ∧ Game.onKeyEvent fuel k " " g = Game.throwDown fuel k g
     ∧ Game.onKeyEvent fuel k "spacebar" g = Game.throwDown fuel k g
     ∧ Game.update true k g = Game.down k g
     ∧ Game.update false k g = Ret g).
Proof.
  cbv zeta.
  assert (∀ g0, Game.onKeyEvent fuel k "enter" g0
                = Some (Ret (Game.togglePaused g0))) as Henter.
  { intros g0. unfold Game.onKeyEvent, Game.onControlKey.
    by cbn [String.eqb Ascii.eqb Bool.eqb negb andb]. }
  split_and!.
  - apply Henter.
  - by rewrite Henter, togglePaused_twice.
  - unfold Game.togglePaused. by destruct (state g).
  - unfold Game.togglePaused. by destruct (state g).
  - unfold Game.togglePaused. by destruct (state g).
  - unfold Game.togglePaused. by destruct (state g).
  - intros Hover. unfold Game.togglePaused. by rewrite Hover.
  - intros Hstate.
    assert (isPlaying (state g) = false) as Hplay by by destruct (state g).
    split.
    + intros key Henter' Hr. unfold Game.onKeyEvent, Game.onControlKey.
      rewrite (proj2 (String.eqb_neq _ _) Henter').
      rewrite (proj2 (String.eqb_neq _ _) Hr).
      by rewrite Hplay.
    + intros due. unfold Game.update. by rewrite Hplay.
  - intros Hplaying. unfold Game.togglePaused. by rewrite Hplaying.
  - intros Hpaused. unfold Game.togglePaused. by rewrite Hpaused.
  - intros Hplaying.
    unfold Game.onKeyEvent, Game.onControlKey, Game.onPlayKey, Game.update.
    cbn [String.eqb Ascii.eqb Bool.eqb negb andb orb].
    rewrite !Hplaying. cbn [isPlaying andb].
    by split_and!.
Qed.

Lemma paused_game_ignores_play_witness :
  let playing := gameWith (Bitmap.emptyWithSize ROWS COLS) 0 in
  let g := Game.togglePaused playing in
  (state playing = PLAYING ∧ state g ≠ PLAYING)
  ∧ state g = PAUSED
  ∧ Game.onKeyEvent 15 1 "arrowleft" g = Some (Ret g)
  ∧ Game.update true 1 g = Ret g
  ∧ Game.onKeyEvent 15 1 "enter" g = Some (Ret playing).
Proof.
  intros playing g.
  assert (state playing = PLAYING) as Hplaying by reflexivity.
  assert (state g ≠ PLAYING) as Hstate by discriminate.
  split; [split; [exact Hplaying | exact Hstate] |].
  pose proof (paused_game_ignores_play g 15 1)
    as (_ & _ & _ & _ & _ & _ & _ & Hignore & _).
  pose proof (paused_game_ignores_play playing 15 1)
    as (_ & Hback & _ & _ & _ & _ & _ & _ & Hpause & _).
  destruct (Hignore Hstate) as [Hkeys Hticks].
  split; [exact (Hpause Hplaying) |].
  split; [apply Hkeys; discriminate |].
  split; [apply Hticks | exact Hback].
Defined.

Lemma left_inv (g g' : Game) :
  Game.left g = Ret g' →
  ∃ s (m : bool) s', Game.currentShape g = Ret s
                     ∧ Shape.left s (board g) = Ret (m, s')
                     ∧ g' = Game.withShape g s'.
Proof.
  unfold Game.left. intros Hrun.
  apply bind_Ret_inv in Hrun as (s & Hs & Hrun).
  apply bind_Ret_inv in Hrun as ([m s'] & Hmove & Hrun).
  injection Hrun as <-. by exists s, m, s'.
Qed.

Lemma right_inv (g g' : Game) :
  Game.right g = Ret g' →
  ∃ s (m : bool) s', Game.currentShape g = Ret s
                     ∧ Shape.right s (board g) = Ret (m, s')
                     ∧ g' = Game.withShape g s'.
Proof.
  unfold Game.right. intros Hrun.
  apply bind_Ret_inv in Hrun as (s & Hs & Hrun).
  apply bind_Ret_inv in Hrun as ([m s'] & Hmove & Hrun).
  injection Hrun as <-. by exists s, m, s'.
Qed.

Lemma rotate_inv (g g' : Game) :
  Game.rotate g = Ret g' →
  ∃ s (m : bool) s', Game.currentShape g = Ret s
                     ∧ Shape.rotate s (board g) = Ret (m, s')
                     ∧ g' = Game.withShape g s'.
Proof.
  unfold Game.rotate. intros Hrun.
  apply bind_Ret_inv in Hrun as (s & Hs & Hrun).
  apply bind_Ret_inv in Hrun as ([m s'] & Hmove & Hrun).
  injection Hrun as <-. by exists s, m, s'.
Qed.

Lemma moveDown_true_inv (k : Z) (g g' : Game) :
  Game.moveDown k g = Ret (true, g') →
  ∃ s s', Game.currentShape g = Ret s
          ∧ Shape.down s (board g) = Ret (true, s')
          ∧ g' = Game.withShape g s'.
Proof.
  unfold Game.moveDown. intros Hrun.
  apply bind_Ret_inv in Hrun as (s & Hs & Hrun).
  apply bind_Ret_inv in Hrun as ([m s'] & Hmove & Hrun).
  destruct m.
  - injection Hrun as <-. by exists s, s'.
  - apply bind_Ret_inv in Hrun as (g1 & _ & [=]).
Qed.

(** The fields of the game that a change of the current shape leaves
    alone, and the other shapes of the bag. *)
Lemma withShape_frame (g : Game) (s0 s : Shape) :
  Game.currentShape g = Ret s0 →
  let g' := Game.withShape g s in
  board g' = board g ∧ lines g' = lines g ∧ score g' = score g
  ∧ state g' = state g
  ∧ index (shapes g') = index (shapes g)
  ∧ Bag.length (shapes g') = Bag.length (shapes g)
  ∧ ∀ i, i ≠ index (shapes g) →
         array_get (values (shapes g')) i = array_get (values (shapes g)) i.
Proof.
  intros Hs0. cbv zeta.
  assert (0 ≤ index (shapes g)) as Hindex.
  { unfold Game.currentShape, Bag.current in Hs0.
    destruct (array_get (values (shapes g)) (index (shapes g))) eqn:Hget; [| done].
    by apply array_get_Some in Hget as [? _]. }
  split_and!; try done.
  - apply update_length.
  - intros i Hi. unfold Game.withShape, Bag.update, array_get.
    cbn [shapes Game.setShapes values]. case_decide; [| done].
    apply list_lookup_insert_ne. lia.
Qed.

(** X18. [left], [right], [rotate] and a [moveDown] that returns true
    change the current shape only: the board, the counters, the state,
    the index of the bag and its other shapes are as before. *)
Theorem moves_change_only_the_piece (k : Z) (g g' : Game) :
  Game.left g = Ret g' ∨ Game.right g = Ret g' ∨ Game.rotate g = Ret g'
  ∨ Game.moveDown k g = Ret (true, g') →
  board g' = board g ∧ lines g' = lines g ∧ score g' = score g
  ∧ state g' = state g
  ∧ index (shapes g') = index (shapes g)
  ∧ Bag.length (shapes g') = Bag.length (shapes g)
  ∧ ∀ i, i ≠ index (shapes g) →
         array_get (values (shapes g')) i = array_get (values (shapes g)) i.
Proof.
  intros [Hrun | [Hrun | [Hrun | Hrun]]].
  - apply left_inv in Hrun as (s & m & s' & Hs & _ & ->).
    by apply (withShape_frame g s).
  - apply right_inv in Hrun as (s & m & s' & Hs & _ & ->).
    by apply (withShape_frame g s).
  - apply rotate_inv in Hrun as (s & m & s' & Hs & _ & ->).
    by apply (withShape_frame g s).
  - apply moveDown_true_inv in Hrun as (s & s' & Hs & _ & ->).
    by apply (withShape_frame g s).
Qed.

Lemma moves_change_only_the_piece_witness :
  let g := gameWith boardWithOverhang 0 in
  ∃ g', Game.rotate g = Ret g'
        ∧ board g' = boardWithOverhang ∧ lines g' = 0 ∧ score g' = 0
        ∧ state g' = PLAYING ∧ index (shapes g') = 0.
Proof.
  intros g.
  assert (∃ g', Game.rotate g = Ret g') as [g' Hrun] by (eexists; reflexivity).
  exists g'. split; [done |].
  destruct (moves_change_only_the_piece 0 g g' (or_intror (or_intror (or_introl Hrun))))
    as (-> & -> & -> & -> & -> & _).
  split_and!; reflexivity.
Defined.

(** ** What holds in every state of a game *)

Lemma no_filled_row_empty (R C : Z) :
  1 ≤ C → no_filled_row (Bitmap.emptyWithSize R C).
Proof.
  intros HC. unfold no_filled_row, Bitmap.emptyWithSize. cbn [data].
  apply Forall_replicate. by apply (rowFilled_emptyRow C).
Qed.

Lemma no_filled_row_isRowFilled (R C : Z) (b : Bitmap) :
  rect R C b →
  no_filled_row b ↔ ∀ r, 0 ≤ r < R → Bitmap.isRowFilled b r = Ret false.
Proof.
  intros Hrect. split.
  - intros Hnone r Hr. destruct (rect_row R C b r Hrect Hr) as (x & Hx & _).
    rewrite (isRowFilled_rect R C b r x Hrect Hx). f_equal.
    apply array_get_Some in Hx as [_ Hx].
    by apply (Forall_lookup_1 _ _ _ _ Hnone Hx).
  - by apply (rows_by_isRowFilled R C).
Qed.

Lemma removeFilledRows_no_filled_row (R C : Z) (b : Bitmap) (n : Z) (b' : Bitmap) :
  rect R C b → 2 ≤ R → 1 ≤ C →
  Bitmap.removeFilledRows b = Ret (n, b') →
  no_filled_row b' ∧ n = filledCount (data b) ∧ 0 ≤ n ≤ R.
Proof.
  intros Hrect HR HC Hrun.
  destruct (removeFilledRows_keeps_rect R C b Hrect HR)
    as (n0 & b0 & Hrun0 & Hn & Hbound & _); [lia |].
  rewrite Hrun in Hrun0. injection Hrun0 as <- <-.
  rewrite (removeFilledRows_rect R C b Hrect HR) in Hrun.
  injection Hrun as _ <-. split; [| done].
  unfold no_filled_row. cbn [data]. apply Forall_app. split.
  - apply Forall_replicate. by apply rowFilled_emptyRow.
  - apply unfilledRows_unfilled.
Qed.

Lemma landed_board (g : Game) (k : Z) (g' : Game) :
  game_ok ROWS COLS 7 g → 0 ≤ k < 7 →
  Game.landed k g = Ret g' →
  ∃ s cur b n,
    Bag.current (shapes g) = Some s
    ∧ Bag.current (rotations s) = Some cur
    ∧ Bitmap.copyFrom (board g) (rowOffset s) (colOffset s) cur = Ret b
    ∧ rect ROWS COLS b
    ∧ Bitmap.removeFilledRows b = Ret (n, board g')
    ∧ lines g' = lines g + n
    ∧ score g' = (if decide (n < 4) then score g + (lines g + n) * 10
                  else score g + 1000).
Proof.
  intros Hok Hk Hrun.
  destruct (landed_ok ROWS COLS 7 g k Hok Hk)
    as (s & b & n & b' & g0 & Hs & Hcopy & Hrm & _ & Hrun0 & _ & Hboard & Hlines & Hscore).
  rewrite Hrun in Hrun0. injection Hrun0 as <-.
  destruct Hok as [(Hrect & HR & HC & Hvalid & Hall & Hlen)
                   (s0 & cur & Hs0 & Hcur & Hwithin)].
  unfold Game.currentShape in Hs. rewrite Hs0 in Hs. injection Hs as <-.
  unfold Shape.copyTo, Shape.currentBitmap in Hcopy. rewrite Hcur in Hcopy.
  osimpl.
  pose proof (fits_board_current ROWS COLS s0 cur (current_Forall _ _ _ Hall Hs0) Hcur)
    as [Hrows Hwidth].
  destruct (copyFrom_rect ROWS COLS (board g) cur (rowOffset s0) (colOffset s0))
    as (b0 & Hb0 & Hbrect); [done | lia | lia | unfold within in Hwithin; lia |].
  rewrite Hcopy in Hb0. injection Hb0 as <-.
  exists s0, cur, b, n. rewrite Hboard. by split_and!.
Qed.

Lemma landed_stats (g : Game) (k : Z) (g' : Game) :
  game_ok ROWS COLS 7 g → 0 ≤ k < 7 →
  Game.landed k g = Ret g' →
  no_filled_row (board g')
  ∧ lines g ≤ lines g'
  ∧ (counters_ok g → counters_ok g' ∧ score g ≤ score g').
Proof.
  intros Hok Hk Hrun.
  destruct (landed_board g k g' Hok Hk Hrun)
    as (s & cur & b & n & _ & _ & _ & Hrect & Hrm & Hlines & Hscore).
  destruct (removeFilledRows_no_filled_row ROWS COLS b n (board g') Hrect)
    as (Hnone & _ & Hn); [done | done | done |].
  unfold ROWS in Hn. split_and!; [done | lia |].
  intros (Hl & Hs10 & [q Hq] & Hzero). unfold counters_ok.
  rewrite Hlines, Hscore. case_decide.
  - split_and!; try lia.
    exists (q + (lines g + n)). lia.
  - split_and!; try lia.
    exists (q + 100). lia.
Qed.

Lemma moveDown_stats (g : Game) (k : Z) (moved : bool) (g' : Game) :
  game_ok ROWS COLS 7 g → 0 ≤ k < 7 →
  Game.moveDown k g = Ret (moved, g') →
  (no_filled_row (board g) → no_filled_row (board g'))
  ∧ lines g ≤ lines g'
  ∧ (counters_ok g → counters_ok g' ∧ score g ≤ score g').
Proof.
  intros Hok Hk Hrun. destruct moved.
  - apply moveDown_true_inv in Hrun as (s & s' & Hs & _ & ->).
    unfold counters_ok. cbn [Game.withShape Game.setShapes board lines score].
    split_and!; [done | lia |]. intros Hc. split; [done | lia].
  - destruct (moveDown_ok ROWS COLS 7 g k Hok Hk) as (m & g0 & Hrun0 & _ & _ & Hland).
    rewrite Hrun in Hrun0. injection Hrun0 as <- <-.
    destruct (landed_stats g k g' Hok Hk (Hland eq_refl)) as (Hnone & Hl & Hc).
    by split_and!.
Qed.

Lemma throwDown_stats (k : Z) :
  0 ≤ k < 7 →
  ∀ (fuel : nat) (g : Game) r,
    game_ok ROWS COLS 7 g → Game.throwDown fuel k g = Some r →
    ∃ g', r = Ret g'
          ∧ (no_filled_row (board g) → no_filled_row (board g'))
          ∧ lines g ≤ lines g'
          ∧ (counters_ok g → counters_ok g' ∧ score g ≤ score g').
Proof.
  intros Hk. induction fuel as [|fuel IH]; intros g r Hok Hrun; [done |].
  cbn [Game.throwDown] in Hrun.
  destruct (moveDown_ok ROWS COLS 7 g k Hok Hk) as (m & g1 & Hmove & Hok1 & _).
  rewrite Hmove in Hrun.
  destruct (moveDown_stats g k m g1 Hok Hk Hmove) as (Hnone & Hl & Hc).
  destruct m.
  - destruct (IH g1 r Hok1 Hrun) as (g' & -> & Hnone' & Hl' & Hc').
    exists g'. split_and!; [done | by auto | lia |].
    intros Hcg. destruct (Hc Hcg) as [Hc1 Hs1]. destruct (Hc' Hc1) as [Hc2 Hs2].
    split; [done | lia].
  - injection Hrun as <-. by exists g1.
Qed.

(** The board and the counters after an event: no filled row comes up and
    the counters keep their relation; only the key "r" lowers them. *)
Lemma onKeyEvent_stats (fuel : nat) (k : Z) (key : string) (g g' : Game) :
  game_ok ROWS COLS 7 g → 0 ≤ k < 7 →
  Game.onKeyEvent fuel k key g = Some (Ret g') →
  (no_filled_row (board g) → no_filled_row (board g'))
  ∧ (counters_ok g → counters_ok g')
  ∧ (key ≠ "r" → lines g ≤ lines g' ∧ (counters_ok g → score g ≤ score g')).
Proof.
  intros Hok Hk. unfold Game.onKeyEvent, Game.onControlKey.
  destruct (String.eqb key "enter").
  { cbn [negb andb]. intros [= <-].
    unfold counters_ok, Game.togglePaused.
    destruct (state g); cbn [Game.setState board lines score];
      split_and!; try done; intros _; split; (done || lia). }
  destruct (String.eqb_spec key "r") as [-> | Hr].
  { destruct (clear_ok g k Hok Hk) as (g0 & Hclear & _). rewrite Hclear. osimpl.
    cbn [negb andb]. intros [= <-]. unfold Game.clear in Hclear.
    apply nextShape_inv in Hclear as (Hb & Hl & Hs).
    cbn [board lines score] in Hb, Hl, Hs. unfold counters_ok.
    rewrite Hb, Hl, Hs. split_and!; [| | done].
    - intros _. by apply no_filled_row_empty.
    - intros _. split_and!; try lia. by exists 0. }
  cbn [negb andb]. destruct (isPlaying (state g)).
  - unfold Game.onPlayKey.
    assert (∀ s, let g1 := Game.withShape g s in
                 (no_filled_row (board g) → no_filled_row (board g1))
                 ∧ (counters_ok g → counters_ok g1)
                 ∧ (key ≠ "r" → lines g ≤ lines g1
                                ∧ (counters_ok g → score g ≤ score g1)))
      as Hframe.
    { intros s. unfold counters_ok.
      cbn [Game.withShape Game.setShapes board lines score].
      split_and!; done. }
    repeat (case_match; [intros [= Hrun] |]).
    + apply left_inv in Hrun as (s & m & s' & Hs & _ & ->).
      apply Hframe.
    + apply right_inv in Hrun as (s & m & s' & Hs & _ & ->).
      apply Hframe.
    + apply rotate_inv in Hrun as (s & m & s' & Hs & _ & ->).
      apply Hframe.
    + unfold Game.down in Hrun.
      apply bind_Ret_inv in Hrun as ([m g1] & Hmove & [= ->]).
      destruct (moveDown_stats g k m g' Hok Hk Hmove) as (Hnone & Hl & Hc).
      split_and!; [done | by intros Hcg; apply Hc |].
      intros _. split; [done |]. intros Hcg. by apply Hc.
    + destruct (throwDown_stats k Hk fuel g _ Hok Hrun)
        as (g1 & [= <-] & Hnone & Hl & Hc).
      split_and!; [done | by intros Hcg; apply Hc |].
      intros _. split; [done |]. intros Hcg. by apply Hc.
    + intros [= <-]. split_and!; done.
  - intros [= <-]. split_and!; done.
Qed.

Lemma update_stats (due : bool) (k : Z) (g g' : Game) :
  game_ok ROWS COLS 7 g → 0 ≤ k < 7 →
  Game.update due k g = Ret g' →
  (no_filled_row (board g) → no_filled_row (board g'))
  ∧ lines g ≤ lines g'
  ∧ (counters_ok g → counters_ok g' ∧ score g ≤ score g').
Proof.
  intros Hok Hk. unfold Game.update.
  destruct (isPlaying (state g) && due).
  - unfold Game.down. intros Hrun.
    apply bind_Ret_inv in Hrun as ([m g1] & Hmove & [= ->]).
    by apply (moveDown_stats g k m g').
  - intros [= <-]. split_and!; [done | lia |]. intros Hc. split; [done | lia].
Qed.

Lemma reachable_inv (g : Game) :
  reachable g →
  game_ok ROWS COLS 7 g ∧ no_filled_row (board g) ∧ counters_ok g.
Proof.
  induction 1 as [k g Hk Hnew | fuel k key g g' _ (Hok & Hnone & Hc) Hk Hkey
                  | due k g g' _ (Hok & Hnone & Hc) Hk Hupd].
  - destruct (new_ok k Hk) as (g0 & Hrun & Hok).
    rewrite Hrun in Hnew. injection Hnew as <-. split; [done |].
    unfold Game.new in Hrun. rewrite asShapes_BLOCKS in Hrun. osimpl.
    apply nextShape_inv in Hrun as (Hb & Hl & Hs).
    cbn [board lines score] in Hb, Hl, Hs. unfold counters_ok.
    rewrite Hb, Hl, Hs. split; [by apply no_filled_row_empty |].
    split_and!; try lia. by exists 0.
  - destruct (onKeyEvent_ok fuel k key g _ Hok Hk Hkey) as (g0 & [= <-] & Hok').
    destruct (onKeyEvent_stats fuel k key g g' Hok Hk Hkey) as (Hn' & Hc' & _).
    split_and!; [done | by apply Hn' | by apply Hc'].
  - destruct (update_ok due k g Hok Hk) as (g0 & Hrun & Hok').
    rewrite Hrun in Hupd. injection Hupd as <-.
    destruct (update_stats due k g g0 Hok Hk Hrun) as (Hn' & _ & Hc').
    split_and!; [done | by apply Hn' | by apply Hc'].
Qed.

(** X19. In every state that a game reaches no row of the board is
    filled: [isRowFilled] is false of each of the 15 rows, so a call of
    [removeFilledRows] there would return 0 and change nothing. *)
Theorem reachable_board_has_no_filled_row (g : Game) :
  reachable g →
  (∀ r, 0 ≤ r < ROWS → Bitmap.isRowFilled (board g) r = Ret false)
  ∧ Bitmap.removeFilledRows (board g) = Ret (0, board g).
Proof.
  intros Hreach.
  destruct (reachable_inv g Hreach) as ([(Hrect & HR & _) _] & Hnone & _).
  split.
  - by apply (no_filled_row_isRowFilled ROWS COLS).
  - by apply (removeFilledRows_nothing_filled ROWS COLS).
Qed.

Lemma reachable_board_has_no_filled_row_witness :
  ∃ g, reachable g
       ∧ Game.onKeyEvent 15 1 " " (gameWith (Bitmap.emptyWithSize ROWS COLS) 0)
         = Some (Ret g)
       ∧ Bitmap.isRowFilled (board g) 14 = Ret false
       ∧ Bitmap.removeFilledRows (board g) = Ret (0, board g).
Proof.
  assert (∃ g, Game.onKeyEvent 15 1 " " (gameWith (Bitmap.emptyWithSize ROWS COLS) 0)
               = Some (Ret g)) as [g Hkey]
    by (eexists; vm_compute; reflexivity).
  assert (reachable g) as Hreach.
  { apply (reach_key 15 1 " " (gameWith (Bitmap.emptyWithSize ROWS COLS) 0));
      [| lia | exact Hkey].
    apply (reach_new 0); [lia | vm_compute; reflexivity]. }
  exists g. split; [exact Hreach |]. split; [exact Hkey |].
  destruct (reachable_board_has_no_filled_row g Hreach) as [Hrows Hrm].
  split; [apply Hrows; unfold ROWS; lia | exact Hrm].
Defined.



Lemma filledCount_cons (x : list value) (d : Style2D) :
  filledCount (x :: d) = (if rowFilled x then 1 else 0) + filledCount d.
Proof.
  unfold filledCount. simpl. destruct (rowFilled x); simpl length; lia.
Qed.

Lemma filledCount_between :
  ∀ (d : Style2D) (lo hi : Z),
    0 ≤ lo ≤ hi →
    (∀ (i : nat) r, d !! i = Some r → rowFilled r = true →
                    lo ≤ Z.of_nat i < hi) →
    0 ≤ filledCount d ≤ hi - lo.
Proof.
  induction d as [|x d IH]; intros lo hi Hlo Hin.
  - unfold filledCount. simpl. lia.
  - rewrite filledCount_cons. destruct (rowFilled x) eqn:Hx.
    + pose proof (Hin 0%nat x eq_refl Hx) as H0.
      destruct (IH 0 (hi - 1)) as [Hge Hle]; [lia | | lia].
      intros i r Hr Hfilled. pose proof (Hin (S i) r Hr Hfilled). lia.
    + destruct (IH (Z.max (lo - 1) 0) (Z.max (hi - 1) (Z.max (lo - 1) 0)))
        as [Hge Hle]; [lia | | lia].
      intros i r Hr Hfilled. pose proof (Hin (S i) r Hr Hfilled). lia.
Qed.

Lemma copyFrom_row_outside (R C : Z) (this other this' : Bitmap)
    (ro co : Z) (i : Z) (x x' : list value) :
  rect R C this → 1 ≤ R → 1 ≤ Bitmap.rows other → 0 ≤ ro → 0 ≤ co →
  Bitmap.copyFrom this ro co other = Ret this' →
  ¬ ro ≤ i < ro + Bitmap.rows other →
  array_get (data this) i = Some x → array_get (data this') i = Some x' →
  rowFilled x' = rowFilled x.
Proof.
  intros Hrect HR Hother Hro Hco Hrun Hout Hx Hx'.
  destruct (copyFrom_cells R C this other ro co) as (b & Hb & Hrect' & Hcells);
    [done .. |].
  rewrite Hrun in Hb. injection Hb as <-.
  assert (0 ≤ i < R) as Hi.
  { apply array_get_Some in Hx as [Hi0 Hx]. apply lookup_lt_Some in Hx.
    destruct Hrect as [<- _]. unfold Bitmap.rows. lia. }
  destruct (rect_row R C this i Hrect Hi) as (y & Hy & Hlen).
  destruct (rect_row R C this' i Hrect' Hi) as (y' & Hy' & Hlen').
  rewrite Hx in Hy. injection Hy as <-.
  rewrite Hx' in Hy'. injection Hy' as <-.
  assert (∀ c, 0 ≤ c < C → cell x' c = cell x c) as Hcell.
  { intros c Hc. rewrite <- (cellAt_row this' i c x' Hx').
    rewrite <- (cellAt_row this i c x Hx). rewrite (Hcells i c Hi Hc).
    rewrite decide_False; [done |]. tauto. }
  destruct (rowFilled x) eqn:Hfilled.
  - apply rowFilled_spec. intros c Hc. rewrite Hcell by lia.
    apply (proj1 (rowFilled_spec x) Hfilled). lia.
  - apply not_true_is_false. intros Hfilled'.
    assert (rowFilled x = true) as Hyes; [| congruence].
    apply rowFilled_spec. intros c Hc. rewrite <- Hcell by lia.
    apply (proj1 (rowFilled_spec x')); [done | lia].
Qed.

Lemma copyFrom_filledCount (R C : Z) (this other this' : Bitmap) (ro co : Z) :
  rect R C this → 1 ≤ R → 1 ≤ Bitmap.rows other → 0 ≤ ro → 0 ≤ co →
  no_filled_row this →
  Bitmap.copyFrom this ro co other = Ret this' →
  0 ≤ filledCount (data this') ≤ Bitmap.rows other.
Proof.
  intros Hrect HR Hother Hro Hco Hnone Hrun.
  destruct (copyFrom_rect R C this other ro co) as (b & Hb & Hrect');
    [done .. |].
  rewrite Hrun in Hb. injection Hb as <-.
  cut (0 ≤ filledCount (data this') ≤ ro + Bitmap.rows other - ro); [lia |].
  apply filledCount_between; [lia |].
  intros i x' Hx' Hfilled.
  destruct (decide (ro ≤ Z.of_nat i < ro + Bitmap.rows other)) as [| Hout];
    [done | exfalso].
  assert (0 ≤ Z.of_nat i < R) as Hi.
  { apply lookup_lt_Some in Hx'. destruct Hrect' as [<- _].
    unfold Bitmap.rows. lia. }
  destruct (rect_row R C this (Z.of_nat i) Hrect Hi) as (x & Hx & _).
  assert (rowFilled x' = rowFilled x) as Heq.
  { apply (copyFrom_row_outside R C this other this' ro co (Z.of_nat i));
      try done. by rewrite array_get_nat. }
  rewrite array_get_nat in Hx.
  pose proof (Forall_lookup_1 _ _ _ _ Hnone Hx) as Hx_unfilled.
  simpl in Hx_unfilled. congruence.
Qed.

(** X21. A landing removes at most as many rows as the landed rotation
    has, when no row of the board was filled before: the rows that the
    shape was not copied to are as they were. *)
Theorem landing_removes_at_most_piece_rows (g : Game) (k : Z) (g' : Game) :
  game_ok ROWS COLS 7 g → 0 ≤ k < 7 →
  (∀ r, 0 ≤ r < ROWS → Bitmap.isRowFilled (board g) r = Ret false) →
  Game.landed k g = Ret g' →
  ∃ s cur,
    Bag.current (shapes g) = Some s
    ∧ Bag.current (rotations s) = Some cur
    ∧ lines g ≤ lines g' ≤ lines g + Bitmap.rows cur.
Proof.
  intros Hok Hk Hnone Hrun.
  destruct (landed_board g k g' Hok Hk Hrun)
    as (s & cur & b & n & Hs & Hcur & Hcopy & Hrect' & Hrm & Hlines & _).
  destruct (removeFilledRows_no_filled_row ROWS COLS b n (board g') Hrect')
    as (_ & Hn & _); [done | done | done |].
  destruct Hok as [(Hrect & HR & HC & Hvalid & Hall & Hlen)
                   (s0 & cur0 & Hs0 & Hcur0 & Hwithin)].
  rewrite Hs in Hs0. injection Hs0 as <-.
  rewrite Hcur in Hcur0. injection Hcur0 as <-.
  pose proof (fits_board_current ROWS COLS s cur (current_Forall _ _ _ Hall Hs) Hcur)
    as [Hrows Hwidth].
  destruct Hwithin as (Hc0 & _ & Hr0 & _).
  destruct (copyFrom_filledCount ROWS COLS (board g) cur b (rowOffset s) (colOffset s))
    as [Hge Hle]; try (done || lia).
  { by apply (no_filled_row_isRowFilled ROWS COLS). }
  exists s, cur. split_and!; [done | done | lia | lia].
Qed.

Lemma landing_removes_at_most_piece_rows_witness :
  let g := gameWith scenarioBoard 0 in
  (game_ok ROWS COLS 7 g ∧ 0 ≤ 0 < 7
   ∧ (∀ r, 0 ≤ r < ROWS → Bitmap.isRowFilled (board g) r = Ret false))
  ∧ ∃ g', Game.landed 0 g = Ret g' ∧ lines g ≤ lines g' ≤ lines g + 1.
Proof.
  intros g.
  assert (game_ok ROWS COLS 7 g) as Hok
    by (apply gameWith_ok; [exact scenarioBoard_rect | lia]).
  assert (0 ≤ 0 < 7) as Hk by lia.
  assert (board g = scenarioBoard) as Hboard by (vm_compute; reflexivity).
  assert (∀ r, 0 ≤ r < ROWS → Bitmap.isRowFilled (board g) r = Ret false)
    as Hnone.
  { rewrite Hboard.
    apply (no_filled_row_isRowFilled ROWS COLS); [exact scenarioBoard_rect |].
    unfold no_filled_row. vm_compute. repeat constructor. }
  split; [split_and!; [exact Hok | lia | lia | exact Hnone] |].
  assert (∃ g', Game.landed 0 g = Ret g') as [g' Hrun]
    by (eexists; vm_compute; reflexivity).
  exists g'. split; [exact Hrun |].
  destruct (landing_removes_at_most_piece_rows g 0 g' Hok Hk Hnone Hrun)
    as (s & cur & Hs & Hcur & Hbound).
  vm_compute in Hs. injection Hs as <-.
  vm_compute in Hcur. injection Hcur as <-.
  exact Hbound.
Defined.

(** *** The grids of the shapes *)

Lemma changeColOffset_rotations (this s' : Shape) (c : Z) (board : Bitmap)
    (m : bool) :
  Shape.changeColOffset this c board = Ret (m, s') →
  rotations s' = rotations this.
Proof.
  unfold Shape.changeColOffset. cbv zeta. intros Hrun.
  apply bind_Ret_inv in Hrun as (b & _ & Hrun).
  destruct b; by injection Hrun as _ <-.
Qed.

Lemma down_rotations (this s' : Shape) (board : Bitmap) (m : bool) :
  Shape.down this board = Ret (m, s') → rotations s' = rotations this.
Proof.
  unfold Shape.down. cbv zeta. intros Hrun.
  apply bind_Ret_inv in Hrun as (b & _ & Hrun).
  destruct b; by injection Hrun as _ <-.
Qed.

Lemma rotate_values (this s' : Shape) (board : Bitmap) (m : bool) :
  Shape.rotate this board = Ret (m, s') →
  values (rotations s') = values (rotations this).
Proof.
  unfold Shape.rotate. cbv zeta. intros Hrun.
  apply bind_Ret_inv in Hrun as (s1 & Hfit & Hrun).
  apply fitWithin_rotations in Hfit.
  apply bind_Ret_inv in Hrun as (o & _ & Hrun).
  destruct o; injection Hrun as _ <-; cbn [Shape.setRotations rotations];
    by rewrite Hfit.
Qed.

Lemma resetPosition_rotations (this s' : Shape) (board : Bitmap) (ok : bool) :
  Shape.resetPosition this board = Ret (ok, s') →
  rotations s' = rotations this.
Proof.
  unfold Shape.resetPosition. cbv zeta. intros Hrun.
  apply bind_Ret_inv in Hrun as (bc & _ & Hrun).
  apply bind_Ret_inv in Hrun as (cur & _ & Hrun).
  apply bind_Ret_inv in Hrun as (cc & _ & Hrun).
  apply bind_Ret_inv in Hrun as (o & _ & Hrun).
  by injection Hrun as _ <-.
Qed.

Lemma grids_withShape (g : Game) (s s' : Shape) :
  Game.currentShape g = Ret s →
  values (rotations s') = values (rotations s) →
  grids (Game.withShape g s') = grids g.
Proof.
  intros Hs Hvalues. unfold grids, Game.withShape, Bag.update.
  cbn [shapes Game.setShapes values].
  unfold Game.currentShape, Bag.current in Hs.
  destruct (array_get (values (shapes g)) (index (shapes g))) as [s0 |] eqn:Hget;
    [| done].
  injection Hs as ->. apply array_get_Some in Hget as [_ Hget].
  rewrite list_fmap_insert, Hvalues. apply list_insert_id.
  by rewrite list_lookup_fmap, Hget.
Qed.

Lemma grids_nextShape (k : Z) (g g' : Game) :
  Game.nextShape k g = Ret g' → grids g' = grids g.
Proof.
  unfold Game.nextShape. cbv zeta. intros Hrun.
  apply bind_Ret_inv in Hrun as (s & Hs & Hrun).
  apply bind_Ret_inv in Hrun as ([ok s'] & Hreset & Hrun).
  apply resetPosition_rotations in Hreset.
  assert (grids (Game.withShape (Game.setShapes g (Bag.random k (shapes g))) s')
          = grids g) as Hgrids.
  { rewrite (grids_withShape _ s s' Hs) by by rewrite Hreset. done. }
  destruct ok; by injection Hrun as <-.
Qed.

Lemma grids_landed (k : Z) (g g' : Game) :
  Game.landed k g = Ret g' → grids g' = grids g.
Proof.
  unfold Game.landed. intros Hrun.
  apply bind_Ret_inv in Hrun as (s & _ & Hrun).
  apply bind_Ret_inv in Hrun as (b & _ & Hrun).
  apply bind_Ret_inv in Hrun as ([n b'] & _ & Hrun).
  by apply grids_nextShape in Hrun.
Qed.

Lemma grids_moveDown (k : Z) (g g' : Game) (m : bool) :
  Game.moveDown k g = Ret (m, g') → grids g' = grids g.
Proof.
  unfold Game.moveDown. intros Hrun.
  apply bind_Ret_inv in Hrun as (s & Hs & Hrun).
  apply bind_Ret_inv in Hrun as ([moved s'] & Hdown & Hrun).
  apply down_rotations in Hdown.
  pose proof (grids_withShape g s s' Hs ltac:(by rewrite Hdown)) as Hgrids.
  destruct moved.
  - by injection Hrun as _ <-.
  - apply bind_Ret_inv in Hrun as (g1 & Hland & [= _ <-]).
    apply grids_landed in Hland. congruence.
Qed.

Lemma grids_throwDown (k : Z) :
  ∀ (fuel : nat) (g g' : Game),
    Game.throwDown fuel k g = Some (Ret g') → grids g' = grids g.
Proof.
  induction fuel as [|fuel IH]; intros g g' Hrun; [done |].
  cbn [Game.throwDown] in Hrun.
  destruct (Game.moveDown k g) as [[[] g1] |] eqn:Hmove; [| | done].
  - apply grids_moveDown in Hmove. apply IH in Hrun. congruence.
  - injection Hrun as <-. by apply grids_moveDown in Hmove.
Qed.

Lemma grids_onKeyEvent (fuel : nat) (k : Z) (key : string) (g g' : Game) :
  Game.onKeyEvent fuel k key g = Some (Ret g') → grids g' = grids g.
Proof.
  unfold Game.onKeyEvent, Game.onControlKey.
  destruct (String.eqb key "enter").
  { cbn [negb andb]. intros [= <-]. unfold Game.togglePaused.
    by destruct (state g). }
  destruct (String.eqb key "r").
  { destruct (Game.clear k g) as [g1 |] eqn:Hclear; [| done]. osimpl.
    cbn [negb andb]. intros [= <-]. unfold Game.clear in Hclear.
    by apply grids_nextShape in Hclear. }
  cbn [negb andb]. destruct (isPlaying (state g)); [| by intros [= <-]].
  unfold Game.onPlayKey.
  repeat (case_match; [intros [= Hrun] |]).
  - apply left_inv in Hrun as (s & m & s' & Hs & Hmove & ->).
    apply changeColOffset_rotations in Hmove.
    apply (grids_withShape g s s' Hs). by rewrite Hmove.
  - apply right_inv in Hrun as (s & m & s' & Hs & Hmove & ->).
    apply changeColOffset_rotations in Hmove.
    apply (grids_withShape g s s' Hs). by rewrite Hmove.
  - apply rotate_inv in Hrun as (s & m & s' & Hs & Hmove & ->).
    apply rotate_values in Hmove. by apply (grids_withShape g s s' Hs).
  - unfold Game.down in Hrun.
    apply bind_Ret_inv in Hrun as ([m g1] & Hmove & [= ->]).
    by apply grids_moveDown in Hmove.
  - by apply grids_throwDown in Hrun.
  - by intros [= <-].
Qed.

Lemma grids_update (due : bool) (k : Z) (g g' : Game) :
  Game.update due k g = Ret g' → grids g' = grids g.
Proof.
  unfold Game.update. destruct (isPlaying (state g) && due); [| by intros [= <-]].
  unfold Game.down. intros Hrun.
  apply bind_Ret_inv in Hrun as ([m g1] & Hmove & [= ->]).
  by apply grids_moveDown in Hmove.
Qed.

Lemma reachable_grids (g : Game) : reachable g → grids g = standardGrids.
Proof.
  induction 1 as [k g Hk Hnew | fuel k key g g' _ IH Hk Hkey
                  | due k g g' _ IH Hk Hupd].
  - unfold Game.new in Hnew. rewrite asShapes_BLOCKS in Hnew. osimpl.
    by apply grids_nextShape in Hnew.
  - apply grids_onKeyEvent in Hkey. congruence.
  - apply grids_update in Hupd. congruence.
Qed.

Lemma standardGrids_rows :
  Forall (Forall (fun b => 1 ≤ Bitmap.rows b ≤ 4 ∧ 1 ≤ width b ≤ 4))
    standardGrids.
Proof. vm_compute. repeat constructor; discriminate. Qed.

(** X22. The shapes of a game keep their grids: in every state that a
    game reaches the bag holds the seven blocks with their four
    rotations each, whatever was moved, rotated or drawn, and the current
    rotation has at most four rows. So a call of [moveDown] removes at
    most four rows; when it removes four the score goes up by 1000,
    otherwise by ten times the new count of lines. *)
Theorem reachable_shapes_keep_grids (g : Game) :
  reachable g →
  grids g = standardGrids
  ∧ (∃ s cur, Bag.current (shapes g) = Some s
              ∧ Bag.current (rotations s) = Some cur
              ∧ 1 ≤ Bitmap.rows cur ≤ 4 ∧ 1 ≤ width cur ≤ 4)
  ∧ ∀ k (moved : bool) g',
      0 ≤ k < 7 → Game.moveDown k g = Ret (moved, g') →
      lines g ≤ lines g' ≤ lines g + 4
      ∧ (moved = true → lines g' = lines g ∧ score g' = score g)
      ∧ (moved = false → lines g' = lines g + 4 → score g' = score g + 1000)
      ∧ (moved = false → lines g' < lines g + 4 →
         score g' = score g + lines g' * 10).
Proof.
  intros Hreach.
  pose proof (reachable_grids g Hreach) as Hgrids.
  destruct (reachable_inv g Hreach) as (Hok & Hnone & _).
  pose proof Hok as [(Hrect & _) (s & cur & Hs & Hcur & _)].
  assert (1 ≤ Bitmap.rows cur ≤ 4 ∧ 1 ≤ width cur ≤ 4) as Hsize.
  { pose proof standardGrids_rows as Hall. rewrite <- Hgrids in Hall.
    unfold grids in Hall. rewrite Forall_fmap in Hall.
    pose proof (current_Forall _ _ _ Hall Hs) as Hrot. simpl in Hrot.
    apply (current_Forall _ _ _ Hrot Hcur). }
  split_and!; [done | by exists s, cur |].
  intros k moved g' Hk Hrun. destruct moved.
  - apply moveDown_true_inv in Hrun as (s0 & s' & _ & _ & ->).
    cbn [Game.withShape Game.setShapes lines score].
    split_and!; (done || lia).
  - destruct (moveDown_ok ROWS COLS 7 g k Hok Hk) as (m & g0 & Hrun0 & _ & _ & Hland).
    rewrite Hrun in Hrun0. injection Hrun0 as <- <-.
    specialize (Hland eq_refl).
    destruct (landed_board g k g' Hok Hk Hland)
      as (s0 & cur0 & b & n & Hs0 & Hcur0 & Hcopy & Hrect' & Hrm & Hlines & Hscore).
    rewrite Hs in Hs0. injection Hs0 as <-.
    rewrite Hcur in Hcur0. injection Hcur0 as <-.
    destruct (removeFilledRows_no_filled_row ROWS COLS b n (board g') Hrect')
      as (_ & Hn & _); [done | done | done |].
    destruct Hok as [_ (s1 & cur1 & Hs1 & Hcur1 & Hwithin)].
    rewrite Hs in Hs1. injection Hs1 as <-.
    rewrite Hcur in Hcur1. injection Hcur1 as <-.
    destruct Hwithin as (Hc0 & _ & Hr0 & _).
    destruct (copyFrom_filledCount ROWS COLS (board g) cur b
                (rowOffset s) (colOffset s)) as [Hge Hle];
      try (done || lia).
    rewrite Hlines, Hscore. split_and!; try (done || lia).
    + intros _ Hfour. rewrite decide_False by lia. done.
    + intros _ Hless. rewrite decide_True by lia. done.
Qed.

Lemma reachable_shapes_keep_grids_witness :
  ∃ g, Game.onKeyEvent 15 1 "arrowup" (gameWith (Bitmap.emptyWithSize ROWS COLS) 0)
       = Some (Ret g)
       ∧ reachable g
       ∧ grids g = standardGrids.
Proof.
  assert (∃ g, Game.onKeyEvent 15 1 "arrowup"
                 (gameWith (Bitmap.emptyWithSize ROWS COLS) 0)
               = Some (Ret g)) as [g Hkey]
    by (eexists; vm_compute; reflexivity).
  assert (reachable g) as Hreach.
  { apply (reach_key 15 1 "arrowup" (gameWith (Bitmap.emptyWithSize ROWS COLS) 0));
      [| lia | exact Hkey].
    apply (reach_new 0); [lia | vm_compute; reflexivity]. }
  exists g. split; [exact Hkey |]. split; [exact Hreach |].
  exact (proj1 (reachable_shapes_keep_grids g Hreach)).
Defined.

(** *** Grids without rows, lists of shapes *)

Lemma cols_no_rows (b : Bitmap) : Bitmap.rows b = 0 → Bitmap.cols b = Throw.
Proof.
  unfold Bitmap.rows, Bitmap.cols. intros Hrows.
  by destruct (data b).
Qed.

(** X23. A grid without rows has no first row to read the width from:
    [cols], [rotate], [isRowFilled] and [removeRow] throw on it, and so do
    [isOverlapping] and [copyFrom] when it is the receiver or the
    argument. *)
Theorem width_of_no_rows_throws (b other : Bitmap) (row ro co : Z) :
  Bitmap.rows b = 0 →
  Bitmap.cols b = Throw
  ∧ Bitmap.rotate b = Throw
  ∧ Bitmap.isRowFilled b row = Throw
  ∧ Bitmap.removeRow b row = Throw
  ∧ Bitmap.isOverlapping b ro co other = Throw
  ∧ Bitmap.isOverlapping other ro co b = Throw
  ∧ Bitmap.copyFrom b ro co other = Throw
  ∧ Bitmap.copyFrom other ro co b = Throw.
Proof.
  intros Hrows. pose proof (cols_no_rows b Hrows) as Hcols.
  split_and!.
  - done.
  - unfold Bitmap.rotate. by rewrite Hcols.
  - unfold Bitmap.isRowFilled. by rewrite Hcols.
  - unfold Bitmap.removeRow, Bitmap.rows in *. destruct (data b); [| done].
    unfold splice1. simpl. by destruct (decide (row < 0)).
  - unfold Bitmap.isOverlapping. rewrite Hcols. by destruct (Bitmap.cols other).
  - unfold Bitmap.isOverlapping. by rewrite Hcols.
  - unfold Bitmap.copyFrom. by rewrite Hcols.
  - unfold Bitmap.copyFrom. rewrite Hcols. by destruct (Bitmap.cols other).
Qed.

Lemma width_of_no_rows_throws_witness :
  Bitmap.rows (Bitmap.emptyWithSize 0 10) = 0
  ∧ Bitmap.cols (Bitmap.emptyWithSize 0 10) = Throw
  ∧ Bitmap.isOverlapping Blocks.BLOCK_I 0 0 (Bitmap.emptyWithSize 0 10) = Throw.
Proof.
  assert (Bitmap.rows (Bitmap.emptyWithSize 0 10) = 0) as Hrows by reflexivity.
  pose proof (width_of_no_rows_throws (Bitmap.emptyWithSize 0 10) Blocks.BLOCK_I
                0 0 0 Hrows) as (Hcols & _ & _ & _ & _ & Hover & _).
  by split_and!.
Defined.

Lemma new_rect (R C : Z) (b : Bitmap) :
  rect R C b → 1 ≤ R → 1 ≤ C →
  ∃ b1 b2 b3,
    Shape.new b = Ret (mkShape (mkBag [b; b1; b2; b3] 0) 0 0)
    ∧ 1 ≤ Bitmap.rows b1 ∧ 1 ≤ Bitmap.rows b2 ∧ 1 ≤ Bitmap.rows b3.
Proof.
  intros Hrect HR HC.
  destruct (rotations_closed R C b Hrect HR HC) as (H1 & H2 & H3 & _).
  eexists _, _, _. split.
  - unfold Shape.new. rewrite (allRotations_unfold b _ _ _ H1 H2 H3). done.
  - split_and!.
    + rewrite (rect_rows C R); [lia | apply rect_gridOf; lia].
    + rewrite (rect_rows R C); [lia | apply rect_gridOf; lia].
    + rewrite (rect_rows C R); [lia | apply rect_gridOf; lia].
Qed.

(** X24. [asShapes] makes one shape of each bitmap, in order: for a list
    of rectangular grids with a row and a column each it returns as many
    shapes, the shape at a position being [new Shape] of the bitmap
    there, at row 0 and column 0 with the bitmap as its current rotation.
    A bitmap without rows anywhere in the list makes the call throw. *)
Theorem asShapes_one_shape_per_bitmap (bitmaps : list Bitmap) :
  (Forall (fun b => ∃ R C, rect R C b ∧ 1 ≤ R ∧ 1 ≤ C) bitmaps →
   ∃ all,
     Shape.asShapes bitmaps = Ret all
     ∧ length all = length bitmaps
     ∧ ∀ (i : nat) b, bitmaps !! i = Some b →
         ∃ s, all !! i = Some s
              ∧ Shape.new b = Ret s
              ∧ rowOffset s = 0 ∧ colOffset s = 0
              ∧ Bag.current (rotations s) = Some b
              ∧ Bag.length (rotations s) = 4
              ∧ shape_ok s)
  ∧ (Exists (fun b => Bitmap.rows b = 0) bitmaps →
     Shape.asShapes bitmaps = Throw).
Proof.
  split.
  - induction 1 as [|b bs (R & C & Hrect & HR & HC) _ (all & Hall & Hlen & Hnth)].
    + exists []. split_and!; [done | done |]. intros i b Hb. done.
    + destruct (new_rect R C b Hrect HR HC) as (b1 & b2 & b3 & Hnew & Hr1 & Hr2 & Hr3).
      exists (mkShape (mkBag [b; b1; b2; b3] 0) 0 0 :: all). split_and!.
      * unfold Shape.asShapes in *. cbn [mapM]. rewrite Hnew. osimpl.
        rewrite Hall. done.
      * simpl. by rewrite Hlen.
      * intros [|i] b' Hb'.
        -- injection Hb' as <-. eexists. split; [done |].
           split_and!; try done.
           split; [done |]. cbn [rotations values].
           pose proof (rect_rows R C b Hrect).
           repeat constructor; lia.
        -- by apply Hnth.
  - induction 1 as [b bs Hrows | b bs _ IH].
    + unfold Shape.asShapes. cbn [mapM]. unfold Shape.new, Bitmap.allRotations.
      assert (Bitmap.rotate b = Throw) as Hrot.
      { unfold Bitmap.rotate. by rewrite (cols_no_rows b Hrows). }
      unfold for_range. simpl. by rewrite Hrot.
    + unfold Shape.asShapes in *. cbn [mapM]. rewrite IH.
      by destruct (Shape.new b).
Qed.

Lemma asShapes_one_shape_per_bitmap_witness :
  Forall (fun b => ∃ R C, rect R C b ∧ 1 ≤ R ∧ 1 ≤ C) Blocks.BLOCKS
  ∧ ∃ all, Shape.asShapes Blocks.BLOCKS = Ret all ∧ length all = 7%nat.
Proof.
  assert (Forall (fun b => ∃ R C, rect R C b ∧ 1 ≤ R ∧ 1 ≤ C) Blocks.BLOCKS)
    as Hall.
  { repeat constructor.
    - exists 1, 4. split_and!; [split; [reflexivity | repeat constructor] | lia | lia].
    - exists 2, 3. split_and!; [split; [reflexivity | repeat constructor] | lia | lia].
    - exists 2, 3. split_and!; [split; [reflexivity | repeat constructor] | lia | lia].
    - exists 2, 2. split_and!; [split; [reflexivity | repeat constructor] | lia | lia].
    - exists 2, 3. split_and!; [split; [reflexivity | repeat constructor] | lia | lia].
    - exists 2, 3. split_and!; [split; [reflexivity | repeat constructor] | lia | lia].
    - exists 2, 3. split_and!; [split; [reflexivity | repeat constructor] | lia | lia]. }
  split; [exact Hall |].
  destruct (proj1 (asShapes_one_shape_per_bitmap Blocks.BLOCKS) Hall)
    as (all & Hrun & Hlen & _).
  exists all. split; [exact Hrun | exact Hlen].
Defined.

(** ** The counters as text *)

Lemma list_ascii_app (a b : string) :
  list_ascii_of_string (a +:+ b)
  = list_ascii_of_string a ++ list_ascii_of_string b.
Proof. induction a as [|c a IH]; [done |]. simpl. by rewrite IH. Qed.

Lemma string_length_list (s : string) :
  String.length s = length (list_ascii_of_string s).
Proof. induction s as [|c s IH]; [done |]. simpl. by rewrite IH. Qed.

Lemma list_ascii_substring (s : string) :
  ∀ n m : nat,
    list_ascii_of_string (substring n m s)
    = take m (drop n (list_ascii_of_string s)).
Proof.
  induction s as [|c s IH]; intros n m.
  - by destruct n, m.
  - destruct n as [|n].
    + destruct m as [|m]; [done |]. simpl. by rewrite IH.
    + simpl. apply IH.
Qed.

Lemma list_ascii_inj (a b : string) :
  list_ascii_of_string a = list_ascii_of_string b → a = b.
Proof.
  intros Heq. rewrite <- (string_of_list_ascii_of_string a).
  rewrite <- (string_of_list_ascii_of_string b). by rewrite Heq.
Qed.

Lemma list_ascii_substr (text : string) (start : Z) :
  let len := Z.of_nat (String.length text) in
  let s := if decide (start < 0) then Z.max (len + start) 0
           else Z.min start len in
  list_ascii_of_string (substr text start)
  = drop (Z.to_nat s) (list_ascii_of_string text).
Proof.
  cbv zeta. unfold substr. cbv zeta. rewrite list_ascii_substring.
  apply take_ge. rewrite length_drop, <- string_length_list. lia.
Qed.

Lemma list_ascii_prependZeros (numberToString : Z → string) (value size : Z) :
  let digits := numberToString value in
  let len := 6 + Z.of_nat (String.length digits) in
  let start := len - size in
  let s := if decide (start < 0) then Z.max (len + start) 0
           else Z.min start len in
  list_ascii_of_string (prependZeros numberToString value size)
  = drop (Z.to_nat s) (replicate 6 "0"%char ++ list_ascii_of_string digits).
Proof.
  cbv zeta. unfold prependZeros. cbv zeta.
  rewrite list_ascii_substr, list_ascii_app.
  assert (String.length ("000000" +:+ numberToString value)
          = (6 + String.length (numberToString value))%nat) as ->.
  { by rewrite !string_length_list, list_ascii_app, length_app. }
  replace (Z.of_nat (6 + String.length (numberToString value)))
    with (6 + Z.of_nat (String.length (numberToString value))) by lia.
  done.
Qed.

Lemma list_ascii_zeros (n : Z) :
  list_ascii_of_string (zeros n) = replicate (Z.to_nat n) "0"%char.
Proof. unfold zeros. apply list_ascii_of_string_of_list_ascii. Qed.

Lemma pretty_N_go_length_upper (n : nat) :
  ∀ (x : N) (s : string),
    (x < 10 ^ N.of_nat n)%N →
    (String.length s ≤ String.length (pretty_N_go x s) ≤ n + String.length s)%nat.
Proof.
  induction n as [|n IH]; intros x s Hx.
  - assert (x = 0%N) as -> by (simpl in Hx; lia). rewrite pretty_N_go_0. lia.
  - destruct (decide (x = 0%N)) as [-> | Hpos]; [rewrite pretty_N_go_0; lia |].
    rewrite pretty_N_go_step by lia.
    assert (x `div` 10 < 10 ^ N.of_nat n)%N as Hdiv.
    { apply N.Div0.div_lt_upper_bound.
      rewrite Nat2N.inj_succ, N.pow_succ_r' in Hx. lia. }
    specialize (IH _ (String (pretty_N_char (x `mod` 10)) s) Hdiv).
    simpl in IH. lia.
Qed.

Lemma pretty_N_go_length_lower (n : nat) :
  ∀ (x : N) (s : string),
    (10 ^ N.of_nat n ≤ x)%N →
    (n + 1 + String.length s ≤ String.length (pretty_N_go x s))%nat.
Proof.
  induction n as [|n IH]; intros x s Hx.
  - simpl in Hx. rewrite pretty_N_go_step by lia.
    destruct (pretty_N_go_length_upper (N.to_nat x) (x `div` 10)
                (String (pretty_N_char (x `mod` 10)) s)) as [Hge _].
    { apply N.Div0.div_lt_upper_bound.
      pose proof (N.pow_gt_lin_r 10 (N.of_nat (N.to_nat x)) ltac:(lia)). lia. }
    simpl in Hge. lia.
  - assert (0 < x)%N as Hpos.
    { pose proof (N.pow_nonzero 10 (N.of_nat (S n)) ltac:(lia)). lia. }
    rewrite pretty_N_go_step by lia.
    assert (10 ^ N.of_nat n ≤ x `div` 10)%N as Hdiv.
    { apply N.div_le_lower_bound; [lia |].
      rewrite Nat2N.inj_succ, N.pow_succ_r' in Hx. lia. }
    specialize (IH _ (String (pretty_N_char (x `mod` 10)) s) Hdiv).
    simpl in IH. lia.
Qed.

Lemma pretty_Z_N (value : Z) :
  0 < value → pretty value = pretty_N_go (Z.to_N value) "".
Proof. intros Hpos. by destruct value. Qed.

Lemma pretty_length_upper (value size : Z) :
  0 ≤ value < 10 ^ size → 1 ≤ size →
  1 ≤ Z.of_nat (String.length (pretty value)) ≤ size.
Proof.
  intros Hvalue Hsize.
  destruct (decide (value = 0)) as [-> | Hne]; [simpl; lia |].
  rewrite pretty_Z_N by lia.
  destruct (pretty_N_go_length_upper (Z.to_nat size) (Z.to_N value) "")
    as [_ Hle].
  { apply N2Z.inj_lt. rewrite N2Z.inj_pow, Z2N.id by lia.
    rewrite nat_N_Z, Z2Nat.id by lia. simpl. lia. }
  pose proof (pretty_N_go_length_lower 0 (Z.to_N value) "" ltac:(simpl; lia))
    as Hge.
  simpl in Hle, Hge. lia.
Qed.

Lemma pretty_length_lower (value size : Z) :
  10 ^ size ≤ value → 0 ≤ size →
  size < Z.of_nat (String.length (pretty value)).
Proof.
  intros Hvalue Hsize.
  assert (0 < value) as Hpos by (pose proof (Z.pow_pos_nonneg 10 size); lia).
  rewrite pretty_Z_N by lia.
  pose proof (pretty_N_go_length_lower (Z.to_nat size) (Z.to_N value) "") as Hge.
  simpl in Hge. cut (10 ^ N.of_nat (Z.to_nat size) ≤ Z.to_N value)%N; [lia |].
  apply N2Z.inj_le. rewrite N2Z.inj_pow, Z2N.id by lia.
  rewrite nat_N_Z, Z2Nat.id by lia. simpl. lia.
Qed.

(** X25. [prependZeros(value, size)] on a safe integer [value] that is
    not negative, whose text is its decimal digits. When [value] is
    below 10 to the [size] (with [size] from 1 to 7) the result is the
    digits with zeros in front, [size] characters in all. From 10 to the
    [size] on the result still has [size] characters: the leading
    digits are cut off. Whatever the text of [value] is, asking for more
    characters than the six zeros and the text make gives fewer, as the
    start then counts from the end, and a negative [size] gives the empty
    text. *)
Theorem prependZeros_pads_or_cuts (numberToString : Z → string)
    (value size : Z) :
  (∀ n, isSafeInteger n → numberToString n = pretty n) →
  let digits := numberToString value in
  let len := 6 + Z.of_nat (String.length digits) in
  let result := prependZeros numberToString value size in
  (0 ≤ value < 10 ^ size → 1 ≤ size ≤ 7 →
   digits = pretty value
   ∧ Z.of_nat (String.length result) = size
   ∧ result = zeros (size - Z.of_nat (String.length digits)) +:+ digits)
  ∧ (10 ^ size ≤ value → isSafeInteger value → 0 ≤ size →
     digits = pretty value
     ∧ Z.of_nat (String.length result) = size
     ∧ ∃ cut, cut ≠ "" ∧ digits = cut +:+ result)
  ∧ (len < size → Z.of_nat (String.length result) = Z.min (size - len) len)
  ∧ (size < 0 → result = "").
Proof.
  intros Hdigits. cbv zeta.
  pose proof (list_ascii_prependZeros numberToString value size) as Hlist.
  cbv zeta in Hlist.
  set (digits := numberToString value) in *.
  set (d := Z.of_nat (String.length digits)) in *.
  assert (length (list_ascii_of_string digits) = Z.to_nat d) as Hd
    by (unfold d; rewrite <- string_length_list; lia).
  split_and!.
  - intros Hvalue Hsize.
    assert (digits = pretty value) as Hpretty.
    { apply Hdigits. unfold isSafeInteger.
      assert (10 ^ size ≤ 10 ^ 7) as Hpow by (apply Z.pow_le_mono_r; lia).
      assert (10 ^ 7 < 2 ^ 53) by done. lia. }
    pose proof (pretty_length_upper value size Hvalue ltac:(lia)) as Hlen.
    rewrite <- Hpretty in Hlen. fold d in Hlen.
    rewrite decide_False in Hlist by lia.
    replace (Z.to_nat (Z.min (6 + d - size) (6 + d)))
      with (Z.to_nat (6 + d - size)) in Hlist by lia.
    rewrite drop_app_le in Hlist by (rewrite length_replicate; lia).
    rewrite drop_replicate in Hlist.
    replace (6 - Z.to_nat (6 + d - size))%nat with (Z.to_nat (size - d))
      in Hlist by lia.
    split_and!.
    + done.
    + rewrite string_length_list, Hlist, length_app, length_replicate. lia.
    + apply list_ascii_inj. by rewrite Hlist, list_ascii_app, list_ascii_zeros.
  - intros Hvalue Hsafe Hsize.
    assert (digits = pretty value) as Hpretty by by apply Hdigits.
    pose proof (pretty_length_lower value size Hvalue Hsize) as Hlen.
    rewrite <- Hpretty in Hlen. fold d in Hlen.
    rewrite decide_False in Hlist by lia.
    replace (Z.to_nat (Z.min (6 + d - size) (6 + d)))
      with (6 + Z.to_nat (d - size))%nat in Hlist by lia.
    rewrite drop_app_ge in Hlist by (rewrite length_replicate; lia).
    rewrite length_replicate in Hlist.
    replace (6 + Z.to_nat (d - size) - 6)%nat with (Z.to_nat (d - size))
      in Hlist by lia.
    split_and!.
    + done.
    + rewrite string_length_list, Hlist, length_drop. lia.
    + exists (string_of_list_ascii
                (take (Z.to_nat (d - size)) (list_ascii_of_string digits))).
      split.
      * intros Hempty.
        apply (f_equal list_ascii_of_string) in Hempty.
        rewrite list_ascii_of_string_of_list_ascii in Hempty.
        apply (f_equal length) in Hempty. rewrite length_take in Hempty.
        simpl in Hempty. lia.
      * apply list_ascii_inj.
        rewrite list_ascii_app, list_ascii_of_string_of_list_ascii, Hlist.
        by rewrite take_drop.
  - intros Hsize. rewrite decide_True in Hlist by lia.
    rewrite string_length_list, Hlist, length_drop, length_app, length_replicate.
    lia.
  - intros Hsize. rewrite decide_False in Hlist by lia.
    apply list_ascii_inj. rewrite Hlist. simpl list_ascii_of_string.
    apply drop_ge. rewrite length_app, length_replicate. lia.
Qed.

Lemma prependZeros_pads_or_cuts_witness :
  ((∀ n, isSafeInteger n → pretty n = pretty n)
   ∧ 0 ≤ 120 < 10 ^ 5 ∧ 1 ≤ 5 ≤ 7
   ∧ 10 ^ 5 ≤ 100000 ∧ isSafeInteger 100000 ∧ 0 ≤ 5)
  ∧ prependZeros pretty 120 5 = "00120"
  ∧ prependZeros pretty 100000 5 = "00000"
  ∧ "100000" = "1" +:+ prependZeros pretty 100000 5.
Proof.
  assert (∀ n, isSafeInteger n → pretty n = pretty n) as Hdigits by done.
  assert (isSafeInteger 100000) as Hsafe by done.
  split; [split_and!; (done || lia) |].
  pose proof (prependZeros_pads_or_cuts pretty 120 5 Hdigits) as (Hpad & _).
  pose proof (prependZeros_pads_or_cuts pretty 100000 5 Hdigits) as (_ & Hcut & _).
  destruct Hpad as (_ & _ & Hpad); [lia | lia |].
  destruct Hcut as (_ & _ & cut & _ & Hcut); [lia | exact Hsafe | lia |].
  split_and!.
  - rewrite Hpad. reflexivity.
  - reflexivity.
  - reflexivity.
Defined.
